(** * mongo-utility: schema inference, type coercion and document validation

    A shallow embedding of the enhanced export script (schema analysis and
    SQL generation) and of the enhanced import script (type casting,
    document validation, batched insertion), with the properties of the
    design document stated and proved over it.

    Layout:
    - [JS]       the fragment of the JavaScript runtime the scripts rely on;
    - [Exporter] analyzeFieldTypes, analyzeObject, getValueType,
                 generateCreateTableSQL, generateInsertSQL, flattenObject,
                 formatValueForSQL (enhanced export script);
    - [Importer] castToType and its helpers, validateDocument, getValueType,
                 the batching loop of importCollectionData (import script);
    - [ImportData] importCollectionData as a whole: the validation pass,
                 the clearing of the collection, the batches (import script);
    - [Spec]     the vocabulary of the statements;
    - [Terms]    further vocabulary, and examples to run;
    - the lemmas and theorems.

    How the scripts are read:
    - a number is an IEEE-754 double, a string a sequence of bytes;
    - a call returns or throws, and a thrown error carries its message;
    - the export script only reads its documents, which are trees there;
      validateDocument assigns to properties, so in the import script
      objects live in a store and are held by reference;
    - the members that the scripts read by name from data (constructor,
      hasOwnProperty, toString) can be hidden by own fields of that name;
    - a property read under a name taken from data goes through to
      [Object.prototype]: the tables of the export script are read so, and
      the counters that its walks leave on [Object.prototype] are part of
      the state;
    - what goes to the console is left out. *)

From Stdlib Require Import ZArith Lia Ascii String Floats Uint63 DecimalString.
From stdpp Require Import base option list strings.

Set Default Proof Using "Type".
Set Warnings "-register-all".

(* ===================================================================== *)
(** * The JavaScript runtime fragment *)
(* ===================================================================== *)

Module JS.

(** ** Completion records: a call returns or throws *)

Inductive result (A : Type) : Type :=
| Ok (a : A)
| Throw (message : string).
Arguments Ok {A} a.
Arguments Throw {A} message.

Definition rbind {A B} (m : result A) (k : A → result B) : result B :=
  match m with
  | Ok a => k a
  | Throw e => Throw e
  end.

(** ** Strings

    A JavaScript string is kept as a Rocq [string]; code points outside
    ASCII are carried by their UTF-8 bytes, which every operation below
    leaves alone. *)

Definition q1 : string := String "039" EmptyString.   (* ' *)
Definition q2 : string := String "034" EmptyString.   (* the JSON quote *)
Definition bq : string := String "096" EmptyString.   (* ` *)
Definition nl : string := String "010" EmptyString.   (* \n *)
Definition backslash : string := String "092" EmptyString.

Definition lower_ascii (c : ascii) : ascii :=
  let n := nat_of_ascii c in
  if (65 <=? n) && (n <=? 90) then ascii_of_nat (n + 32) else c.

(** [String.prototype.toLowerCase].  Outside ASCII only U+0130 and U+212A
    have a lower-case form containing an ASCII letter (i and k); their UTF-8
    bytes are kept, which never produces one of the eight keywords that
    castToBoolean compares the result with. *)
Fixpoint toLowerCase (s : string) : string :=
  match s with
  | EmptyString => EmptyString
  | String c rest => String (lower_ascii c) (toLowerCase rest)
  end.

(** [s.replace(/c/g, by)] for a one-character pattern. *)
Fixpoint replace_char (c : ascii) (by_ : string) (s : string) : string :=
  match s with
  | EmptyString => EmptyString
  | String d rest =>
      if Ascii.eqb c d then by_ +:+ replace_char c by_ rest
      else String d (replace_char c by_ rest)
  end.

(** [s.replace(/\[\]/g, by)]. *)
Fixpoint replace_brackets (by_ : string) (s : string) : string :=
  match s with
  | EmptyString => EmptyString
  | String c rest =>
      match rest with
      | String d rest' =>
          if Ascii.eqb c "[" && Ascii.eqb d "]"
          then by_ +:+ replace_brackets by_ rest'
          else String c (replace_brackets by_ rest)
      | EmptyString => String c EmptyString
      end
  end.

(** [s.replace('T', by)]: only the first occurrence. *)
Fixpoint replace_first (c : ascii) (by_ : string) (s : string) : string :=
  match s with
  | EmptyString => EmptyString
  | String d rest =>
      if Ascii.eqb c d then by_ +:+ rest else String d (replace_first c by_ rest)
  end.

(** [xs.join(sep)] on strings. *)
Fixpoint join (sep : string) (xs : list string) : string :=
  match xs with
  | [] => ""
  | [x] => x
  | x :: rest => x +:+ sep +:+ join sep rest
  end.

(** Decimal text of an index or a counter. *)
Definition nat_to_string (n : nat) : string :=
  NilEmpty.string_of_uint (Nat.to_uint n).

(** ** Numbers: IEEE-754 doubles *)

Definition number := float.

Definition Z_to_number (z : Z) : number :=
  match z with
  | Z0 => 0%float
  | Zpos _ => PrimFloat.of_uint63 (Uint63.of_Z z)
  | Zneg _ => PrimFloat.opp (PrimFloat.of_uint63 (Uint63.of_Z (Z.opp z)))
  end.

(** Truncation toward zero of a finite double (ToIntegerOrInfinity). *)
Definition number_trunc (x : number) : Z :=
  match Prim2SF x with
  | S754_finite s m e =>
      let mag := match e with
                 | Zneg p => Z.shiftr (Zpos m) (Zpos p)
                 | _ => Z.shiftl (Zpos m) e
                 end in
      if s then Z.opp mag else mag
  | _ => 0%Z
  end.

Definition number_is_finite (x : number) : bool :=
  negb (PrimFloat.is_nan x) && negb (PrimFloat.is_infinity x).

(** [x === y] and [x > y] on numbers. *)
Definition number_eq (x y : number) : bool := PrimFloat.eqb x y.
Definition number_gt (x y : number) : bool := PrimFloat.ltb y x.

Definition is_digit (c : ascii) : bool :=
  let n := nat_of_ascii c in (48 <=? n) && (n <=? 57).

Fixpoint digits_value (acc : Z) (s : string) : option Z :=
  match s with
  | EmptyString => Some acc
  | String c rest =>
      if is_digit c
      then digits_value (10 * acc + Z.of_nat (nat_of_ascii c - 48))%Z rest
      else None
  end.

(** The value of a plain decimal literal of at most fifteen digits, which
    a double holds exactly. *)
Definition short_decimal (s : string) : option Z :=
  if (1 <=? String.length s) && (String.length s <=? 15)
  then digits_value 0 s else None.

(** ** Values

    The values a document can hold once decoded from BSON or JSON.
    [JDate] carries the time value in milliseconds ([None] is the invalid
    date, whose time value is NaN); [JObjectId] carries the hex form of a
    driver identifier.  The field list of [JObj] is the object's own
    string keys in enumeration order, without duplicates.  (An instance of
    another driver class, a Binary or a Decimal128 say, is an object with
    a constructor of another name; it is not told apart from a plain
    object here.) *)

Inductive value : Type :=
| JNull
| JUndefined
| JBool (b : bool)
| JNum (n : number)
| JStr (s : string)
| JDate (t : option Z)
| JObjectId (hex : string)
| JArr (items : list value)
| JObj (fields : list (string * value)).

(** ** The built-ins the scripts call

    Everything the scripts take from the engine or from the driver and
    that the development does not spell out itself. *)

Class Runtime : Type := {
  (** Number::toString, used by [String(n)], template literals and join *)
  Number_toString : number → string;
  (** StringToNumber on the literals that [short_decimal] does not cover *)
  StringToNumber_other : string → number;
  (** the time value of [new Date(s)]; [None] when it is NaN *)
  Date_parse : string → option Z;
  (** [Date.prototype.toISOString] at a valid time value *)
  Date_toISOString : Z → string;
  (** [JSON.parse]; [None] when it throws a SyntaxError *)
  JSON_parse : string → option value;
  (** [ObjectId.isValid] of the driver *)
  ObjectId_isValid : string → bool;
  (** the hex form of [new ObjectId(s)] *)
  ObjectId_fromString : string → string
}.

(** [Number(s)] *)
Definition StringToNumber `{Runtime} (s : string) : number :=
  match short_decimal s with
  | Some z => Z_to_number z
  | None => StringToNumber_other s
  end.

(** [TimeClip]: the time value of [new Date(x)]. *)
Definition TimeClip (x : number) : option Z :=
  if number_is_finite x && negb (number_gt (PrimFloat.abs x) 8.64e15%float)
  then Some (number_trunc x) else None.

(** [date.getTime()] *)
Definition getTime (t : option Z) : number :=
  match t with
  | Some z => Z_to_number z
  | None => PrimFloat.nan
  end.

(** [isNaN(date.getTime())]: the time value is NaN for the invalid date
    and for no other. *)
Definition time_is_NaN (t : option Z) : bool :=
  match t with Some _ => false | None => true end.

(** [date.toISOString()] throws a RangeError on the invalid date. *)
Definition toISOString `{Runtime} (t : option Z) : result string :=
  match t with
  | Some z => Ok (Date_toISOString z)
  | None => Throw "Invalid time value"
  end.

(** ** Own properties of plain objects *)

Fixpoint own {A} (key : string) (fields : list (string * A)) : option A :=
  match fields with
  | [] => None
  | (k, v) :: rest => if String.eqb k key then Some v else own key rest
  end.

Definition has_own {A} (key : string) (fields : list (string * A)) : bool :=
  match own key fields with Some _ => true | None => false end.

(** An array index is the canonical decimal text of an integer below
    2^32 - 1; such keys are enumerated first, in ascending order. *)
Definition array_index (key : string) : option Z :=
  match key with
  | EmptyString => None
  | String c rest =>
      if Ascii.eqb c "0" && negb (String.eqb rest "") then None
      else if String.length key <=? 10 then
        match digits_value 0 key with
        | Some z => if (z <? 4294967295)%Z then Some z else None
        | None => None
        end
      else None
  end.

(** Where a new own key goes in the enumeration order. *)
Fixpoint insert_new {A} (key : string) (v : A) (fields : list (string * A))
  : list (string * A) :=
  match fields with
  | [] => [(key, v)]
  | (k, w) :: rest =>
      match array_index key, array_index k with
      | Some i, Some j =>
          if (i <? j)%Z then (key, v) :: fields else (k, w) :: insert_new key v rest
      | Some _, None => (key, v) :: fields
      | None, _ => (k, w) :: insert_new key v rest
      end
  end.

Fixpoint replace_own {A} (key : string) (v : A) (fields : list (string * A))
  : list (string * A) :=
  match fields with
  | [] => []
  | (k, w) :: rest =>
      if String.eqb k key then (k, v) :: rest else (k, w) :: replace_own key v rest
  end.

(** [o[key] = v] on a plain object. *)
Definition set_own {A} (key : string) (v : A) (fields : list (string * A))
  : list (string * A) :=
  if has_own key fields then replace_own key v fields else insert_new key v fields.

(** Names of the functions every plain object inherits from
    [Object.prototype]: reading one of them from an object that has no own
    property of that name yields that function.  (The one other inherited
    name, [__proto__], is an accessor; it is dealt with where the scripts
    read or assign a property whose name comes from data.) *)
Definition inherited_members : list string :=
  [ "constructor"; "hasOwnProperty"; "isPrototypeOf"; "propertyIsEnumerable";
    "toLocaleString"; "toString"; "valueOf";
    "__defineGetter__"; "__defineSetter__"; "__lookupGetter__"; "__lookupSetter__" ].

Definition inherited (key : string) : bool :=
  existsb (String.eqb key) inherited_members.

(** [o[key] = v] where [o] was made by an object literal and so inherits
    the accessor [__proto__]: for that key the assignment calls the
    inherited setter, which changes what [o] inherits from (or does
    nothing, for a value that is no object) and makes no own property.
    (The scripts read no inherited property of an object they fill this
    way; what a driver identifier brings along as a prototype is the
    driver's and is left out.) *)
Definition assign {A} (key : string) (v : A) (fields : list (string * A))
  : list (string * A) :=
  if String.eqb key "__proto__" then fields else set_own key v fields.

(** ** Operators on values *)

Definition typeof (v : value) : string :=
  match v with
  | JUndefined => "undefined"
  | JBool _ => "boolean"
  | JNum _ => "number"
  | JStr _ => "string"
  | JNull | JDate _ | JObjectId _ | JArr _ | JObj _ => "object"
  end.

Definition Array_isArray (v : value) : bool :=
  match v with JArr _ => true | _ => false end.

Definition instanceof_Date (v : value) : bool :=
  match v with JDate _ => true | _ => false end.

Definition is_null (v : value) : bool :=
  match v with JNull => true | _ => false end.

Definition is_undefined (v : value) : bool :=
  match v with JUndefined => true | _ => false end.

(** What [value.constructor] evaluates to: a built-in constructor
    function, known here by its [name], or an own data property called
    [constructor]. *)
Inductive constructor_ref : Type :=
| BuiltinConstructor (name : string)
| DataConstructor (v : value).

(** [value.constructor]; reading a property of null or undefined throws. *)
Definition get_constructor (v : value) : result constructor_ref :=
  match v with
  | JNull => Throw "Cannot read properties of null (reading 'constructor')"
  | JUndefined => Throw "Cannot read properties of undefined (reading 'constructor')"
  | JBool _ => Ok (BuiltinConstructor "Boolean")
  | JNum _ => Ok (BuiltinConstructor "Number")
  | JStr _ => Ok (BuiltinConstructor "String")
  | JDate _ => Ok (BuiltinConstructor "Date")
  | JObjectId _ => Ok (BuiltinConstructor "ObjectId")
  | JArr _ => Ok (BuiltinConstructor "Array")
  | JObj fields =>
      match own "constructor" fields with
      | Some c => Ok (DataConstructor c)
      | None => Ok (BuiltinConstructor "Object")
      end
  end.

(** [c.name] for [c = value.constructor]. *)
Definition constructor_name (c : constructor_ref) : result value :=
  match c with
  | BuiltinConstructor name => Ok (JStr name)
  | DataConstructor JNull => Throw "Cannot read properties of null (reading 'name')"
  | DataConstructor JUndefined =>
      Throw "Cannot read properties of undefined (reading 'name')"
  | DataConstructor (JObj fields) =>
      match own "name" fields with
      | Some n => Ok n
      | None => Ok JUndefined
      end
  | DataConstructor _ => Ok JUndefined
  end.

Definition is_string (s : string) (v : value) : bool :=
  match v with JStr t => String.eqb t s | _ => false end.

(** ** Iteration

    [xs.forEach(x => ...)] over a state that the callback updates; a throw
    in the callback ends the iteration. *)
Definition forEach {A St} (f : A → St → result St) : list A → St → result St :=
  fix go (xs : list A) (s : St) : result St :=
    match xs with
    | [] => Ok s
    | x :: rest => rbind (f x s) (go rest)
    end.

Definition forEach_indexed {A St} (f : nat → A → St → result St)
  : nat → list A → St → result St :=
  fix go (i : nat) (xs : list A) (s : St) : result St :=
    match xs with
    | [] => Ok s
    | x :: rest => rbind (f i x s) (go (S i) rest)
    end.

Definition array_items (v : value) : list value :=
  match v with JArr items => items | _ => [] end.

Definition array_length (v : value) : nat := length (array_items v).

(** ** JSON.stringify

    Compact form, no indentation.  A date serialises through its toJSON
    (the ISO text, or null for the invalid date), a driver identifier
    through its toJSON (the hex text); a property whose value is undefined
    is left out of an object and becomes null in an array; NaN and the
    infinities become null. *)

Definition hex_digit (n : nat) : ascii :=
  if n <? 10 then ascii_of_nat (48 + n) else ascii_of_nat (87 + n).

Definition JSON_escape_char (c : ascii) : string :=
  let n := nat_of_ascii c in
  if n =? 34 then backslash +:+ q2
  else if n =? 92 then backslash +:+ backslash
  else if n =? 8 then backslash +:+ "b"
  else if n =? 9 then backslash +:+ "t"
  else if n =? 10 then backslash +:+ "n"
  else if n =? 12 then backslash +:+ "f"
  else if n =? 13 then backslash +:+ "r"
  else if n <? 32 then
    backslash +:+ "u00" +:+ String (hex_digit (n / 16)) (String (hex_digit (n mod 16)) "")
  else String c "".

Fixpoint JSON_escape (s : string) : string :=
  match s with
  | EmptyString => EmptyString
  | String c rest => JSON_escape_char c +:+ JSON_escape rest
  end.

Definition JSON_quote (s : string) : string := q2 +:+ JSON_escape s +:+ q2.

(** The text of a value, [None] where JSON.stringify yields undefined. *)
Fixpoint JSON_text `{Runtime} (v : value) : option string :=
  match v with
  | JNull => Some "null"
  | JUndefined => None
  | JBool b => Some (if b then "true" else "false")
  | JNum n => Some (if number_is_finite n then Number_toString n else "null")
  | JStr s => Some (JSON_quote s)
  | JDate (Some z) => Some (JSON_quote (Date_toISOString z))
  | JDate None => Some "null"
  | JObjectId hex => Some (JSON_quote hex)
  | JArr items =>
      Some ("[" +:+ join "," (map (λ item, default "null" (JSON_text item)) items) +:+ "]")
  | JObj fields =>
      let members :=
        (fix go (fs : list (string * value)) : list string :=
           match fs with
           | [] => []
           | (k, w) :: rest =>
               match JSON_text w with
               | Some t => (JSON_quote k +:+ ":" +:+ t) :: go rest
               | None => go rest
               end
           end) fields in
      Some ("{" +:+ join "," members +:+ "}")
  end.

(** ** A runtime to run examples with

    It answers as the engine does on what the examples below ask of it:
    the decimal text of a small non-negative integer, the invalid date for
    a text that is no date; JSON.parse rejects and the driver accepts no
    identifier text. *)
Definition example_runtime : Runtime := {|
  Number_toString := λ n,
    if number_is_finite n && negb (number_gt 0%float n)
    then NilEmpty.string_of_uint (N.to_uint (Z.to_N (number_trunc n))) else "NaN";
  StringToNumber_other := λ _, PrimFloat.nan;
  Date_parse := λ _, None;
  Date_toISOString := λ _, "1970-01-01T00:00:00.000Z";
  JSON_parse := λ _, None;
  ObjectId_isValid := λ _, false;
  ObjectId_fromString := λ s, s
|}.

End JS.

(* ===================================================================== *)
(** * The enhanced export script *)
(* ===================================================================== *)

Module Exporter.
Import JS.

Notation "'let*' x ':=' m 'in' k" := (rbind m (λ x, k))
  (at level 10, x name, m at level 100, k at level 200, only parsing).

(** ** getValueType (export script)

    The identifier test reads [value.constructor.name] without checking
    that [value.constructor] is there. *)
Definition getValueType (value : value) : result string :=
  if is_null value then Ok "null"
  else if is_undefined value then Ok "undefined"
  else if Array_isArray value then Ok "array"
  else if instanceof_Date value then Ok "date"
  else if String.eqb (typeof value) "object" then
    let* c := get_constructor value in
    let* n := constructor_name c in
    if is_string "ObjectId" n then Ok "objectId" else Ok (typeof value)
  else Ok (typeof value).

(** ** analyzeObject

    [schema] is the table under construction: field path to type tag to
    number of occurrences.  The script reads [schema[fullKey]] and
    [schema[fullKey][type]] with keys that come from the documents, and
    such a read goes through to what the object inherits.  So the state of
    the walk is the own properties of [schema], [rows], together with the
    counters that the walk itself has left on [Object.prototype], which
    [schema] and every counters object inherit from. *)
Definition counts := list (string * nat).

Record frequency_table : Type := {
  rows : list (string * counts);
  on_prototype : counts
}.

(** [types[type]] on a counters object: its own counter, or else the one
    it inherits from [Object.prototype]. *)
Definition read_count (prototype : counts) (types : counts) (type : string)
  : option nat :=
  match own type types with
  | Some n => Some n
  | None => own type prototype
  end.

(** [types[type] = (types[type] || 0) + 1], which makes or updates an own
    counter. *)
Definition bump (prototype : counts) (type : string) (types : counts) : counts :=
  set_own type (default 0 (read_count prototype types type) + 1) types.

(** [if (!schema[fullKey]) schema[fullKey] = {}] followed by the count.
    Where the table has no own row for [fullKey]:
    - for [__proto__] the read yields [Object.prototype] itself: no row is
      made, and the count lands on [Object.prototype];
    - for the name of an inherited function the read yields that function:
      no row is made, and the count lands on the function;
    - for a tag that has a counter on [Object.prototype] the read yields
      that number, which is not zero: no row is made, and the assignment of
      a property to a number does nothing (the script is not in strict
      mode);
    - otherwise a row is made. *)
Definition record_type (fullKey type : string) (schema : frequency_table)
  : frequency_table :=
  match own fullKey (rows schema) with
  | Some types =>
      {| rows := replace_own fullKey (bump (on_prototype schema) type types)
                             (rows schema);
         on_prototype := on_prototype schema |}
  | None =>
      if String.eqb fullKey "__proto__" then
        {| rows := rows schema;
           on_prototype := bump [] type (on_prototype schema) |}
      else if inherited fullKey then schema
      else if has_own fullKey (on_prototype schema) then schema
      else
        {| rows := insert_new fullKey (bump (on_prototype schema) type [])
                              (rows schema);
           on_prototype := on_prototype schema |}
  end.

Definition path_join (prefix key : string) : string :=
  if String.eqb prefix "" then key else prefix +:+ "." +:+ key.

(** [Object.keys(obj).forEach(key => ... obj[key] ...)].  The own
    enumerable string keys are the fields of a plain object, the indices of
    an array, and none for a date or a driver identifier. *)
Definition forEach_key {St} (visit : string → value → St → result St)
    (obj : value) (s : St) : result St :=
  match obj with
  | JObj fields => forEach (λ entry, visit entry.1 entry.2) fields s
  | JArr items => forEach_indexed (λ i, visit (nat_to_string i)) 0 items s
  | _ => Ok s
  end.

(** [value.forEach(item => ...)] on an array. *)
Definition forEach_item {St} (visit : value → St → result St)
    (arr : value) (s : St) : result St :=
  match arr with
  | JArr items => forEach visit items s
  | _ => Ok s
  end.

Fixpoint analyzeObject (obj : value) (schema : frequency_table) (prefix : string)
  {struct obj} : result frequency_table :=
  forEach_key (λ key value schema,
    let fullKey := path_join prefix key in
    let* type := getValueType value in
    let schema := record_type fullKey type schema in
    (* Recursively analyze nested objects *)
    if String.eqb type "object" && negb (is_null value) then
      analyzeObject value schema fullKey
    else if String.eqb type "array" && (0 <? array_length value) then
      (* Analyze array elements *)
      forEach_item (λ item schema,
        if String.eqb (typeof item) "object" && negb (is_null item) then
          analyzeObject item schema (fullKey +:+ "[]")
        else Ok schema) value schema
    else Ok schema) obj schema.

(** ** analyzeFieldTypes *)

Record FieldInfo : Type := {
  type : string;       (* the most common type tag *)
  nullable : bool;
  samples : nat
}.

(** [types[key]] where it is compared; a tag that was not counted weighs
    nothing. *)
Definition count_of (types : counts) (key : string) : nat :=
  default 0 (own key types).

(** [Object.keys(types).reduce((a, b) => types[a] > types[b] ? a : b)];
    reduce without an initial value throws on an empty array. *)
Definition mostCommon (types : counts) : result string :=
  match map fst types with
  | [] => Throw "Reduce of empty array with no initial value"
  | first :: others =>
      Ok (fold_left (λ a b, if count_of types b <? count_of types a then a else b)
                    others first)
  end.

(** [Math.max(...Object.values(types))] on counters. *)
Definition Math_max (xs : list nat) : nat := fold_right Nat.max 0 xs.

(** [types['null'] > 0], read through to what [types] inherits; the
    comparison is false when there is no such counter. *)
Definition null_seen (prototype : counts) (types : counts) : bool :=
  match read_count prototype types "null" with
  | Some n => 0 <? n
  | None => false
  end.

Definition reduce_types (prototype : counts) (types : counts) : result FieldInfo :=
  let* t := mostCommon types in
  Ok {| type := t; nullable := null_seen prototype types;
        samples := Math_max (map snd types) |}.

Definition schema_t := list (string * FieldInfo).

(** [documents.forEach(doc => analyzeObject(doc, schema, ''))] from the
    empty table.  [prototype] is the counters on [Object.prototype] at the
    call: none in a fresh engine, and later those that the walks of the
    run so far have left there (the script analyzes one collection after
    the other).  The counters after the walk are [on_prototype] of the
    result. *)
Definition collect_types (prototype : counts) (documents : list value)
  : result frequency_table :=
  forEach (λ doc schema, analyzeObject doc schema "") documents
          {| rows := []; on_prototype := prototype |}.

Definition analyzeFieldTypes (prototype : counts) (documents : list value)
  : result schema_t :=
  let* table := collect_types prototype documents in
  (* Convert counts to most common types *)
  forEach (λ entry schema,
             let* info := reduce_types (on_prototype table) entry.2 in
             Ok (schema ++ [(entry.1, info)])) (rows table) [].

(** ** generateCreateTableSQL *)

Definition typeMap : list (string * string) :=
  [ ("string", "TEXT"); ("number", "DECIMAL(10,2)"); ("boolean", "BOOLEAN");
    ("date", "DATETIME"); ("objectId", "VARCHAR(24)"); ("array", "JSON");
    ("object", "JSON"); ("null", "TEXT") ].

(** [typeMap[mongoType] || 'TEXT'].  The map has no entry for the tag
    undefined; a read of a tag it has no entry for goes through to
    [Object.prototype], and a counter found there is what the function
    returns, to be printed as a number.  [prototype] is the counters on
    [Object.prototype] at the call. *)
Definition mongoTypeToSQL (prototype : counts) (mongoType : string) : string :=
  match own mongoType typeMap with
  | Some sqlType => sqlType
  | None =>
      match own mongoType prototype with
      | Some (S n) => nat_to_string (S n)
      | _ => "TEXT"
      end
  end.

(** [field.replace(/\[\]/g, '_array').replace(/\./g, '_')] *)
Definition cleanName (field : string) : string :=
  replace_char "." "_" (replace_brackets "_array" field).

Definition column_definition (prototype : counts) (field : string)
    (fieldInfo : FieldInfo) : string :=
  let sqlType := mongoTypeToSQL prototype (type fieldInfo) in
  let nullable := if nullable fieldInfo then "" else " NOT NULL" in
  "  " +:+ bq +:+ cleanName field +:+ bq +:+ " " +:+ sqlType +:+ nullable.

Definition create_table_columns (prototype : counts) (schema : schema_t)
  : list string :=
  let fields := map (λ entry, column_definition prototype entry.1 entry.2) schema in
  (* Add MongoDB _id as primary key *)
  if has_own "_id" schema then fields
  else ("  " +:+ bq +:+ "_id" +:+ bq +:+ " VARCHAR(24) PRIMARY KEY") :: fields.

Definition generateCreateTableSQL (prototype : counts) (collectionName : string)
    (schema : schema_t) : string :=
  "-- Schema for collection: " +:+ collectionName +:+ nl
  +:+ "CREATE TABLE IF NOT EXISTS " +:+ bq +:+ collectionName +:+ bq +:+ " (" +:+ nl
  +:+ join ("," +:+ nl) (create_table_columns prototype schema)
  +:+ nl +:+ ");" +:+ nl +:+ nl.

(** ** flattenObject

    Called with the default empty prefix only; it does not descend into
    nested values but stores their JSON text.  [flattened] is made by an
    object literal, so the assignment [flattened[newKey] = ...] makes no
    own property for the key [__proto__]. *)
Definition flattenObject `{Runtime} (obj : value) (prefix : string)
  : result (list (string * value)) :=
  forEach_key (λ key value flattened,
    let newKey := path_join prefix key in
    if is_null value || is_undefined value then
      Ok (assign newKey JNull flattened)
    else
      let* nested :=
        (if Array_isArray value then Ok true
         else if String.eqb (typeof value) "object" then
           let* c := get_constructor value in
           let* n := constructor_name c in
           Ok (negb (is_string "ObjectId" n) && negb (instanceof_Date value))
         else Ok false) in
      if nested then
        Ok (assign newKey (match JSON_text value with
                            | Some text => JStr text
                            | None => JUndefined
                            end) flattened)
      else Ok (assign newKey value flattened)) obj [].

(** ** formatValueForSQL

    Returns a string, or the value itself in the last case. *)
Definition ObjectId_toString (v : value) : result string :=
  match v with
  | JObjectId hex => Ok hex
  | JObj fields =>
      (* an own property called toString holds data, which is not callable *)
      if has_own "toString" fields then Throw "value.toString is not a function"
      else Ok "[object Object]"
  | _ => Throw "value.toString is not a function"
  end.

Definition formatValueForSQL `{Runtime} (value : value) : result JS.value :=
  if is_null value || is_undefined value then Ok (JStr "NULL")
  else match value with
  | JStr s => Ok (JStr (q1 +:+ replace_char "'" (q1 +:+ q1) s +:+ q1))
  | JBool b => Ok (JStr (if b then "1" else "0"))
  | JDate t =>
      let* iso := toISOString t in
      Ok (JStr (q1 +:+ replace_first "T" " " (String.substring 0 19 iso) +:+ q1))
  | _ =>
      if String.eqb (typeof value) "object" then
        let* c := get_constructor value in
        let* n := constructor_name c in
        if is_string "ObjectId" n then
          let* text := ObjectId_toString value in
          Ok (JStr (q1 +:+ text +:+ q1))
        else Ok value
      else Ok value
  end.

(** ** generateInsertSQL *)

(** The text [Array.prototype.join] gives an element: a string as it is,
    a number through Number::toString, nothing for null and undefined. *)
Definition join_text `{Runtime} (v : value) : string :=
  match v with
  | JStr s => s
  | JNum n => Number_toString n
  | JBool b => if b then "true" else "false"
  | JNull | JUndefined => ""
  | JArr _ => ""
  | _ => "[object Object]"
  end.

(** The column names of one row statement, in order. *)
Definition insert_columns (flatDoc : list (string * value)) : list string :=
  map (λ entry, bq +:+ cleanName entry.1 +:+ bq) flatDoc.

Definition insert_values `{Runtime} (flatDoc : list (string * value))
  : result (list JS.value) :=
  forEach (λ entry values,
             let* v := formatValueForSQL entry.2 in Ok (values ++ [v])) flatDoc [].

Definition insert_statement `{Runtime} (collectionName : string) (doc : value)
  : result string :=
  (* Flatten the document for SQL insertion *)
  let* flatDoc := flattenObject doc "" in
  let fields := insert_columns flatDoc in
  let* values := insert_values flatDoc in
  Ok ("INSERT INTO " +:+ bq +:+ collectionName +:+ bq +:+ " ("
      +:+ join ", " fields +:+ ") VALUES ("
      +:+ join ", " (map join_text values) +:+ ");" +:+ nl).

Definition generateInsertSQL `{Runtime} (collectionName : string)
    (documents : list value) (schema : schema_t) : result string :=
  let* sql :=
    forEach (λ doc sql,
               let* statement := insert_statement collectionName doc in
               Ok (sql +:+ statement))
            documents ("-- Data for collection: " +:+ collectionName +:+ nl) in
  Ok (sql +:+ nl).

End Exporter.

(* ===================================================================== *)
(** * The import script *)
(* ===================================================================== *)

Module Importer.
Import JS.

(** ** The object store

    validateDocument assigns to properties of objects, so objects live in
    a store and are held by reference.  A reference is an index into the
    store; allocation appends. *)

Abbreviation loc := nat.

Inductive val : Type :=
| VNull
| VUndefined
| VBool (b : bool)
| VNum (n : number)
| VStr (s : string)
| VRef (l : loc).

Inductive cell : Type :=
| CDate (t : option Z)
| CObjectId (hex : string)
| CArr (items : list val)
| CObj (fields : list (string * val)).

Abbreviation heap := (list cell).

(** A reference outside the store does not arise; it reads as an object
    without own properties. *)
Definition cell_at (h : heap) (l : loc) : cell := default (CObj []) (h !! l).

(** ** Computations over a state: return or throw, and the new state *)

Definition M (St A : Type) : Type := St → result A * St.

Definition ret {St A} (a : A) : M St A := λ s, (Ok a, s).

Definition throw {St A} (message : string) : M St A := λ s, (Throw message, s).

Definition bind {St A B} (m : M St A) (k : A → M St B) : M St B :=
  λ s, match m s with
       | (Ok a, s') => k a s'
       | (Throw e, s') => (Throw e, s')
       end.

(** [try { m } catch (error) { handler(error.message) }] *)
Definition try_catch {St A} (m : M St A) (handler : string → M St A) : M St A :=
  λ s, match m s with
       | (Ok a, s') => (Ok a, s')
       | (Throw e, s') => handler e s'
       end.

Notation "'let!' x ':=' m 'in' k" := (bind m (λ x, k))
  (at level 10, x name, m at level 100, k at level 200, only parsing).
Notation "'let!' ' p ':=' m 'in' k" := (bind m (λ x, let 'p := x in k))
  (at level 10, p pattern, m at level 100, k at level 200, only parsing).
Notation "m1 ;; m2" := (bind m1 (λ _, m2))
  (at level 100, m2 at level 200, right associativity, only parsing).

(** A computation that only reads the state. *)
Definition reading {St A} (f : St → result A) : M St A := λ s, (f s, s).

Definition alloc (c : cell) : M heap val :=
  λ h, (Ok (VRef (length h)), h ++ [c]).

Definition store (l : loc) (c : cell) : M heap unit :=
  λ h, (Ok (), <[l := c]> h).

Definition mapM {St A B} (f : A → M St B) : list A → M St (list B) :=
  fix go (xs : list A) : M St (list B) :=
    match xs with
    | [] => ret []
    | x :: rest => let! y := f x in let! ys := go rest in ret (y :: ys)
    end.

Definition mapM_indexed {St A B} (f : nat → A → M St B) : nat → list A → M St (list B) :=
  fix go (i : nat) (xs : list A) : M St (list B) :=
    match xs with
    | [] => ret []
    | x :: rest => let! y := f i x in let! ys := go (S i) rest in ret (y :: ys)
    end.

(** ** Operators on stored values *)

Definition typeof (v : val) : string :=
  match v with
  | VUndefined => "undefined"
  | VBool _ => "boolean"
  | VNum _ => "number"
  | VStr _ => "string"
  | VNull | VRef _ => "object"
  end.

Definition is_null (v : val) : bool :=
  match v with VNull => true | _ => false end.

Definition is_undefined (v : val) : bool :=
  match v with VUndefined => true | _ => false end.

Definition Array_isArray (h : heap) (v : val) : bool :=
  match v with
  | VRef l => match cell_at h l with CArr _ => true | _ => false end
  | _ => false
  end.

Definition instanceof_Date (h : heap) (v : val) : bool :=
  match v with
  | VRef l => match cell_at h l with CDate _ => true | _ => false end
  | _ => false
  end.

(** ToBoolean *)
Definition truthy (v : val) : bool :=
  match v with
  | VNull | VUndefined => false
  | VBool b => b
  | VNum n => negb (number_eq n 0%float) && negb (PrimFloat.is_nan n)
  | VStr s => negb (String.eqb s "")
  | VRef _ => true
  end.

(** [a !== b]: numbers by IEEE equality, objects by reference. *)
Definition strict_ne (a b : val) : bool :=
  match a, b with
  | VNull, VNull => false
  | VUndefined, VUndefined => false
  | VBool x, VBool y => negb (Bool.eqb x y)
  | VNum x, VNum y => negb (number_eq x y)
  | VStr x, VStr y => negb (String.eqb x y)
  | VRef x, VRef y => negb (x =? y)
  | _, _ => true
  end.

(** [value.constructor], as in [JS.get_constructor]. *)
Inductive constructor_ref : Type :=
| BuiltinConstructor (name : string)
| DataConstructor (v : val).

Definition get_constructor (h : heap) (v : val) : result constructor_ref :=
  match v with
  | VNull => Throw "Cannot read properties of null (reading 'constructor')"
  | VUndefined => Throw "Cannot read properties of undefined (reading 'constructor')"
  | VBool _ => Ok (BuiltinConstructor "Boolean")
  | VNum _ => Ok (BuiltinConstructor "Number")
  | VStr _ => Ok (BuiltinConstructor "String")
  | VRef l =>
      match cell_at h l with
      | CDate _ => Ok (BuiltinConstructor "Date")
      | CObjectId _ => Ok (BuiltinConstructor "ObjectId")
      | CArr _ => Ok (BuiltinConstructor "Array")
      | CObj fields =>
          match own "constructor" fields with
          | Some c => Ok (DataConstructor c)
          | None => Ok (BuiltinConstructor "Object")
          end
      end
  end.

Definition constructor_truthy (c : constructor_ref) : bool :=
  match c with
  | BuiltinConstructor _ => true
  | DataConstructor v => truthy v
  end.

Definition constructor_name (h : heap) (c : constructor_ref) : result val :=
  match c with
  | BuiltinConstructor name => Ok (VStr name)
  | DataConstructor VNull => Throw "Cannot read properties of null (reading 'name')"
  | DataConstructor VUndefined =>
      Throw "Cannot read properties of undefined (reading 'name')"
  | DataConstructor (VRef l) =>
      match cell_at h l with
      | CObj fields => Ok (default VUndefined (own "name" fields))
      | _ => Ok VUndefined
      end
  | DataConstructor _ => Ok VUndefined
  end.

Definition is_string (s : string) (v : val) : bool :=
  match v with VStr t => String.eqb t s | _ => false end.

Notation "'let*' x ':=' m 'in' k" := (rbind m (λ x, k))
  (at level 10, x name, m at level 100, k at level 200, only parsing).

(** [typeof value === 'object' && value.constructor &&
     value.constructor.name === 'ObjectId'] *)
Definition has_ObjectId_constructor (h : heap) (value : val) : result bool :=
  if String.eqb (typeof value) "object" then
    let* c := get_constructor h value in
    if constructor_truthy c then
      let* n := constructor_name h c in
      Ok (is_string "ObjectId" n)
    else Ok false
  else Ok false.

(** ** getValueType (import script) *)
Definition getValueType (h : heap) (value : val) : result string :=
  if is_null value then Ok "null"
  else if is_undefined value then Ok "undefined"
  else if Array_isArray h value then Ok "array"
  else if instanceof_Date h value then Ok "date"
  else
    let* oid := has_ObjectId_constructor h value in
    if oid then Ok "objectId" else Ok (typeof value).

(** ** Between the store and JSON text *)

(** The tree a value stands for; [None] when [fuel] runs out. *)
Fixpoint reify (fuel : nat) (h : heap) (v : val) : option value :=
  match v with
  | VNull => Some JNull
  | VUndefined => Some JUndefined
  | VBool b => Some (JBool b)
  | VNum n => Some (JNum n)
  | VStr s => Some (JStr s)
  | VRef l =>
      match fuel with
      | 0 => None
      | S fuel =>
          match cell_at h l with
          | CDate t => Some (JDate t)
          | CObjectId hex => Some (JObjectId hex)
          | CArr items =>
              JArr <$>
                (fix go (xs : list val) : option (list value) :=
                   match xs with
                   | [] => Some []
                   | x :: rest =>
                       match reify fuel h x, go rest with
                       | Some t, Some ts => Some (t :: ts)
                       | _, _ => None
                       end
                   end) items
          | CObj fields =>
              JObj <$>
                (fix go (fs : list (string * val)) : option (list (string * value)) :=
                   match fs with
                   | [] => Some []
                   | (k, x) :: rest =>
                       match reify fuel h x, go rest with
                       | Some t, Some ts => Some ((k, t) :: ts)
                       | _, _ => None
                       end
                   end) fields
          end
      end
  end.

(** A chain of references longer than the store passes through some
    object twice, so one more step than there are cells tells a tree from
    a circular structure. *)
Definition tree_of (h : heap) (v : val) : result value :=
  match reify (S (length h)) h v with
  | Some t => Ok t
  | None => Throw "Converting circular structure to JSON"
  end.

(** [JSON.stringify(value)] *)
Definition JSON_stringify `{Runtime} (value : val) : M heap (option string) :=
  reading (λ h, let* t := tree_of h value in Ok (JSON_text t)).

(** Allocation of a tree, as [JSON.parse] builds its result. *)
Fixpoint alloc_value (t : value) : M heap val :=
  match t with
  | JNull => ret VNull
  | JUndefined => ret VUndefined
  | JBool b => ret (VBool b)
  | JNum n => ret (VNum n)
  | JStr s => ret (VStr s)
  | JDate t => alloc (CDate t)
  | JObjectId hex => alloc (CObjectId hex)
  | JArr items =>
      let! vs := mapM alloc_value items in
      alloc (CArr vs)
  | JObj fields =>
      let! fs := mapM (λ entry, let! v := alloc_value entry.2 in ret (entry.1, v)) fields in
      alloc (CObj fs)
  end.

(** What [JSON.parse(JSON.stringify(t))] decodes to; [None] where
    stringify yields undefined. *)
Fixpoint JSON_roundtrip `{Runtime} (t : value) : option value :=
  match t with
  | JNull => Some JNull
  | JUndefined => None
  | JBool b => Some (JBool b)
  | JNum n =>
      Some (if number_is_finite n
            then (if number_eq n 0%float then JNum 0%float else JNum n)
            else JNull)
  | JStr s => Some (JStr s)
  | JDate (Some z) => Some (JStr (Date_toISOString z))
  | JDate None => Some JNull
  | JObjectId hex => Some (JStr hex)
  | JArr items => Some (JArr (map (λ item, default JNull (JSON_roundtrip item)) items))
  | JObj fields =>
      Some (JObj
        ((fix go (fs : list (string * value)) : list (string * value) :=
            match fs with
            | [] => []
            | (k, w) :: rest =>
                match JSON_roundtrip w with
                | Some t => (k, t) :: go rest
                | None => go rest
                end
            end) fields))
  end.

(** [JSON.parse(JSON.stringify(doc))] *)
Definition deep_copy `{Runtime} (doc : val) : M heap val :=
  let! t := reading (λ h, tree_of h doc) in
  match JSON_roundtrip t with
  | Some t' => alloc_value t'
  | None => throw "undefined is not valid JSON"
  end.

(** ** Configuration *)

Record ImportOptions : Type := {
  recreateDatabase : bool;
  recreateIndexes : bool;
  validateData : bool;
  typeCasting : bool;
  batchSize : nat;
  clearCollections : bool
}.

Definition IMPORT_OPTIONS : ImportOptions := {|
  recreateDatabase := true;
  recreateIndexes := true;
  validateData := true;
  typeCasting := true;
  batchSize := 1000;
  clearCollections := true
|}.

(** ** Type casting functions *)

(** [String(value)] on a primitive. *)
Definition String_of `{Runtime} (v : val) : string :=
  match v with
  | VNull => "null"
  | VUndefined => "undefined"
  | VBool b => if b then "true" else "false"
  | VNum n => Number_toString n
  | VStr s => s
  | VRef _ => "[object Object]"
  end.

(** The time value of a date object. *)
Definition time_value (h : heap) (v : val) : option Z :=
  match v with
  | VRef l => match cell_at h l with CDate t => t | _ => None end
  | _ => None
  end.

(** [value.toString()] where the constructor is named ObjectId: the hex
    text of a driver identifier; on a plain object the inherited method,
    unless an own data property called toString hides it. *)
Definition call_toString (h : heap) (value : val) : result string :=
  match value with
  | VRef l =>
      match cell_at h l with
      | CObjectId hex => Ok hex
      | CObj fields =>
          if has_own "toString" fields then Throw "value.toString is not a function"
          else Ok "[object Object]"
      | _ => Throw "value.toString is not a function"
      end
  | _ => Throw "value.toString is not a function"
  end.

Definition castToString `{Runtime} (value : val) : M heap val :=
  if String.eqb (typeof value) "string" then ret value
  else if String.eqb (typeof value) "number" || String.eqb (typeof value) "boolean"
  then ret (VStr (String_of value))
  else
    let! isDate := reading (λ h, Ok (instanceof_Date h value)) in
    if isDate then
      let! iso := reading (λ h, toISOString (time_value h value)) in
      ret (VStr iso)
    else
      let! oid := reading (λ h, has_ObjectId_constructor h value) in
      if oid then
        let! text := reading (λ h, call_toString h value) in
        ret (VStr text)
      else if String.eqb (typeof value) "object" then
        let! text := JSON_stringify value in
        ret (match text with Some t => VStr t | None => VUndefined end)
      else ret (VStr (String_of value)).

Definition castToNumber `{Runtime} (value : val) : M heap val :=
  match value with
  | VNum _ => ret value
  | VStr s =>
      let num := StringToNumber s in
      if PrimFloat.is_nan num
      then throw ("Cannot convert '" +:+ s +:+ "' to number")
      else ret (VNum num)
  | VBool b => ret (VNum (if b then 1%float else 0%float))
  | _ =>
      let! isDate := reading (λ h, Ok (instanceof_Date h value)) in
      if isDate then
        let! t := reading (λ h, Ok (time_value h value)) in
        ret (VNum (getTime t))
      else throw ("Cannot convert " +:+ typeof value +:+ " to number")
  end.

Definition castToBoolean `{Runtime} (value : val) : M heap val :=
  match value with
  | VBool _ => ret value
  | VStr s =>
      let lower := toLowerCase s in
      if String.eqb lower "true" || String.eqb lower "1"
         || String.eqb lower "yes" || String.eqb lower "on" then ret (VBool true)
      else if String.eqb lower "false" || String.eqb lower "0"
         || String.eqb lower "no" || String.eqb lower "off" then ret (VBool false)
      else throw ("Cannot convert string '" +:+ s +:+ "' to boolean")
  | VNum n => ret (VBool (negb (number_eq n 0%float)))
  | _ => throw ("Cannot convert " +:+ typeof value +:+ " to boolean")
  end.

(** [new Date(...)] followed by the test [isNaN(date.getTime())]. *)
Definition new_Date_checked (t : option Z) (message : string) : M heap val :=
  let! date := alloc (CDate t) in
  if time_is_NaN t then throw message else ret date.

Definition castToDate `{Runtime} (value : val) : M heap val :=
  let! isDate := reading (λ h, Ok (instanceof_Date h value)) in
  if isDate then ret value
  else match value with
  | VStr s =>
      new_Date_checked (Date_parse s) ("Invalid date string: '" +:+ s +:+ "'")
  | VNum n =>
      (* Assume timestamp (milliseconds or seconds) *)
      new_Date_checked
        (TimeClip (if number_gt n 1e10%float then n else (n * 1000)%float))
        ("Invalid timestamp: " +:+ Number_toString n)
  | _ => throw ("Cannot convert " +:+ typeof value +:+ " to date")
  end.

Definition castToObjectId `{Runtime} (value : val) : M heap val :=
  let! oid := reading (λ h, has_ObjectId_constructor h value) in
  if oid then ret value
  else match value with
  | VStr s =>
      if ObjectId_isValid s then alloc (CObjectId (ObjectId_fromString s))
      else throw ("Invalid ObjectId string: '" +:+ s +:+ "'")
  | _ => throw ("Cannot convert " +:+ typeof value +:+ " to ObjectId")
  end.

Definition castToArray `{Runtime} (value : val) : M heap val :=
  let! isArray := reading (λ h, Ok (Array_isArray h value)) in
  if isArray then ret value
  else match value with
  | VStr s =>
      match JSON_parse s with
      | Some t =>
          let! parsed := alloc_value t in
          let! parsedIsArray := reading (λ h, Ok (Array_isArray h parsed)) in
          if parsedIsArray then ret parsed
          else alloc (CArr [value])         (* Wrap single string in array *)
      | None => alloc (CArr [value])        (* Wrap single string in array *)
      end
  | _ => alloc (CArr [value])               (* Wrap any other type in array *)
  end.

Definition castToObject `{Runtime} (value : val) : M heap val :=
  let! isArray := reading (λ h, Ok (Array_isArray h value)) in
  if String.eqb (typeof value) "object" && negb (is_null value) && negb isArray
  then ret value
  else
    let wrap := alloc (CObj [("value", value)]) in
    match value with
    | VStr s =>
        match JSON_parse s with
        | Some t =>
            let! parsed := alloc_value t in
            let! parsedIsArray := reading (λ h, Ok (Array_isArray h parsed)) in
            if String.eqb (typeof parsed) "object" && negb (is_null parsed)
               && negb parsedIsArray
            then ret parsed
            else wrap
        | None => wrap
        end
    | _ => wrap
    end.

(** The switch of castToType. *)
Definition cast_switch `{Runtime} (targetType : string) (value : val) : M heap val :=
  if String.eqb targetType "string" then castToString value
  else if String.eqb targetType "number" then castToNumber value
  else if String.eqb targetType "boolean" then castToBoolean value
  else if String.eqb targetType "date" then castToDate value
  else if String.eqb targetType "objectId" then castToObjectId value
  else if String.eqb targetType "array" then castToArray value
  else if String.eqb targetType "object" then castToObject value
  else ret value.

(** A failure of the switch is caught here: the warning goes to the
    console and the original value is returned. *)
Definition castToType `{Runtime} (value : val) (targetType fieldPath : string)
  : M heap val :=
  if is_null value || is_undefined value then ret value
  else
    let! currentType := reading (λ h, getValueType h value) in
    (* If already correct type, return as is *)
    if String.eqb currentType targetType then ret value
    else
      try_catch (cast_switch targetType value)
                (λ _, ret value).      (* Return original value if casting fails *)

(** ** The schema read from the manifest

    [required] and [nestedFields] stand for the truthiness of the
    corresponding properties, [nullCount] for the counter when there is
    one. *)

Inductive FieldSchema : Type := mkFieldSchema {
  type : string;
  required : bool;
  nullCount : option nat;
  nestedFields : option (list (string * FieldSchema));
  arrayElementType : option string
}.

Record CollectionSchema : Type := { fields : list (string * FieldSchema) }.

(** [{ type: elementType, required: false }] *)
Definition element_schema (elementType : string) : FieldSchema :=
  {| type := elementType; required := false; nullCount := None;
     nestedFields := None; arrayElementType := None |}.

(** [fieldSchema.required && fieldSchema.nullCount === 0] *)
Definition required_without_nulls (fieldSchema : FieldSchema) : bool :=
  required fieldSchema
  && match nullCount fieldSchema with Some 0 => true | _ => false end.

(** ** Property access on objects

    The own fields of a plain object.  (The top-level value handed to
    validateDocument is a document, hence a plain object; for any other
    value the three operations below act as on an object without own
    properties.) *)
Definition own_fields (h : heap) (v : val) : list (string * val) :=
  match v with
  | VRef l => match cell_at h l with CObj fields => fields | _ => [] end
  | _ => []
  end.

(** [obj.hasOwnProperty(key)]: an own data property of that name hides the
    inherited method, and calling it throws. *)
Definition call_hasOwnProperty (obj : val) (key : string) : M heap bool :=
  reading (λ h,
    match obj with
    | VNull => Throw "Cannot read properties of null (reading 'hasOwnProperty')"
    | VUndefined => Throw "Cannot read properties of undefined (reading 'hasOwnProperty')"
    | _ =>
        if has_own "hasOwnProperty" (own_fields h obj)
        then Throw "hasOwnProperty is not a function"
        else Ok (has_own key (own_fields h obj))
    end).

(** [obj[key]] for an own property. *)
Definition get_property (obj : val) (key : string) : M heap val :=
  reading (λ h, Ok (default VUndefined (own key (own_fields h obj)))).

(** [obj[key] = v] *)
Definition set_property (obj : val) (key : string) (v : val) : M heap unit :=
  match obj with
  | VRef l =>
      let! c := reading (λ h, Ok (cell_at h l)) in
      match c with
      | CObj fields => store l (CObj (set_own key v fields))
      | _ => ret ()
      end
  | _ => ret ()
  end.

(** ** validateDocument *)

(** The variables the nested function closes over, with the store. *)
Record vstate : Type := {
  objects : heap;
  errors : list string;
  warnings : list string;
  typeCastingCount : nat
}.

Definition V := M vstate.

Definition on_heap {A} (m : M heap A) : V A :=
  λ s, let '(r, h') := m (objects s) in
       (r, {| objects := h'; errors := errors s; warnings := warnings s;
              typeCastingCount := typeCastingCount s |}).

Definition push_error (message : string) : V unit :=
  λ s, (Ok (), {| objects := objects s; errors := errors s ++ [message];
                  warnings := warnings s; typeCastingCount := typeCastingCount s |}).

Definition push_warning (message : string) : V unit :=
  λ s, (Ok (), {| objects := objects s; errors := errors s;
                  warnings := warnings s ++ [message];
                  typeCastingCount := typeCastingCount s |}).

Definition count_cast : V unit :=
  λ s, (Ok (), {| objects := objects s; errors := errors s; warnings := warnings s;
                  typeCastingCount := typeCastingCount s + 1 |}).

Definition when {St} (b : bool) (m : M St unit) : M St unit :=
  if b then m else ret ().

Definition missing_message (fieldPath : string) : string :=
  "Required field '" +:+ fieldPath +:+ "' is missing".

Definition mismatch_message (options : ImportOptions)
    (fieldPath finalType expectedType : string) : string :=
  "Field '" +:+ fieldPath +:+ "' has type '" +:+ finalType +:+ "', expected '"
  +:+ expectedType +:+ "'"
  +:+ (if typeCasting options then " (casting failed)" else "").

(** The text of validateField; [validateNested] and [validateElement]
    stand for its two recursive calls, on a nested field schema and on the
    schema made up for the elements of an array. *)
Definition validateField_body `{Runtime} (options : ImportOptions)
    (validateNested : val → FieldSchema → string → V (val * bool))
    (validateElement : val → string → string → V (val * bool))
    (value : val) (fieldSchema : FieldSchema) (fieldPath : string)
  : V (val * bool) :=
  (* Handle null/undefined values *)
  if is_null value || is_undefined value then
    when (required_without_nulls fieldSchema) (push_error (missing_message fieldPath)) ;;
    ret (value, false)
  else
    let! currentType := on_heap (reading (λ h, getValueType h value)) in
    let expectedType := type fieldSchema in
    (* Type casting if enabled and types don't match *)
    let! '(finalValue, castingPerformed) :=
      (if typeCasting options && negb (String.eqb currentType expectedType) then
         try_catch
           (let! finalValue := on_heap (castToType value expectedType fieldPath) in
            if strict_ne finalValue value then
              count_cast ;; ret (finalValue, true)
            else ret (finalValue, false))
           (λ message,
              push_warning ("Type casting failed for '" +:+ fieldPath +:+ "': "
                            +:+ message) ;;
              ret (value, false))
       else ret (value, false)) in
    (* Validate type after potential casting *)
    let! finalType := on_heap (reading (λ h, getValueType h finalValue)) in
    when (negb (String.eqb finalType expectedType))
         (push_warning (mismatch_message options fieldPath finalType expectedType)) ;;
    (* Validate nested objects *)
    let! castingPerformed :=
      (match nestedFields fieldSchema with
       | Some nested =>
           if String.eqb finalType "object" then
             (fix each (entries : list (string * FieldSchema)) (castingPerformed : bool)
                : V bool :=
                match entries with
                | [] => ret castingPerformed
                | (nestedField, nestedSchema) :: rest =>
                    let! present := on_heap (call_hasOwnProperty finalValue nestedField) in
                    if present then
                      let! old := on_heap (get_property finalValue nestedField) in
                      let! nestedResult :=
                        validateNested old nestedSchema
                                       (fieldPath +:+ "." +:+ nestedField) in
                      on_heap (set_property finalValue nestedField nestedResult.1) ;;
                      each rest (castingPerformed || nestedResult.2)
                    else each rest castingPerformed
                end) nested castingPerformed
           else ret castingPerformed
       | None => ret castingPerformed
       end) in
    (* Validate array elements *)
    let! isArray := on_heap (reading (λ h, Ok (Array_isArray h finalValue))) in
    match arrayElementType fieldSchema with
    | Some elementType =>
        if String.eqb finalType "array" && isArray && negb (String.eqb elementType "")
        then
          let! items := on_heap (reading (λ h,
                          Ok (match finalValue with
                              | VRef l => match cell_at h l with
                                          | CArr items => items
                                          | _ => []
                                          end
                              | _ => []
                              end))) in
          let! results :=
            mapM_indexed (λ index item,
                validateElement item elementType
                  (fieldPath +:+ "[" +:+ nat_to_string index +:+ "]")) 0 items in
          let! mapped := on_heap (alloc (CArr (map fst results))) in
          ret (mapped, castingPerformed || existsb snd results)
        else ret (finalValue, castingPerformed)
    | None => ret (finalValue, castingPerformed)
    end.

(** validateField on the schema made up for array elements, which has
    neither nested fields nor an element type: no recursive call is
    reached. *)
Definition validateElement `{Runtime} (options : ImportOptions)
    (item : val) (elementType fieldPath : string) : V (val * bool) :=
  validateField_body options
    (λ value _ _, ret (value, false)) (λ value _ _, ret (value, false))
    item (element_schema elementType) fieldPath.

Fixpoint validateField `{Runtime} (options : ImportOptions)
    (value : val) (fieldSchema : FieldSchema) (fieldPath : string)
    {struct fieldSchema} : V (val * bool) :=
  validateField_body options
    (λ nestedValue nestedSchema nestedPath,
       validateField options nestedValue nestedSchema nestedPath)
    (validateElement options)
    value fieldSchema fieldPath.

Record ValidationReport : Type := {
  isValid : bool;
  document : val;
  report_errors : list string;
  report_warnings : list string;
  report_typeCastingCount : nat
}.

(** The loop over the fields of the schema. *)
Definition validate_fields `{Runtime} (options : ImportOptions) (validatedDoc : val)
  : list (string * FieldSchema) → V unit :=
  fix each (entries : list (string * FieldSchema)) : V unit :=
    match entries with
    | [] => ret ()
    | (fieldName, fieldSchema) :: rest =>
        let! present := on_heap (call_hasOwnProperty validatedDoc fieldName) in
        (if present then
           let! old := on_heap (get_property validatedDoc fieldName) in
           let! result := validateField options old fieldSchema fieldName in
           on_heap (set_property validatedDoc fieldName result.1)
         else
           when (required_without_nulls fieldSchema)
                (push_error (missing_message fieldName))) ;;
        each rest
    end.

Definition validateDocument `{Runtime} (options : ImportOptions)
    (doc : val) (schema : CollectionSchema) : M heap ValidationReport :=
  λ h,
    let run : V val :=
      (* Create a copy of the document for modification *)
      let! validatedDoc := on_heap (deep_copy doc) in
      (* Validate each field in the schema *)
      validate_fields options validatedDoc (fields schema) ;;
      ret validatedDoc in
    match run {| objects := h; errors := []; warnings := []; typeCastingCount := 0 |} with
    | (Ok validatedDoc, s) =>
        (Ok {| isValid := length (errors s) =? 0;
               document := validatedDoc;
               report_errors := errors s;
               report_warnings := warnings s;
               report_typeCastingCount := typeCastingCount s |}, objects s)
    | (Throw e, s) => (Throw e, objects s)
    end.

(** ** importCollectionData: the import in batches

    The collection is the driver's; it answers every operation submitted
    to it by resolving or by rejecting, which may depend on what was
    submitted before. *)

Section Batches.
Context {Doc : Type}.

Inductive operation : Type :=
| insertMany (batch : list Doc)        (* with ordered: false *)
| insertOne (doc : Doc).

Variable resolves : list operation → operation → bool.

Record import_state : Type := {
  submitted : list operation;
  importedCount : nat
}.

(** [await collection.op(...)] inside a try: the operation is recorded
    and the answer says which branch runs. *)
Definition submit (op : operation) (s : import_state) : bool * import_state :=
  (resolves (submitted s) op,
   {| submitted := submitted s ++ [op]; importedCount := importedCount s |}).

Definition add_imported (n : nat) (s : import_state) : import_state :=
  {| submitted := submitted s; importedCount := importedCount s + n |}.

(** Try inserting documents one by one in case of partial failures *)
Fixpoint insert_one_by_one (batch : list Doc) (s : import_state) : import_state :=
  match batch with
  | [] => s
  | doc :: rest =>
      let '(ok, s) := submit (insertOne doc) s in
      insert_one_by_one rest (if ok then add_imported 1 s else s)
  end.

(** [validDocuments.slice(i, i + batchSize)] *)
Definition slice (i j : nat) (xs : list Doc) : list Doc := take (j - i) (drop i xs).

(** [for (let i = 0; i < validDocuments.length; i += batchSize)]; the
    result is [None] when [fuel] iterations do not end the loop. *)
Fixpoint import_loop (fuel : nat) (validDocuments : list Doc) (batchSize : nat)
    (i : nat) (s : import_state) : option import_state :=
  if i <? length validDocuments then
    match fuel with
    | 0 => None
    | S fuel =>
        let batch := slice i (i + batchSize) validDocuments in
        let '(ok, s) := submit (insertMany batch) s in
        let s := if ok then add_imported (length batch) s
                 else insert_one_by_one batch s in
        import_loop fuel validDocuments batchSize (i + batchSize) s
    end
  else Some s.

(** With a batch size of at least one the loop ends within as many
    iterations as there are documents. *)
Definition importInBatches (validDocuments : list Doc) (batchSize : nat)
  : option import_state :=
  import_loop (length validDocuments) validDocuments batchSize 0
              {| submitted := []; importedCount := 0 |}.

End Batches.

End Importer.

(* ===================================================================== *)
(** * The import script: importCollectionData as a whole *)
(* ===================================================================== *)

Module ImportData.
Import JS Importer.

(** [IMPORT_OPTIONS.skipInvalidDocuments]: the script reads this property,
    but the options object does not define it and nothing assigns it, so
    the read yields undefined. *)
Definition skipInvalidDocuments : bool := false.

(** The variables of the validation pass. *)
Record validation_totals : Type := {
  validDocuments : list val;
  invalidCount : nat;
  totalTypeCasts : nat;
  totalValidationErrors : nat;
  totalValidationWarnings : nat
}.

Definition no_totals : validation_totals :=
  {| validDocuments := []; invalidCount := 0; totalTypeCasts := 0;
     totalValidationErrors := 0; totalValidationWarnings := 0 |}.

(** The body of the loop, after the call of validateDocument. *)
Definition after_validation (validation : ValidationReport) (t : validation_totals)
  : validation_totals :=
  if isValid validation then
    {| validDocuments := validDocuments t ++ [document validation];
       invalidCount := invalidCount t;
       totalTypeCasts := totalTypeCasts t + report_typeCastingCount validation;
       totalValidationErrors := totalValidationErrors t;
       totalValidationWarnings :=
         totalValidationWarnings t + length (report_warnings validation) |}
  else
    {| validDocuments :=
         (* Optionally skip invalid documents or include them anyway *)
         if negb skipInvalidDocuments
         then validDocuments t ++ [document validation]   (* Include with potential casting *)
         else validDocuments t;
       invalidCount := invalidCount t + 1;
       totalTypeCasts := totalTypeCasts t;
       totalValidationErrors :=
         totalValidationErrors t + length (report_errors validation);
       totalValidationWarnings := totalValidationWarnings t |}.

(** [for (let i = 0; i < documents.length; i++)] over validateDocument. *)
Definition validate_documents `{Runtime} (options : ImportOptions)
    (schema : CollectionSchema) : list val → validation_totals → M heap validation_totals :=
  fix each (documents : list val) (t : validation_totals) : M heap validation_totals :=
    match documents with
    | [] => ret t
    | doc :: rest =>
        let! validation := validateDocument options doc schema in
        each rest (after_validation validation t)
    end.

(** What the function asks of the collection. *)
Inductive request : Type :=
| deleteMany                                   (* with the empty filter *)
| insert (op : operation (Doc := val)).

(** The store together with what was asked of the collection so far. *)
Record world : Type := {
  store_of : heap;
  requests : list request
}.

Definition in_store {A} (m : M heap A) : M world A :=
  λ w, let '(r, h') := m (store_of w) in
       (r, {| store_of := h'; requests := requests w |}).

(** The value of a completed call: the number 0, or the summary object. *)
Record ImportSummary : Type := {
  success : bool;
  imported : nat;
  total : nat;
  typeCasts : nat;
  summary_warnings : nat;
  summary_errors : nat
}.

Inductive import_outcome : Type :=
| Zero
| Summary (summary : ImportSummary).

Section Collection.
(** The collection answers a request by resolving or by rejecting, which
    may depend on what it was asked before. *)
Variable resolves : list request → request → bool.

(** [await collection.deleteMany({})] outside any try: a rejection is
    thrown on.  (The driver's message is not modelled.) *)
Definition await_deleteMany : M world unit :=
  λ w, (if resolves (requests w) deleteMany then Ok () else Throw "deleteMany rejected",
        {| store_of := store_of w; requests := requests w ++ [deleteMany] |}).

(** The loop over the batches, run against this collection.  [None] when
    the loop does not end. *)
Definition import_batches (validDocuments : list val) (batchSize : nat)
  : M world (option nat) :=
  λ w,
    match importInBatches (λ submitted op,
                             resolves (requests w ++ map insert submitted) (insert op))
                          validDocuments batchSize with
    | Some s =>
        (Ok (Some (importedCount s)),
         {| store_of := store_of w;
            requests := requests w ++ map insert (submitted s) |})
    | None => (Ok None, w)
    end.

(** The result is [None] when the call does not return. *)
Definition importCollectionData `{Runtime} (options : ImportOptions)
    (documents : list val) (schema : CollectionSchema)
  : M world (option import_outcome) :=
  (* Validate documents if validation is enabled *)
  let! t :=
    (if validateData options
     then in_store (validate_documents options schema documents no_totals)
     else ret {| validDocuments := documents; invalidCount := 0; totalTypeCasts := 0;
                 totalValidationErrors := 0; totalValidationWarnings := 0 |}) in
  if length (validDocuments t) =? 0 then ret (Some Zero)
  else
    (* Clear existing collection if option is enabled *)
    when (clearCollections options) await_deleteMany ;;
    (* Import in batches *)
    let! importedCount := import_batches (validDocuments t) (batchSize options) in
    match importedCount with
    | Some importedCount =>
        ret (Some (Summary {| success := true;
                              imported := importedCount;
                              total := length documents;
                              typeCasts := totalTypeCasts t;
                              summary_warnings := totalValidationWarnings t;
                              summary_errors := totalValidationErrors t |}))
    | None => ret None
    end.

End Collection.

End ImportData.

(* ===================================================================== *)
(** * Vocabulary of the statements *)
(* ===================================================================== *)

Module Spec.
Import JS Importer.

(** The closed enumeration of type tags. *)
Definition type_tags : list string :=
  [ "null"; "undefined"; "string"; "number"; "boolean"; "date"; "objectId";
    "array"; "object" ].

(** The outcome of [new Date(...)] with time value [t] in store [h],
    followed by the validity test: a new date object, or a failure when
    the time value is NaN. *)
Definition new_date_outcome (t : option Z) (h : heap) (r : result val * heap) : Prop :=
  match t with
  | Some z => r = (Ok (VRef (length h)), h ++ [CDate (Some z)])
  | None => ∃ e, r = (Throw e, h ++ [CDate None])
  end.

(** Scenario A: the document and the schema. *)
Definition scenario_A_document : cell :=
  CObj [("age", VStr "34"); ("active", VStr "yes")].

Definition scenario_A_schema (age active : FieldSchema) : CollectionSchema :=
  {| fields := [("age", age); ("active", active)] |}.

(** What the reduction of a frequency table promises: the declared type
    is a tag of the table with the largest count, the field is nullable
    exactly when null was counted, and the sample count is that largest
    count. *)
Definition reduces_to (types : Exporter.counts) (info : Exporter.FieldInfo) : Prop :=
  Exporter.type info ∈ map fst types
  ∧ (∀ tag, Exporter.count_of types tag ≤ Exporter.count_of types (Exporter.type info))
  ∧ (Exporter.nullable info = true ↔ 0 < Exporter.count_of types "null")
  ∧ Exporter.samples info = Exporter.count_of types (Exporter.type info).

(** Every row of a frequency table has a count for at least one tag,
    and for each tag one count. *)
Definition counted (table : Exporter.frequency_table) : Prop :=
  Forall (λ row, NoDup (map fst row.2) ∧ row.2 ≠ []) (Exporter.rows table).

(** Scenario D: the document, and the JSON text of its only field. *)
Definition scenario_D_document : value :=
  JObj [("tags", JArr [JObj [("name", JStr "a")]; JObj [("name", JStr "b")]])].

Definition scenario_D_text : string :=
  "[{" +:+ q2 +:+ "name" +:+ q2 +:+ ":" +:+ q2 +:+ "a" +:+ q2 +:+ "},{"
  +:+ q2 +:+ "name" +:+ q2 +:+ ":" +:+ q2 +:+ "b" +:+ q2 +:+ "}]".

(** A field value that row emission treats as nested: an array, or an
    object that is neither a date nor a driver identifier (nor passes for
    one by the name of its constructor). *)
Definition nested_value (w : value) : Prop :=
  match w with
  | JArr _ => True
  | JObj _ => Exporter.getValueType w = Ok "object"
  | _ => False
  end.

(** How a row stores a field value [w]: null for null and undefined, the
    JSON text for a nested value, the value itself for any other. *)
Definition stored_form `{Runtime} (w stored : value) : Prop :=
  match w with
  | JNull | JUndefined => stored = JNull
  | JArr _ | JObj _ =>
      (nested_value w → ∃ text, JSON_text w = Some text ∧ stored = JStr text)
      ∧ (¬ nested_value w → stored = w)
  | _ => stored = w
  end.

(** The fixed transform from a field path to a column name, in the words
    of the design: every array marker [[]] becomes [_array], every dot
    becomes an underscore. *)
Fixpoint column_name (path : string) : string :=
  match path with
  | EmptyString => EmptyString
  | String c rest =>
      match rest with
      | String d rest' =>
          if Ascii.eqb c "[" && Ascii.eqb d "]" then "_array" +:+ column_name rest'
          else if Ascii.eqb c "." then String "_" (column_name rest)
          else String c (column_name rest)
      | EmptyString => if Ascii.eqb c "." then "_" else String c EmptyString
      end
  end.

(** The text of a row statement for the given columns and values. *)
Definition row_statement (collectionName : string) (columns values : list string)
  : string :=
  "INSERT INTO " +:+ bq +:+ collectionName +:+ bq +:+ " ("
  +:+ join ", " columns +:+ ") VALUES (" +:+ join ", " values +:+ ");" +:+ nl.

(** What one batch puts on the wire: the bulk operation, followed by one
    single insert per document of the batch when the bulk operation was
    rejected. *)
Definition batch_operations {Doc} (resolved : bool) (batch : list Doc)
  : list (operation (Doc := Doc)) :=
  insertMany batch :: (if resolved then [] else map insertOne batch).

(** ** The store during a call of validateDocument

    [h0] is the store at the call.  A value is private when it holds no
    reference into [h0]; the store [h] extends [h0] when the cells of
    [h0] are all there, as they were, and the cells added hold private
    values only. *)

Definition val_private (h0 : heap) (v : val) : Prop :=
  match v with
  | VRef l => length h0 ≤ l
  | _ => True
  end.

Definition cell_private (h0 : heap) (c : cell) : Prop :=
  match c with
  | CArr items => Forall (val_private h0) items
  | CObj fields => Forall (λ entry, val_private h0 entry.2) fields
  | _ => True
  end.

Definition extends (h0 h : heap) : Prop :=
  take (length h0) h = h0
  ∧ ∀ l c, length h0 ≤ l → h !! l = Some c → cell_private h0 c.

Definition is_missing_message (message : string) : Prop :=
  ∃ fieldPath, message = missing_message fieldPath.

(** What holds of the state of validateDocument throughout. *)
Definition validating (h0 : heap) (s : vstate) : Prop :=
  extends h0 (objects s) ∧ Forall is_missing_message (errors s).

(** [m] keeps [P] and, when it returns, its result satisfies [Q]. *)
Definition keeps {St A} (P : St → Prop) (m : M St A) (Q : A → Prop) : Prop :=
  ∀ s, P s → P (m s).2 ∧ ∀ a, (m s).1 = Ok a → Q a.

(** A store is closed when every reference held in a cell points into
    the store. *)
Definition val_within (h : heap) (v : val) : Prop :=
  match v with
  | VRef l => l < length h
  | _ => True
  end.

Definition cell_within (h : heap) (c : cell) : Prop :=
  match c with
  | CArr items => Forall (val_within h) items
  | CObj fields => Forall (λ entry, val_within h entry.2) fields
  | _ => True
  end.

Definition closed (h : heap) : Prop := Forall (cell_within h) h.

(** [h'] is [h] with cells added. *)
Definition grows_from (h : heap) (h' : heap) : Prop := ∃ added, h' = h ++ added.

(** [m] never throws. *)
Definition returns {St A} (m : M St A) : Prop := ∀ s, ∃ a s', m s = (Ok a, s').

(** The shape of a field schema in the data model: nested fields only
    under the declared type object, an element type only under array. *)
Definition schema_shape (fieldSchema : FieldSchema) : Prop :=
  (is_Some (nestedFields fieldSchema) → type fieldSchema = "object")
  ∧ (is_Some (arrayElementType fieldSchema) → type fieldSchema = "array").

(** The state after a field whose coercion failed in store [h1]: one more
    warning, the errors as they were; the counter moves only in the one
    case where the value differs from itself, the number NaN. *)
Definition after_failed_cast (options : ImportOptions) (s : vstate) (h1 : heap)
    (value : val) (fieldPath currentType expectedType : string) : vstate :=
  {| objects := h1;
     errors := errors s;
     warnings := warnings s
                 ++ [mismatch_message options fieldPath currentType expectedType];
     typeCastingCount := typeCastingCount s + (if strict_ne value value then 1 else 0) |}.

(** [validate] hands back a private value whenever it is given one. *)
Definition keeps_field (h0 : heap) (validate : val → V (val * bool)) : Prop :=
  ∀ value, val_private h0 value →
           keeps (validating h0) (validate value) (λ r, val_private h0 r.1).

(** ** Coercion failure

    The coercion of [value] to [targetType] fails in store [h], leaving
    store [h1], when the switch of castToType throws, which castToType
    catches to return the value, or when the switch hands the value back
    as it is (for a target type that is none of the seven, and for the
    target object asked of a date or of an identifier). *)
Definition cast_fails `{Runtime} (targetType : string) (value : val) (h h1 : heap)
  : Prop :=
  (∃ message, cast_switch targetType value h = (Throw message, h1))
  ∨ cast_switch targetType value h = (Ok value, h1).

(** A field whose coercion fails: with type casting on, in a closed store,
    a value that is there, of a type other than the declared one, whose
    coercion to the declared type fails. *)
Definition failing_field `{Runtime} (options : ImportOptions)
    (fieldSchema : FieldSchema) (value : val) (currentType : string)
    (s : vstate) (h1 : heap) : Prop :=
  typeCasting options = true
  ∧ schema_shape fieldSchema
  ∧ closed (objects s) ∧ val_within (objects s) value
  ∧ is_null value || is_undefined value = false
  ∧ getValueType (objects s) value = Ok currentType
  ∧ currentType ≠ type fieldSchema
  ∧ cast_fails (type fieldSchema) value (objects s) h1.

(** The loop of validateField over the nested fields of the schema,
    entered with the flag [castingPerformed]. *)
Definition validate_nested `{Runtime} (options : ImportOptions)
    (finalValue : val) (fieldPath : string)
  : list (string * FieldSchema) → bool → V bool :=
  fix each (entries : list (string * FieldSchema)) (castingPerformed : bool)
    : V bool :=
    match entries with
    | [] => ret castingPerformed
    | (nestedField, nestedSchema) :: rest =>
        let! present := on_heap (call_hasOwnProperty finalValue nestedField) in
        if present then
          let! old := on_heap (get_property finalValue nestedField) in
          let! nestedResult :=
            validateField options old nestedSchema
                          (fieldPath +:+ "." +:+ nestedField) in
          on_heap (set_property finalValue nestedField nestedResult.1) ;;
          each rest (castingPerformed || nestedResult.2)
        else each rest castingPerformed
    end.

(** The loop of validateField over the elements of an array, from index
    [index] on. *)
Definition validate_elements `{Runtime} (options : ImportOptions)
    (elementType fieldPath : string) (index : nat) (items : list val)
  : V (list (val * bool)) :=
  mapM_indexed (λ index item,
      validateElement options item elementType
        (fieldPath +:+ "[" +:+ nat_to_string index +:+ "]")) index items.

End Spec.

(* ===================================================================== *)
(** * Further vocabulary *)
(* ===================================================================== *)

Module Terms.
Import JS Importer ImportData Spec.

(** The operations of a sequence of batches, each with the answer its bulk
    operation got. *)
Definition batches_operations {Doc} (outcomes : list (bool * list Doc))
  : list (operation (Doc := Doc)) :=
  flat_map (λ outcome, batch_operations outcome.1 outcome.2) outcomes.

(** ** Examples to run

    A collection schema with one required number field that was never
    null, and a store with two documents: one holds the number as text,
    the other lacks the field. *)
Definition sample_schema : CollectionSchema :=
  {| fields := [("age", {| type := "number"; required := true; nullCount := Some 0;
                           nestedFields := None; arrayElementType := None |})] |}.

Definition sample_store : heap :=
  [CObj [("age", VStr "34")]; CObj [("name", VStr "x")]].

Definition sample_store_validated : heap :=
  sample_store ++ [CObj [("age", VNum 34%float)]; CObj [("name", VStr "x")]].

(** A collection that rejects every bulk insert and accepts the rest. *)
Definition rejects_bulk (submitted : list request) (op : request) : bool :=
  match op with
  | insert (insertMany _) => false
  | _ => true
  end.

(** ** What validation may change in the store

    Two cells have the same shape when they are of the same kind and, for
    objects, have the same own keys in the same order; other cells are
    then the same altogether. *)
Definition same_shape (c c' : cell) : Prop :=
  match c, c' with
  | CObj fields, CObj fields' => map fst fields = map fst fields'
  | _, _ => c = c'
  end.

(** Every cell of [h] is still in [h'], in its shape. *)
Definition shape_kept (h h' : heap) : Prop :=
  length h ≤ length h'
  ∧ ∀ l, l < length h → same_shape (cell_at h l) (cell_at h' l).

Definition is_mismatch_message (options : ImportOptions) (message : string) : Prop :=
  ∃ fieldPath finalType expectedType,
    message = mismatch_message options fieldPath finalType expectedType.

(** From [s] to [s'] validation has gone on: the cells kept their shape,
    errors and warnings were added at the end, the errors being reports
    of missing fields and the warnings reports of type mismatches, and the
    cast counter did not go down. *)
Definition advances (options : ImportOptions) (s s' : vstate) : Prop :=
  shape_kept (objects s) (objects s')
  ∧ (∃ more, errors s' = errors s ++ more ∧ Forall is_missing_message more)
  ∧ (∃ more, warnings s' = warnings s ++ more
             ∧ Forall (is_mismatch_message options) more)
  ∧ typeCastingCount s ≤ typeCastingCount s'.

(** Whatever [m] does and however it ends, it takes a state to one
    related to it by [R]. *)
Definition steps {St A} (R : St → St → Prop) (m : M St A) : Prop :=
  ∀ s, R s (m s).2.

(** ** Documents the export script can analyze

    A value is tame when no object in it has an own field called
    constructor that holds null or undefined. *)
Fixpoint tame (v : value) : bool :=
  match v with
  | JArr items => forallb tame items
  | JObj fields =>
      negb (match own "constructor" fields with
            | Some JNull | Some JUndefined => true
            | _ => false
            end)
      && forallb (λ entry, tame entry.2) fields
  | _ => true
  end.

(** ** Reading back a quoted SQL literal

    Standard quoting: the quote alone is special inside a literal and is
    written twice.  [sql_unquote] gives the text a literal stands for, and
    nothing for a text that is no literal. *)
Fixpoint sql_unquote_body (s : string) : option string :=
  match s with
  | EmptyString => None                       (* the closing quote is missing *)
  | String c rest =>
      if Ascii.eqb "'" c then
        match rest with
        | EmptyString => Some EmptyString     (* the closing quote *)
        | String d rest' =>
            if Ascii.eqb "'" d then String "'" <$> sql_unquote_body rest'
            else None                         (* text after the closing quote *)
        end
      else String c <$> sql_unquote_body rest
  end.

Definition sql_unquote (literal : string) : option string :=
  match literal with
  | String c rest => if Ascii.eqb "'" c then sql_unquote_body rest else None
  | EmptyString => None
  end.

(** ** Conforming objects

    A field schema is a leaf when it has neither nested fields nor an
    element type.  An object with the given fields conforms to a schema
    entry in store [h] when the field is of the declared type, or is
    missing, null or undefined where the schema does not require it. *)
Definition leaf (fieldSchema : FieldSchema) : Prop :=
  nestedFields fieldSchema = None ∧ arrayElementType fieldSchema = None.

Definition conforms (h : heap) (fields : list (string * val))
    (entry : string * FieldSchema) : Prop :=
  match own entry.1 fields with
  | Some v =>
      if is_null v || is_undefined v then required_without_nulls entry.2 = false
      else getValueType h v = Ok (type entry.2)
  | None => required_without_nulls entry.2 = false
  end.

(** The answers of a sequence of batches are those of the collection:
    each bulk operation was answered as the collection answers it after
    what was submitted before. *)
Fixpoint answered {Doc} (resolves : list (operation (Doc := Doc)) → operation → bool)
    (submitted : list operation) (outcomes : list (bool * list Doc)) : Prop :=
  match outcomes with
  | [] => True
  | outcome :: rest =>
      outcome.1 = resolves submitted (insertMany outcome.2)
      ∧ answered resolves (submitted ++ batch_operations outcome.1 outcome.2) rest
  end.

End Terms.

(* ===================================================================== *)
(** * Shared lemmas *)
(* ===================================================================== *)

Ltac in_list := repeat constructor.

Section Shared.
Import JS.

Lemma rbind_Ok {A B} (m : result A) (k : A → result B) (b : B) :
  rbind m k = Ok b → ∃ a, m = Ok a ∧ k a = Ok b.
Proof. destruct m as [a|e]; simpl; [eauto | discriminate]. Qed.

(** *** Own properties *)

Lemma own_Some_elem {A} key (v : A) fields :
  own key fields = Some v → (key, v) ∈ fields.
Proof.
  induction fields as [|[k w] rest IH]; simpl; [discriminate |].
  destruct (String.eqb_spec k key) as [->|Hne].
  - intros [= ->]. left.
  - intros Hv. right. auto.
Qed.

Lemma own_None_keys {A} key (fields : list (string * A)) :
  own key fields = None ↔ key ∉ map fst fields.
Proof.
  induction fields as [|[k w] rest IH]; simpl.
  - split; [intros _; apply not_elem_of_nil | done].
  - rewrite not_elem_of_cons. destruct (String.eqb_spec k key) as [->|Hne].
    + split; [discriminate | intros [? _]; done].
    + rewrite IH. split; [intros ?; split; [congruence | done] | intros [_ ?]; done].
Qed.

Lemma own_NoDup {A} key (v : A) fields :
  NoDup (map fst fields) → (key, v) ∈ fields → own key fields = Some v.
Proof.
  induction fields as [|[k w] rest IH]; simpl; intros Hnd Hin.
  - by apply elem_of_nil in Hin.
  - apply NoDup_cons in Hnd as [Hk Hnd].
    apply elem_of_cons in Hin as [[= -> ->]|Hin].
    + by rewrite String.eqb_refl.
    + destruct (String.eqb_spec k key) as [->|Hne]; [| auto].
      destruct Hk. apply list_elem_of_fmap. by exists (key, v).
Qed.

Lemma keys_replace_own {A} key (v : A) fields :
  map fst (replace_own key v fields) = map fst fields.
Proof.
  induction fields as [|[k w] rest IH]; simpl; [done |].
  destruct (String.eqb k key); simpl; by rewrite ?IH.
Qed.

Lemma keys_insert_new {A} key (v : A) fields k' :
  k' ∈ map fst (insert_new key v fields) ↔ k' = key ∨ k' ∈ map fst fields.
Proof.
  induction fields as [|[k w] rest IH]; simpl.
  - rewrite list_elem_of_singleton. split; [auto | intros [?|Hnil]; [done |]].
    by apply elem_of_nil in Hnil.
  - destruct (array_index key) as [i|], (array_index k) as [j|];
      try destruct (i <? j)%Z; simpl; rewrite ?elem_of_cons, ?IH; simpl; tauto.
Qed.

Lemma NoDup_insert_new {A} key (v : A) fields :
  key ∉ map fst fields → NoDup (map fst fields) →
  NoDup (map fst (insert_new key v fields)).
Proof.
  induction fields as [|[k w] rest IH]; simpl; intros Hk Hnd.
  - apply NoDup_singleton.
  - apply not_elem_of_cons in Hk as [Hne Hk].
    pose proof Hnd as Hnd'. apply NoDup_cons in Hnd' as [Hk' Hrest].
    assert (NoDup (key :: k :: map fst rest)).
    { apply NoDup_cons. split; [| done]. rewrite not_elem_of_cons. done. }
    assert (NoDup (k :: map fst (insert_new key v rest))).
    { apply NoDup_cons. split; [| auto]. rewrite keys_insert_new. intros [?|?]; done. }
    destruct (array_index key) as [i|], (array_index k) as [j|];
      try destruct (i <? j)%Z; simpl; done.
Qed.

Lemma Forall_replace_own {A} (Q : string * A → Prop) key v fields :
  Forall Q fields → (∀ k, Q (k, v)) → Forall Q (replace_own key v fields).
Proof.
  intros Hall Hv. induction Hall as [|[k w] rest Hk Hrest IH]; simpl; [constructor |].
  destruct (String.eqb k key); constructor; auto.
Qed.

Lemma Forall_insert_new {A} (Q : string * A → Prop) key v fields :
  Forall Q fields → Q (key, v) → Forall Q (insert_new key v fields).
Proof.
  intros Hall Hv. induction Hall as [|[k w] rest Hk Hrest IH]; simpl;
    [by repeat constructor |].
  destruct (array_index key) as [i|], (array_index k) as [j|];
    try destruct (i <? j)%Z; repeat (constructor; try done).
Qed.

Lemma keys_set_own {A} key (v : A) fields k' :
  k' ∈ map fst (set_own key v fields) ↔ k' = key ∨ k' ∈ map fst fields.
Proof.
  unfold set_own, has_own. destruct (own key fields) as [w|] eqn:Hown.
  - rewrite keys_replace_own. split; [auto |]. intros [->|?]; [| done].
    apply own_Some_elem in Hown. apply list_elem_of_fmap. by exists (key, w).
  - apply keys_insert_new.
Qed.

Lemma Forall_set_own {A} (Q : string * A → Prop) key v fields :
  Forall Q fields → (∀ k, k = key → Q (k, v)) → Forall Q (set_own key v fields).
Proof.
  intros Hall Hv. unfold set_own. destruct (has_own key fields).
  - induction Hall as [|[k w] rest Hk Hrest IH]; simpl; [constructor |].
    destruct (String.eqb_spec k key); constructor; auto.
  - apply Forall_insert_new; auto.
Qed.

Lemma own_Forall {A} (Q : A → Prop) key fields v :
  Forall (λ entry, Q entry.2) fields → own key fields = Some v → Q v.
Proof.
  induction 1 as [|[k w] rest Hk _ IH]; simpl; [discriminate |].
  destruct (String.eqb k key); [by intros [= <-] | done].
Qed.

Lemma set_own_same {A} key (v : A) fields :
  own key fields = Some v → set_own key v fields = fields.
Proof.
  intros Hown. unfold set_own, has_own. rewrite Hown.
  induction fields as [|[k w] rest IH]; simpl in *; [done |].
  destruct (String.eqb_spec k key) as [->|Hne].
  - by injection Hown as ->.
  - by rewrite IH.
Qed.

Lemma own_replace_own {A} key (v : A) fields k' :
  own k' (replace_own key v fields)
  = if String.eqb key k' then (if has_own key fields then Some v else None)
    else own k' fields.
Proof.
  unfold has_own. induction fields as [|[k w] rest IH]; simpl.
  - by destruct (String.eqb key k').
  - destruct (String.eqb_spec k key) as [->|Hne]; simpl.
    + by destruct (String.eqb key k').
    + rewrite IH. destruct (String.eqb_spec key k') as [Heq|Hne']; [| done].
      subst k'. by destruct (String.eqb_spec k key).
Qed.

Lemma own_insert_new {A} key (v : A) fields k' :
  own key fields = None →
  own k' (insert_new key v fields) = if String.eqb key k' then Some v else own k' fields.
Proof.
  induction fields as [|[k w] rest IH]; simpl; [done |].
  destruct (String.eqb_spec k key) as [->|Hne]; [discriminate |].
  intros Hown. specialize (IH Hown).
  assert (Hfront : own k' ((key, v) :: (k, w) :: rest)
                   = if String.eqb key k' then Some v else own k' ((k, w) :: rest))
    by reflexivity.
  assert (Hback : own k' ((k, w) :: insert_new key v rest)
                  = if String.eqb key k' then Some v else own k' ((k, w) :: rest)).
  { simpl. rewrite IH. destruct (String.eqb_spec k k') as [Heq|Hne'']; [| done].
    subst k'. by destruct (String.eqb_spec key k). }
  destruct (array_index key) as [i|], (array_index k) as [j|];
    try destruct (i <? j)%Z; done.
Qed.

Lemma own_set_own {A} key (v : A) fields k' :
  own k' (set_own key v fields) = if String.eqb key k' then Some v else own k' fields.
Proof.
  unfold set_own. destruct (has_own key fields) eqn:Hhas.
  - rewrite own_replace_own, Hhas. done.
  - apply own_insert_new. unfold has_own in Hhas. by destruct (own key fields).
Qed.

Lemma NoDup_set_own {A} key (v : A) fields :
  NoDup (map fst fields) → NoDup (map fst (set_own key v fields)).
Proof.
  intros Hfields. unfold set_own, has_own.
  destruct (own key fields) eqn:Hown.
  - by rewrite keys_replace_own.
  - apply NoDup_insert_new; [by apply own_None_keys | done].
Qed.

Lemma set_own_nonempty {A} key (v : A) fields : set_own key v fields ≠ [].
Proof.
  intros Hnil. assert (Hkey : key ∈ map fst (set_own key v fields)).
  { apply keys_set_own. by left. }
  rewrite Hnil in Hkey. by apply elem_of_nil in Hkey.
Qed.

Lemma has_own_elem {A} key (fields : list (string * A)) :
  has_own key fields = true ↔ key ∈ map fst fields.
Proof.
  unfold has_own. destruct (own key fields) as [v|] eqn:Hown.
  - split; [| done]. intros _. apply own_Some_elem in Hown.
    apply list_elem_of_fmap. by exists (key, v).
  - split; [discriminate |]. by apply own_None_keys in Hown.
Qed.

(** *** Induction on values *)

Lemma value_nested_ind (P : value → Prop) :
  P JNull → P JUndefined → (∀ b, P (JBool b)) → (∀ n, P (JNum n)) →
  (∀ s, P (JStr s)) → (∀ t, P (JDate t)) → (∀ hex, P (JObjectId hex)) →
  (∀ items, Forall P items → P (JArr items)) →
  (∀ fields, Forall (λ entry, P entry.2) fields → P (JObj fields)) →
  ∀ v, P v.
Proof.
  intros HNull HUndef HBool HNum HStr HDate HOid HArr HObj.
  fix IH 1. intros [| |b|n|s|t|hex|items|fields].
  - exact HNull.
  - exact HUndef.
  - apply HBool.
  - apply HNum.
  - apply HStr.
  - apply HDate.
  - apply HOid.
  - apply HArr. induction items as [|x xs IHxs]; constructor; [apply IH | apply IHxs].
  - apply HObj. induction fields as [|[k x] xs IHxs]; constructor;
      [apply IH | apply IHxs].
Qed.

End Shared.

(* ===================================================================== *)
(** * Properties of the export script *)
(* ===================================================================== *)

Section ExporterProperties.
Import JS Exporter Spec.
Context `{Runtime}.

(** *** The classifier *)

(** Whenever the classifier of the export script returns, it returns a tag
    of the enumeration. *)
Lemma export_getValueType_tag (v : value) (t : string) :
  Exporter.getValueType v = Ok t → t ∈ type_tags.
Proof.
  unfold Exporter.getValueType, type_tags.
  destruct v; simpl; intros Ht;
    try (injection Ht as <-; in_list).
  - destruct (own "constructor" fields) as [c|]; simpl in Ht.
    + apply rbind_Ok in Ht as (n & _ & Ht).
      destruct (is_string "ObjectId" n); injection Ht as <-; in_list.
    + injection Ht as <-; in_list.
Qed.

(** The order of the tests: null, undefined, arrays, dates and driver
    identifiers are told apart before the generic object. *)
Lemma export_getValueType_order :
  Exporter.getValueType JNull = Ok "null"
  ∧ Exporter.getValueType JUndefined = Ok "undefined"
  ∧ (∀ items, Exporter.getValueType (JArr items) = Ok "array")
  ∧ (∀ t, Exporter.getValueType (JDate t) = Ok "date")
  ∧ (∀ hex, Exporter.getValueType (JObjectId hex) = Ok "objectId")
  ∧ (∀ fields, own "constructor" fields = None →
       Exporter.getValueType (JObj fields) = Ok "object")
  ∧ (∀ s, Exporter.getValueType (JStr s) = Ok "string")
  ∧ (∀ n, Exporter.getValueType (JNum n) = Ok "number")
  ∧ (∀ b, Exporter.getValueType (JBool b) = Ok "boolean").
Proof.
  repeat split; try reflexivity.
  intros fields Hc. unfold Exporter.getValueType. simpl. by rewrite Hc.
Qed.

(** C2 (export script).  On a sub-document whose own field [constructor]
    is null the classifier of the export script throws instead of
    returning a tag: it reads [value.constructor.name] without the test
    [value.constructor &&] that the classifier of the import script has. *)
Theorem export_getValueType_throws :
  Exporter.getValueType (JObj [("constructor", JNull)])
  = Throw "Cannot read properties of null (reading 'name')".
Proof. reflexivity. Qed.

(** *** The reduction of one frequency table *)

Lemma count_of_elem types tag n :
  NoDup (map fst types) → (tag, n) ∈ types → count_of types tag = n.
Proof. intros Hnd Hin. unfold count_of. by rewrite (own_NoDup _ _ _ Hnd Hin). Qed.

Lemma count_of_absent types tag :
  tag ∉ map fst types → count_of types tag = 0.
Proof. intros Hk. unfold count_of. by rewrite (proj2 (own_None_keys _ _) Hk). Qed.

(** The fold of mostCommon keeps a tag that no tag seen so far beats. *)
Lemma mostCommon_fold types others first :
  let pick := λ a b, if count_of types b <? count_of types a then a else b in
  let best := fold_left pick others first in
  best ∈ first :: others
  ∧ ∀ tag, tag ∈ first :: others → count_of types tag ≤ count_of types best.
Proof.
  intros pick. revert first.
  induction others as [|b rest IH]; intros first; simpl.
  - split; [left |]. intros tag Htag. apply list_elem_of_singleton in Htag. by subst.
  - destruct (IH (pick first b)) as [Hin Hmax]. split.
    + apply elem_of_cons in Hin as [->|Hin]; [| right; by right].
      unfold pick. destruct (count_of types b <? count_of types first);
        [left | right; left].
    + intros tag Htag. rewrite !elem_of_cons in Htag.
      assert (count_of types first ≤ count_of types (pick first b)
              ∧ count_of types b ≤ count_of types (pick first b)) as [Hf Hb].
      { unfold pick. destruct (Nat.ltb_spec (count_of types b) (count_of types first)); lia. }
      pose proof (Hmax (pick first b) ltac:(left)) as Hp.
      destruct Htag as [->|[->|Htag]]; [lia | lia |].
      apply Hmax. by right.
Qed.

Lemma mostCommon_argmax types t :
  mostCommon types = Ok t →
  t ∈ map fst types ∧ ∀ tag, count_of types tag ≤ count_of types t.
Proof.
  unfold mostCommon. destruct (map fst types) as [|first others] eqn:Hkeys;
    [discriminate |].
  intros [= <-]. destruct (mostCommon_fold types others first) as [Hin Hmax].
  split; [done |]. intros tag.
  destruct (decide (tag ∈ first :: others)) as [Htag|Htag]; [auto |].
  rewrite count_of_absent; [lia |]. by rewrite Hkeys.
Qed.

Lemma Math_max_bounds xs n : n ∈ xs → n ≤ Math_max xs.
Proof.
  induction xs as [|x rest IH]; simpl; intros Hn.
  - by apply elem_of_nil in Hn.
  - apply elem_of_cons in Hn as [->|Hn]; [lia |]. specialize (IH Hn). lia.
Qed.

Lemma Math_max_attained xs : xs ≠ [] → Math_max xs ∈ xs.
Proof.
  induction xs as [|x rest IH]; simpl; intros Hne; [done |].
  destruct rest as [|y rest'].
  - simpl. rewrite Nat.max_0_r. left.
  - specialize (IH ltac:(done)).
    destruct (Nat.max_spec x (Math_max (y :: rest'))) as [[_ ->]|[_ ->]];
      [by right | left].
Qed.

Lemma Math_max_is_count types t :
  NoDup (map fst types) → t ∈ map fst types →
  (∀ tag, count_of types tag ≤ count_of types t) →
  Math_max (map snd types) = count_of types t.
Proof.
  intros Hnd Ht Hmax. apply Nat.le_antisymm.
  - assert (map snd types ≠ []) as Hne.
    { destruct types; [by apply elem_of_nil in Ht | done]. }
    apply Math_max_attained in Hne.
    apply list_elem_of_fmap in Hne as ([tag n] & -> & Hin). simpl.
    rewrite <- (count_of_elem _ _ _ Hnd Hin). apply Hmax.
  - apply list_elem_of_fmap in Ht as ([tag n] & -> & Hin). simpl.
    rewrite (count_of_elem _ _ _ Hnd Hin). apply Math_max_bounds.
    apply list_elem_of_fmap. by exists (tag, n).
Qed.

(** With nothing on Object.prototype, the test for null reads the row. *)
Lemma null_seen_count types :
  null_seen [] types = true ↔ 0 < count_of types "null".
Proof.
  unfold null_seen, read_count, count_of. destruct (own "null" types) as [n|]; simpl.
  - apply Nat.ltb_lt.
  - split; [discriminate | lia].
Qed.

Lemma reduce_types_returns prototype types :
  types ≠ [] → ∃ info, reduce_types prototype types = Ok info.
Proof.
  intros Hne. unfold reduce_types, mostCommon.
  destruct types as [|[tag n] rest]; [done |]. simpl. by eexists.
Qed.

Lemma reduce_types_reduces types info :
  NoDup (map fst types) → reduce_types [] types = Ok info → reduces_to types info.
Proof.
  intros Hnd. unfold reduce_types.
  destruct (mostCommon types) as [t|e] eqn:Ht; [| discriminate].
  simpl. intros [= <-].
  apply mostCommon_argmax in Ht as [Hin Hmax].
  split_and!; simpl; try done.
  - apply null_seen_count.
  - by apply Math_max_is_count.
Qed.

(** *** Iteration *)

Lemma forEach_preserves {A St} (P : St → Prop) (f : A → St → result St) xs :
  Forall (λ x, ∀ s s', P s → f x s = Ok s' → P s') xs →
  ∀ s s', P s → forEach f xs s = Ok s' → P s'.
Proof.
  induction 1 as [|x rest Hx _ IH]; simpl; intros s s' Hs Hrun.
  - by injection Hrun as <-.
  - apply rbind_Ok in Hrun as (s1 & Hstep & Hrest). eauto.
Qed.

Lemma forEach_indexed_preserves {A St} (P : St → Prop)
    (f : nat → A → St → result St) xs :
  Forall (λ x, ∀ i s s', P s → f i x s = Ok s' → P s') xs →
  ∀ i s s', P s → forEach_indexed f i xs s = Ok s' → P s'.
Proof.
  induction 1 as [|x rest Hx _ IH]; simpl; intros i s s' Hs Hrun.
  - by injection Hrun as <-.
  - apply rbind_Ok in Hrun as (s1 & Hstep & Hrest). eauto.
Qed.

Lemma analyzeObject_unfold obj schema prefix :
  analyzeObject obj schema prefix =
  forEach_key (λ key value schema,
    let fullKey := path_join prefix key in
    rbind (getValueType value) (λ type,
    let schema := record_type fullKey type schema in
    if String.eqb type "object" && negb (is_null value) then
      analyzeObject value schema fullKey
    else if String.eqb type "array" && (0 <? array_length value) then
      forEach_item (λ item schema,
        if String.eqb (typeof item) "object" && negb (is_null item) then
          analyzeObject item schema (fullKey +:+ "[]")
        else Ok schema) value schema
    else Ok schema)) obj schema.
Proof. destruct obj; reflexivity. Qed.

(** Whatever the counting step preserves, the walk preserves; the step
    is only ever taken with a tag of the enumeration. *)
Lemma analyzeObject_preserves (P : frequency_table → Prop) :
  (∀ fullKey type schema, type ∈ type_tags → P schema →
                          P (record_type fullKey type schema)) →
  ∀ obj schema prefix schema',
    P schema → analyzeObject obj schema prefix = Ok schema' → P schema'.
Proof.
  intros Hstep obj.
  pose (Q := λ obj, ∀ schema prefix schema',
               P schema → analyzeObject obj schema prefix = Ok schema' → P schema').
  cut (Q obj ∧ Forall Q (array_items obj)); [intros [HQ _]; exact HQ |].
  assert (Hvisit : ∀ prefix key value, Q value → Forall Q (array_items value) →
            ∀ schema schema', P schema →
              rbind (getValueType value) (λ type,
                let schema := record_type (path_join prefix key) type schema in
                if String.eqb type "object" && negb (is_null value) then
                  analyzeObject value schema (path_join prefix key)
                else if String.eqb type "array" && (0 <? array_length value) then
                  forEach_item (λ item schema,
                    if String.eqb (typeof item) "object" && negb (is_null item) then
                      analyzeObject item schema (path_join prefix key +:+ "[]")
                    else Ok schema) value schema
                else Ok schema) = Ok schema' → P schema').
  { intros prefix key value HQ Hitems schema schema' HP Hrun.
    apply rbind_Ok in Hrun as (type & Htype & Hrun). cbv zeta in Hrun.
    apply export_getValueType_tag in Htype.
    specialize (Hstep (path_join prefix key) type schema Htype HP).
    destruct (String.eqb type "object" && negb (is_null value));
      [exact (HQ _ _ _ Hstep Hrun) |].
    destruct (String.eqb type "array" && (0 <? array_length value));
      [| by injection Hrun as <-].
    destruct value; simpl in Hrun; try (by injection Hrun as <-).
    simpl in Hitems. eapply forEach_preserves; [| exact Hstep | exact Hrun].
    eapply Forall_impl; [exact Hitems |]. intros item HQi s s' Hs Hi. cbv beta in Hi.
    destruct (String.eqb (typeof item) "object" && negb (is_null item));
      [exact (HQi _ _ _ Hs Hi) | by injection Hi as <-]. }
  induction obj as [| |b|n|s|t|hex|items IH|fields IH] using value_nested_ind;
    (split; [| try (by constructor)]);
    try (intros schema prefix schema' HP Hrun; by injection Hrun as <-).
  - intros schema prefix schema' HP Hrun. rewrite analyzeObject_unfold in Hrun.
    simpl in Hrun. eapply forEach_indexed_preserves; [| exact HP | exact Hrun].
    eapply Forall_impl; [exact IH |]. intros item [HQ Hitems] i s s' Hs Hi.
    by eapply Hvisit.
  - simpl. eapply Forall_impl; [exact IH |]. by intros item [HQ _].
  - intros schema prefix schema' HP Hrun. rewrite analyzeObject_unfold in Hrun.
    simpl in Hrun. eapply forEach_preserves; [| exact HP | exact Hrun].
    eapply Forall_impl; [exact IH |]. intros [key value] [HQ Hitems] s s' Hs Hi.
    by eapply Hvisit.
Qed.

Lemma collect_types_preserves (P : frequency_table → Prop) prototype documents table :
  (∀ fullKey type schema, type ∈ type_tags → P schema →
                          P (record_type fullKey type schema)) →
  P {| rows := []; on_prototype := prototype |} →
  collect_types prototype documents = Ok table → P table.
Proof.
  unfold collect_types. intros Hstep Hempty Hrun.
  eapply (forEach_preserves P); [| exact Hempty | exact Hrun].
  apply Forall_forall. intros doc _ s s' Hs Hdoc.
  by eapply (analyzeObject_preserves P).
Qed.

(** *** The frequency tables of the walk count each tag once *)

Lemma bump_NoDup prototype type types :
  NoDup (map fst types) → NoDup (map fst (bump prototype type types)).
Proof. apply NoDup_set_own. Qed.

Lemma bump_nonempty prototype type types : bump prototype type types ≠ [].
Proof. apply set_own_nonempty. Qed.

Lemma record_type_counted fullKey type schema :
  counted schema → counted (record_type fullKey type schema).
Proof.
  unfold counted, record_type. intros Hall.
  destruct (own fullKey (rows schema)) as [types|] eqn:Hown; simpl.
  - apply Forall_replace_own; [done |]. intros k. simpl.
    split; [| apply bump_nonempty]. apply bump_NoDup.
    apply own_Some_elem in Hown.
    by apply (proj1 (Forall_forall _ _) Hall (fullKey, types)).
  - destruct (String.eqb fullKey "__proto__"); [done |].
    destruct (inherited fullKey); [done |].
    destruct (has_own fullKey (on_prototype schema)); [done |]. simpl.
    apply Forall_insert_new; [done |]. cbn [snd].
    split; [| apply bump_nonempty]. apply bump_NoDup. constructor.
Qed.

Lemma collect_types_counted prototype documents table :
  collect_types prototype documents = Ok table → counted table.
Proof.
  apply (collect_types_preserves counted).
  - intros. by apply record_type_counted.
  - constructor.
Qed.

(** The second loop of analyzeFieldTypes reduces the rows one by one, and
    no row makes the reduce throw. *)
Lemma reduce_rows prototype (table : list (string * counts)) acc :
  Forall (λ row, NoDup (map fst row.2) ∧ row.2 ≠ []) table →
  ∃ reduced,
    forEach (λ entry schema,
               rbind (reduce_types prototype entry.2)
                     (λ info, Ok (schema ++ [(entry.1, info)])))
            table acc = Ok (acc ++ reduced)
    ∧ Forall2 (λ entry row, entry.1 = row.1
                            ∧ reduce_types prototype row.2 = Ok entry.2)
              reduced table.
Proof.
  intros Hall. revert acc. induction Hall as [|[path types] rest [Hnd Hne] _ IH];
    simpl; intros acc.
  - exists []. by rewrite app_nil_r.
  - destruct (reduce_types_returns prototype types Hne) as (info & Hinfo).
    rewrite Hinfo. simpl.
    destruct (IH (acc ++ [(path, info)])) as (reduced & -> & Hreduced).
    exists ((path, info) :: reduced). split; [by rewrite <- app_assoc |].
    by constructor.
Qed.

Lemma analyzeFieldTypes_rows prototype documents schema :
  analyzeFieldTypes prototype documents = Ok schema →
  ∃ table, collect_types prototype documents = Ok table
           ∧ Forall2 (λ entry row, entry.1 = row.1
                                   ∧ reduce_types (on_prototype table) row.2 = Ok entry.2)
                     schema (rows table).
Proof.
  unfold analyzeFieldTypes.
  destruct (collect_types prototype documents) as [table|e] eqn:Htable;
    [| discriminate].
  simpl. intros Hreduce. exists table. split; [done |].
  destruct (reduce_rows (on_prototype table) (rows table) []
              (collect_types_counted _ _ _ Htable)) as (reduced & Hrows & Hall).
  rewrite Hrows in Hreduce. by injection Hreduce as <-.
Qed.

(** C7.  The reduction reads the counter of null through to what the row
    inherits, and the walk counts what it finds under the top-level key
    __proto__ on Object.prototype.  So in a fresh engine, after a document
    with the field __proto__ set to null and one with it set to a string,
    the path a, seen once and holding a string, is reduced to a field
    that is nullable and has two samples, where the frequency of null at
    a is zero and the largest frequency observed there is one.  The
    counters stay on Object.prototype: a later analysis of the single
    document with the string under a gives the same. *)
Theorem analyzeFieldTypes_reads_prototype :
  collect_types []
    [JObj [("__proto__", JNull)]; JObj [("__proto__", JStr "x"); ("a", JStr "y")]]
  = Ok {| rows := [("a", [("string", 2)])];
          on_prototype := [("null", 1); ("string", 1)] |}
  ∧ analyzeFieldTypes []
      [JObj [("__proto__", JNull)]; JObj [("__proto__", JStr "x"); ("a", JStr "y")]]
    = Ok [("a", {| type := "string"; nullable := true; samples := 2 |})]
  ∧ analyzeFieldTypes [("null", 1); ("string", 1)] [JObj [("a", JStr "y")]]
    = Ok [("a", {| type := "string"; nullable := true; samples := 2 |})]
  ∧ analyzeFieldTypes [] [JObj [("a", JStr "y")]]
    = Ok [("a", {| type := "string"; nullable := false; samples := 1 |})].
Proof. split_and!; vm_compute; reflexivity. Qed.

(** *** Row emission *)

Lemma JSON_text_nested (v : value) :
  Array_isArray v = true ∨ (String.eqb (typeof v) "object" = true ∧ is_null v = false) →
  ∃ text, JSON_text v = Some text.
Proof.
  destruct v as [| |b|n|s|[z|]|hex|items|fields]; simpl;
    intros [?|[? ?]]; try discriminate; eauto.
Qed.

Lemma assign_set_own {A} key (v : A) fields :
  key ≠ "__proto__" → assign key v fields = set_own key v fields.
Proof.
  intros Hkey. unfold assign. by destruct (String.eqb_spec key "__proto__").
Qed.

(** What flattenObject does with one field of the document. *)
Lemma flattenObject_step key w flattened flattened' :
  (let newKey := path_join "" key in
   if is_null w || is_undefined w then
     Ok (assign newKey JNull flattened)
   else
     rbind
       (if Array_isArray w then Ok true
        else if String.eqb (typeof w) "object" then
          rbind (get_constructor w) (λ c,
          rbind (constructor_name c) (λ n,
          Ok (negb (is_string "ObjectId" n) && negb (instanceof_Date w))))
        else Ok false)
       (λ nested,
          if nested then
            Ok (assign newKey (match JSON_text w with
                               | Some text => JStr text
                               | None => JUndefined
                               end) flattened)
          else Ok (assign newKey w flattened))) = Ok flattened' →
  ∃ stored, flattened' = assign key stored flattened ∧ stored_form w stored.
Proof.
  cbv zeta. change (path_join "" key) with key.
  destruct w as [| |b|n|s|t|hex|items|fields]; simpl;
    try (intros [= <-]; by eexists).
  - intros [= <-]. eexists. split; [reflexivity |]. split; [| tauto].
    intros _. by eexists.
  - unfold Exporter.getValueType. simpl.
    destruct (match own "constructor" fields with
              | Some c => Ok (DataConstructor c)
              | None => Ok (BuiltinConstructor "Object")
              end) as [c|e]; simpl; [| discriminate].
    destruct (constructor_name c) as [name|e]; simpl; [| discriminate].
    destruct (is_string "ObjectId" name); simpl; intros [= <-];
      (eexists; split; [reflexivity |]).
    + split; [discriminate | done].
    + split; [| done]. intros _. by eexists.
Qed.

Lemma flattenObject_fields (fields : list (string * value)) :
  NoDup (map fst fields) → "__proto__" ∉ map fst fields →
  ∀ acc flat,
    NoDup (map fst acc) →
    (∀ key, key ∈ map fst fields → key ∉ map fst acc) →
    forEach (λ entry flattened,
      let newKey := path_join "" entry.1 in
      if is_null entry.2 || is_undefined entry.2 then
        Ok (assign newKey JNull flattened)
      else
        rbind
          (if Array_isArray entry.2 then Ok true
           else if String.eqb (typeof entry.2) "object" then
             rbind (get_constructor entry.2) (λ c,
             rbind (constructor_name c) (λ n,
             Ok (negb (is_string "ObjectId" n) && negb (instanceof_Date entry.2))))
           else Ok false)
          (λ nested,
             if nested then
               Ok (assign newKey (match JSON_text entry.2 with
                                  | Some text => JStr text
                                  | None => JUndefined
                                  end) flattened)
             else Ok (assign newKey entry.2 flattened))) fields acc = Ok flat →
    NoDup (map fst flat)
    ∧ (∀ key, key ∈ map fst flat ↔ key ∈ map fst acc ∨ key ∈ map fst fields)
    ∧ (∀ key, key ∉ map fst fields → own key flat = own key acc)
    ∧ (∀ key w, (key, w) ∈ fields →
         ∃ stored, own key flat = Some stored ∧ stored_form w stored).
Proof.
  induction fields as [|[key w] rest IH]; simpl; intros Hnd Hproto acc flat Hacc Hfresh Hrun.
  - injection Hrun as <-. split_and!; try done.
    + intros key. rewrite elem_of_nil. tauto.
    + intros key w Hin. by apply elem_of_nil in Hin.
  - apply rbind_Ok in Hrun as (acc1 & Hstep & Hrest).
    apply NoDup_cons in Hnd as [Hkey Hnd].
    apply not_elem_of_cons in Hproto as [Hne Hproto].
    apply flattenObject_step in Hstep as (stored & -> & Hstored).
    rewrite assign_set_own in Hrest by done.
    destruct (IH Hnd Hproto (set_own key stored acc) flat) as (Hnd' & Hkeys & Hother & Hall);
      [by apply NoDup_set_own | | done |].
    { intros k Hk. rewrite keys_set_own. intros [->|Hin]; [done |].
      apply (Hfresh k); [by right | done]. }
    split_and!; [done | | |].
    + intros k. rewrite Hkeys, keys_set_own, elem_of_cons. tauto.
    + intros k Hk. apply not_elem_of_cons in Hk as [Hk1 Hk2].
      rewrite (Hother k Hk2), own_set_own.
      by destruct (String.eqb_spec key k).
    + intros k w' Hin. apply elem_of_cons in Hin as [[= -> ->]|Hin].
      * exists stored. split; [| done].
        rewrite (Hother key Hkey), own_set_own. by rewrite String.eqb_refl.
      * by apply Hall.
Qed.

(** The transform of the script, two replacements one after the other,
    is the fixed transform of the design. *)
Lemma append_assoc (s t u : string) : (s +:+ t) +:+ u = s +:+ (t +:+ u).
Proof.
  induction s as [|c rest IH]; [done |].
  change (String c ((rest +:+ t) +:+ u) = String c (rest +:+ (t +:+ u))).
  by rewrite IH.
Qed.

Lemma replace_char_app c by_ s t :
  replace_char c by_ (s +:+ t) = replace_char c by_ s +:+ replace_char c by_ t.
Proof.
  induction s as [|d rest IH]; [done |].
  change (String d rest +:+ t) with (String d (rest +:+ t)). cbn [replace_char].
  rewrite IH. destruct (Ascii.eqb c d); [| done].
  by rewrite append_assoc.
Qed.

Lemma replace_brackets_two by_ c d rest :
  replace_brackets by_ (String c (String d rest))
  = if Ascii.eqb c "[" && Ascii.eqb d "]" then by_ +:+ replace_brackets by_ rest
    else String c (replace_brackets by_ (String d rest)).
Proof. reflexivity. Qed.

Lemma column_name_two c d rest :
  column_name (String c (String d rest))
  = if Ascii.eqb c "[" && Ascii.eqb d "]" then "_array" +:+ column_name rest
    else if Ascii.eqb c "." then String "_" (column_name (String d rest))
    else String c (column_name (String d rest)).
Proof. reflexivity. Qed.

Lemma replace_char_cons c by_ d rest :
  replace_char c by_ (String d rest)
  = if Ascii.eqb c d then by_ +:+ replace_char c by_ rest
    else String d (replace_char c by_ rest).
Proof. reflexivity. Qed.

Lemma cleanName_column_name path : cleanName path = column_name path.
Proof.
  unfold cleanName.
  assert (Hboth : ∀ n path, String.length path ≤ n →
            replace_char "." "_" (replace_brackets "_array" path) = column_name path).
  { clear path. induction n as [|n IH]; intros path Hlen.
    - destruct path; [done | simpl in Hlen; lia].
    - destruct path as [|c [|d rest]]; [done | |].
      + cbn [replace_brackets column_name replace_char].
        by destruct (Ascii.eqb "." c) eqn:Hdot; rewrite Ascii.eqb_sym, Hdot.
      + rewrite replace_brackets_two, column_name_two.
        destruct (Ascii.eqb c "[" && Ascii.eqb d "]") eqn:Hbrackets.
        * rewrite replace_char_app. rewrite IH by (simpl in Hlen; lia). done.
        * rewrite replace_char_cons. rewrite IH by (simpl in *; lia).
          by destruct (Ascii.eqb "." c) eqn:Hdot; rewrite Ascii.eqb_sym, Hdot. }
  by apply (Hboth (String.length path)).
Qed.

Lemma insert_values_formats (flatDoc : list (string * value)) :
  ∀ acc values,
    forEach (λ entry values,
               rbind (formatValueForSQL entry.2) (λ v, Ok (values ++ [v])))
            flatDoc acc = Ok values →
    ∃ formatted, values = acc ++ formatted
                 ∧ Forall2 (λ entry v, formatValueForSQL entry.2 = Ok v)
                           flatDoc formatted.
Proof.
  induction flatDoc as [|entry rest IH]; intros acc values; simpl.
  - intros [= <-]. exists []. by rewrite app_nil_r.
  - destruct (formatValueForSQL entry.2) as [v|e] eqn:Hv; [| discriminate]. simpl.
    intros Hrest. destruct (IH _ _ Hrest) as (formatted & -> & Hall).
    exists (v :: formatted). split; [by rewrite <- app_assoc |]. by constructor.
Qed.

(** C3, as the code has it.  flattenObject takes the top-level fields of
    a document only.  For a document whose keys are distinct and none of
    which is __proto__, the row has one entry for each top-level key and
    for nothing else; under its key a field holding null or undefined is
    stored as null, an array or a nested object as its JSON text, and any
    other value as it is.  The column of a key is named by the fixed
    transform, and the row statement lists the columns and the formatted
    values of the flattened document and nothing else, whatever the
    schema.  So for the document of scenario D, whose inferred schema has
    the path tags[].name and hence the table column tags_array_name, the
    row statement names the single column tags and leaves tags_array_name
    out, without a NULL in its place. *)
Theorem flattenObject_top_level :
  (∀ fields flat,
     NoDup (map fst fields) → "__proto__" ∉ map fst fields →
     flattenObject (JObj fields) "" = Ok flat →
     (∀ key, key ∈ map fst flat ↔ key ∈ map fst fields)
     ∧ (∀ key w, (key, w) ∈ fields →
          ∃ stored, own key flat = Some stored ∧ stored_form w stored))
  ∧ (∀ path, cleanName path = column_name path)
  ∧ (∀ collectionName doc statement,
       insert_statement collectionName doc = Ok statement →
       ∃ flat values,
         flattenObject doc "" = Ok flat
         ∧ Forall2 (λ entry v, formatValueForSQL entry.2 = Ok v) flat values
         ∧ statement
           = row_statement collectionName
               (map (λ entry, bq +:+ column_name entry.1 +:+ bq) flat)
               (map join_text values))
  ∧ (∀ collectionName documents schema schema',
       generateInsertSQL collectionName documents schema
       = generateInsertSQL collectionName documents schema')
  ∧ (∃ schema,
       analyzeFieldTypes [] [scenario_D_document] = Ok schema
       ∧ map fst schema = ["tags"; "tags[].name"]
       ∧ (∀ prototype,
            ("  " +:+ bq +:+ "tags_array_name" +:+ bq +:+ " TEXT NOT NULL")
            ∈ create_table_columns prototype schema)
       ∧ insert_statement "c" scenario_D_document
         = Ok (row_statement "c" [bq +:+ "tags" +:+ bq]
                             [q1 +:+ scenario_D_text +:+ q1])).
Proof.
  split_and!.
  - intros fields flat Hnd Hproto Hrun. unfold flattenObject, forEach_key in Hrun.
    apply (flattenObject_fields fields Hnd Hproto) in Hrun
      as (_ & Hkeys & _ & Hall); [| constructor |].
    + split; [| done]. intros key. rewrite Hkeys, elem_of_nil. simpl. tauto.
    + intros key _. apply not_elem_of_nil.
  - apply cleanName_column_name.
  - intros collectionName doc statement. unfold insert_statement.
    destruct (flattenObject doc "") as [flat|e]; [| discriminate]. simpl.
    destruct (insert_values flat) as [values|e] eqn:Hvalues; [| discriminate]. simpl.
    intros [= <-]. exists flat, values. split; [done |].
    unfold insert_values in Hvalues.
    apply insert_values_formats in Hvalues as (formatted & -> & Hall).
    split; [done |]. unfold row_statement, insert_columns.
    rewrite (map_ext (λ entry : string * value, bq +:+ cleanName entry.1 +:+ bq)
                     (λ entry, bq +:+ column_name entry.1 +:+ bq)); [done |].
    intros entry. by rewrite cleanName_column_name.
  - reflexivity.
  - exists [("tags", {| type := "array"; nullable := false; samples := 1 |});
            ("tags[].name", {| type := "string"; nullable := false; samples := 2 |})].
    split; [vm_compute; reflexivity |]. split; [reflexivity |].
    split; [intros prototype; vm_compute; in_list | vm_compute; reflexivity].
Qed.

End ExporterProperties.

(** C3 as stated fails on the document of scenario D: schema inference
    records the path tags[].name for it, while its flattening for the row
    has the key tags alone, so the row is not flattened by the path rules
    of the inference. *)
Lemma flattenObject_not_recursive :
  ∃ table flat,
    Exporter.collect_types [] [Spec.scenario_D_document] = JS.Ok table
    ∧ Exporter.flattenObject (H := JS.example_runtime) Spec.scenario_D_document ""
      = JS.Ok flat
    ∧ ("tags[].name" ∈ map fst (Exporter.rows table))
    ∧ ("tags[].name" ∉ map fst flat)
    ∧ map fst flat ≠ map fst (Exporter.rows table).
Proof.
  exists {| Exporter.rows := [("tags", [("array", 1)]); ("tags[].name", [("string", 2)])];
            Exporter.on_prototype := [] |}.
  exists [("tags", JS.JStr Spec.scenario_D_text)].
  split; [vm_compute; reflexivity |]. split; [vm_compute; reflexivity |].
  split; [vm_compute; in_list |]. split.
  - vm_compute. intros Hin. apply list_elem_of_singleton in Hin. discriminate.
  - vm_compute. discriminate.
Qed.

(** C3 at the document of scenario D. *)
Lemma flattenObject_top_level_witness :
  (∀ key, key ∈ map fst [("tags", JS.JStr Spec.scenario_D_text)]
          ↔ key ∈ map fst [("tags", JS.JArr [JS.JObj [("name", JS.JStr "a")];
                                              JS.JObj [("name", JS.JStr "b")]])])
  ∧ (∀ key w,
       (key, w) ∈ [("tags", JS.JArr [JS.JObj [("name", JS.JStr "a")];
                                     JS.JObj [("name", JS.JStr "b")]])] →
       ∃ stored, JS.own key [("tags", JS.JStr Spec.scenario_D_text)] = Some stored
                 ∧ Spec.stored_form (H := JS.example_runtime) w stored).
Proof.
  refine (proj1 (flattenObject_top_level (H := JS.example_runtime))
                [("tags", JS.JArr [JS.JObj [("name", JS.JStr "a")];
                                   JS.JObj [("name", JS.JStr "b")]])]
                [("tags", JS.JStr Spec.scenario_D_text)] _ _ _).
  - apply (bool_decide_unpack _). vm_compute. exact I.
  - apply (bool_decide_unpack _). vm_compute. exact I.
  - vm_compute. reflexivity.
Defined.

(* ===================================================================== *)
(** * Properties of the import script *)
(* ===================================================================== *)

Section ImporterProperties.
Import JS Importer Spec.
Context `{Runtime}.

(** *** The classifier and the casts *)

Lemma has_ObjectId_constructor_total (h : heap) (v : val) :
  is_null v = false → is_undefined v = false →
  ∃ b, has_ObjectId_constructor h v = Ok b.
Proof.
  intros Hn Hu. unfold has_ObjectId_constructor.
  destruct (String.eqb (typeof v) "object"); [| eauto].
  destruct v as [| |b|n|s|l]; try discriminate; simpl; eauto.
  destruct (cell_at h l) as [t|hex|items|fields]; simpl; eauto.
  destruct (own "constructor" fields) as [c|]; simpl; eauto.
  destruct c as [| |b|n|s|l']; simpl; eauto.
  - destruct b; simpl; eauto.
  - destruct (negb (number_eq n 0%float) && negb (PrimFloat.is_nan n)); simpl; eauto.
  - destruct (negb (String.eqb s "")); simpl; eauto.
  - destruct (cell_at h l'); simpl; eauto.
Qed.

(** The classifier of the import script is total, and its tag belongs to
    the enumeration. *)
Lemma import_getValueType_total (h : heap) (v : val) :
  ∃ t, Importer.getValueType h v = Ok t ∧ t ∈ type_tags.
Proof.
  unfold Importer.getValueType, type_tags.
  destruct (is_null v) eqn:Hn; [eexists; split; [done | in_list] |].
  destruct (is_undefined v) eqn:Hu; [eexists; split; [done | in_list] |].
  destruct (Array_isArray h v); [eexists; split; [done | in_list] |].
  destruct (instanceof_Date h v); [eexists; split; [done | in_list] |].
  destruct (has_ObjectId_constructor_total h v Hn Hu) as [b ->]. simpl.
  destruct b; [eexists; split; [done | in_list] |].
  destruct v; simpl; try discriminate; eexists; (split; [done | in_list]).
Qed.

(** C9.  castToType hands null and undefined back as they are, for every
    target type, before any conversion is tried: nothing is allocated and
    nothing is thrown. *)
Theorem castToType_null_undefined (targetType fieldPath : string) (h : heap) :
  castToType VNull targetType fieldPath h = (Ok VNull, h)
  ∧ castToType VUndefined targetType fieldPath h = (Ok VUndefined, h).
Proof. split; reflexivity. Qed.

(** C1, as the code has it.  A date passes through unchanged; a string
    goes through the engine's date parsing and the cast fails when the
    result is the invalid date; a number above ten billion is taken as
    milliseconds since the epoch, and any other number (ten billion
    itself included) as seconds, multiplied by 1000. *)
Theorem castToDate_cases (h : heap) :
  (∀ v, instanceof_Date h v = true → castToDate v h = (Ok v, h))
  ∧ (∀ s, new_date_outcome (Date_parse s) h (castToDate (VStr s) h))
  ∧ (∀ n, number_gt n 1e10%float = true →
       new_date_outcome (TimeClip n) h (castToDate (VNum n) h))
  ∧ (∀ n, number_gt n 1e10%float = false →
       new_date_outcome (TimeClip (n * 1000)%float) h (castToDate (VNum n) h)).
Proof.
  repeat split.
  - intros v Hv. unfold castToDate, bind, reading. by rewrite Hv.
  - intros s. unfold castToDate, bind, reading, new_date_outcome. simpl.
    destruct (Date_parse s); simpl; eauto.
  - intros n Hn. unfold castToDate, bind, reading, new_date_outcome. simpl.
    rewrite Hn. destruct (TimeClip n); simpl; eauto.
  - intros n Hn. unfold castToDate, bind, reading, new_date_outcome. simpl.
    rewrite Hn. destruct (TimeClip (n * 1000)%float); simpl; eauto.
Qed.

(** *** Scenario A *)

(** C5.  Scenario A: the document with age "34" and active "yes",
    validated against a schema that declares age a number and active a
    boolean, comes out with age 34 and active true; two casts are counted
    and there is no error. *)
Theorem scenario_A (age active : FieldSchema) :
  type age = "number" → type active = "boolean" →
  ∃ report h',
    validateDocument IMPORT_OPTIONS (VRef 0) (scenario_A_schema age active)
                     [scenario_A_document] = (Ok report, h')
    ∧ tree_of h' (document report)
      = Ok (JObj [("age", JNum 34%float); ("active", JBool true)])
    ∧ report_typeCastingCount report = 2
    ∧ report_errors report = []
    ∧ report_warnings report = []
    ∧ isValid report = true.
Proof.
  intros Ha Hb.
  exists {| isValid := true; document := VRef 1;
            report_errors := []; report_warnings := [];
            report_typeCastingCount := 2 |}.
  exists [scenario_A_document;
          CObj [("age", VNum 34%float); ("active", VBool true)]].
  split; [| by repeat split].
  destruct age as [ty1 rq1 nc1 nf1 ae1], active as [ty2 rq2 nc2 nf2 ae2].
  simpl in Ha, Hb. subst ty1 ty2.
  destruct nf1, ae1, nf2, ae2; vm_compute; reflexivity.
Qed.
(** *** Store lemmas *)

Lemma cell_at_lookup (h : heap) l c : h !! l = Some c → cell_at h l = c.
Proof. unfold cell_at. by intros ->. Qed.

Lemma cell_at_app (h added : heap) l :
  l < length h → cell_at (h ++ added) l = cell_at h l.
Proof. intros Hl. unfold cell_at. by rewrite lookup_app_l. Qed.

Lemma closed_cell_within (h : heap) l :
  closed h → cell_within h (cell_at h l).
Proof.
  intros Hclosed. unfold cell_at. destruct (h !! l) as [c|] eqn:Hc; simpl.
  - eapply (proj1 (Forall_forall _ _) Hclosed). by eapply list_elem_of_lookup_2.
  - constructor.
Qed.

(** *** Rules for [keeps] *)

Lemma keeps_ret {St A} (P : St → Prop) (Q : A → Prop) a :
  Q a → keeps P (ret a) Q.
Proof. intros HQ s HP. split; [done |]. by intros ? [= <-]. Qed.

Lemma keeps_throw {St A} (P : St → Prop) (Q : A → Prop) e :
  keeps P (throw e) Q.
Proof. intros s HP. split; [done |]. intros ? [=]. Qed.

Lemma keeps_bind {St A B} (P : St → Prop) (m : M St A) (k : A → M St B)
    (Q1 : A → Prop) (Q2 : B → Prop) :
  keeps P m Q1 → (∀ a, Q1 a → keeps P (k a) Q2) → keeps P (bind m k) Q2.
Proof.
  intros Hm Hk s HP. unfold bind. destruct (Hm s HP) as [HP1 HQ1].
  destruct (m s) as [[a|e] s1]; simpl in *.
  - by apply Hk; [apply HQ1 |].
  - split; [done |]. intros ? [=].
Qed.

Lemma keeps_try_catch {St A} (P : St → Prop) (m : M St A) handler (Q : A → Prop) :
  keeps P m Q → (∀ e, keeps P (handler e) Q) → keeps P (try_catch m handler) Q.
Proof.
  intros Hm Hh s HP. unfold try_catch. destruct (Hm s HP) as [HP1 HQ1].
  destruct (m s) as [[a|e] s1]; simpl in *; [by split | by apply Hh].
Qed.

Lemma keeps_reading {St A} (P : St → Prop) (f : St → result A) (Q : A → Prop) :
  (∀ s a, P s → f s = Ok a → Q a) → keeps P (reading f) Q.
Proof. intros Hf s HP. split; [done |]. simpl. eauto. Qed.

Lemma keeps_when {St} (P : St → Prop) b (m : M St unit) :
  keeps P m (λ _, True) → keeps P (when b m) (λ _, True).
Proof. destruct b; [done |]. intros _. by apply keeps_ret. Qed.

Lemma keeps_mapM {St A B} (P : St → Prop) (f : A → M St B) (Q : B → Prop) xs :
  Forall (λ x, keeps P (f x) Q) xs → keeps P (mapM f xs) (Forall Q).
Proof.
  induction 1 as [|x rest Hx _ IH]; simpl.
  - by apply keeps_ret.
  - eapply keeps_bind; [exact Hx |]. intros y Hy.
    eapply keeps_bind; [exact IH |]. intros ys Hys.
    apply keeps_ret. by constructor.
Qed.

Lemma keeps_mapM_indexed {St A B} (P : St → Prop) (f : nat → A → M St B)
    (Q : B → Prop) xs i :
  Forall (λ x, ∀ i, keeps P (f i x) Q) xs → keeps P (mapM_indexed f i xs) (Forall Q).
Proof.
  intros Hall. revert i. induction Hall as [|x rest Hx _ IH]; intros i; simpl.
  - by apply keeps_ret.
  - eapply keeps_bind; [apply Hx |]. intros y Hy.
    eapply keeps_bind; [apply IH |]. intros ys Hys.
    apply keeps_ret. by constructor.
Qed.

(** *** The store keeps extending *)

Lemma extends_length h0 (h : heap) : extends h0 h → length h0 ≤ length h.
Proof.
  intros [Htake _]. rewrite <- Htake at 1. rewrite length_take. lia.
Qed.

Lemma extends_refl (h : heap) : extends h h.
Proof.
  split; [by apply take_ge |]. intros l c Hl Hc.
  apply lookup_lt_Some in Hc. lia.
Qed.

Lemma extends_alloc h0 (h : heap) c :
  extends h0 h → cell_private h0 c → extends h0 (h ++ [c]).
Proof.
  intros Hext Hc. pose proof (extends_length _ _ Hext) as Hlen.
  destruct Hext as [Htake Hpriv]. split.
  - rewrite take_app_le by done. exact Htake.
  - intros l c' Hl Hc'. destruct (decide (l < length h)) as [Hlt|Hge].
    + rewrite lookup_app_l in Hc' by done. eauto.
    + rewrite lookup_app_r in Hc' by lia.
      destruct (l - length h) as [|n]; simpl in Hc'; [by injection Hc' as <- |].
      by rewrite lookup_nil in Hc'.
Qed.

Lemma extends_store h0 (h : heap) l c :
  extends h0 h → length h0 ≤ l → cell_private h0 c → extends h0 (<[l := c]> h).
Proof.
  intros [Htake Hpriv] Hl Hc. split.
  - by rewrite take_insert_ge.
  - intros l' c' Hl' Hc'. apply list_lookup_insert_Some in Hc'
      as [(-> & -> & _)|[_ Hc']]; eauto.
Qed.

Lemma extends_cell_private h0 (h : heap) l :
  extends h0 h → length h0 ≤ l → cell_private h0 (cell_at h l).
Proof.
  intros [_ Hpriv] Hl. unfold cell_at. destruct (h !! l) as [c|] eqn:Hc; simpl.
  - exact (Hpriv l c Hl Hc).
  - constructor.
Qed.

Lemma keeps_alloc h0 c :
  cell_private h0 c → keeps (extends h0) (alloc c) (val_private h0).
Proof.
  intros Hc h Hext. split; simpl.
  - by apply extends_alloc.
  - intros a [= <-]. simpl. by apply extends_length.
Qed.

Lemma keeps_store h0 l c :
  length h0 ≤ l → cell_private h0 c → keeps (extends h0) (store l c) (λ _, True).
Proof. intros Hl Hc h Hext. split; simpl; [by apply extends_store | done]. Qed.

Lemma keeps_reading_any {St A} (P : St → Prop) (f : St → result A) :
  keeps P (reading f) (λ _, True).
Proof. by apply keeps_reading. Qed.

(** *** What the store operations keep *)

Lemma keeps_alloc_value h0 (t : value) :
  keeps (extends h0) (alloc_value t) (val_private h0).
Proof.
  induction t as [| |b|n|s|t|hex|items IH|fields IH] using value_nested_ind;
    simpl; try (by apply keeps_ret); try (by apply keeps_alloc).
  - eapply keeps_bind; [apply keeps_mapM; exact IH |].
    intros vs Hvs. by apply keeps_alloc.
  - eapply keeps_bind.
    + apply (keeps_mapM _ _ (λ entry, val_private h0 entry.2)).
      eapply Forall_impl; [exact IH |]. intros [k w] Hw. simpl in *.
      eapply keeps_bind; [exact Hw |]. intros v Hv. by apply keeps_ret.
    + intros fs Hfs. by apply keeps_alloc.
Qed.

Lemma keeps_deep_copy h0 (doc : val) :
  keeps (extends h0) (deep_copy doc) (val_private h0).
Proof.
  unfold deep_copy. eapply keeps_bind; [apply keeps_reading_any |].
  intros t _. destruct (JSON_roundtrip t); [apply keeps_alloc_value | apply keeps_throw].
Qed.

(** One step on a computation: the rule for its head. *)
Ltac keeps_step :=
  lazymatch goal with
  | |- keeps _ (ret _) _ => apply keeps_ret
  | |- keeps _ (throw _) _ => apply keeps_throw
  | |- keeps _ (alloc _) _ => apply keeps_alloc
  | |- keeps _ (alloc_value _) _ => apply keeps_alloc_value
  | |- keeps _ (bind (reading _) _) _ =>
      eapply keeps_bind; [apply keeps_reading_any | intros ? _]
  | |- keeps _ (bind (JSON_stringify _) _) _ =>
      eapply keeps_bind; [apply keeps_reading_any | intros ? _]
  | |- keeps _ (bind _ _) _ => eapply keeps_bind; [| intros ? ?]
  | |- keeps _ (if ?b then _ else _) _ => destruct b
  | |- keeps _ (match ?x with _ => _ end) _ => destruct x
  | |- keeps _ (let _ := _ in _) _ => cbv zeta
  end.

Ltac keeps_auto := repeat (keeps_step; simpl; try done).

Lemma keeps_castToString h0 value :
  val_private h0 value → keeps (extends h0) (castToString value) (val_private h0).
Proof. intros Hv. unfold castToString. keeps_auto. by destruct a. Qed.

Lemma keeps_castToNumber h0 value :
  val_private h0 value → keeps (extends h0) (castToNumber value) (val_private h0).
Proof. intros Hv. unfold castToNumber. keeps_auto. Qed.

Lemma keeps_castToBoolean h0 value :
  val_private h0 value → keeps (extends h0) (castToBoolean value) (val_private h0).
Proof. intros Hv. unfold castToBoolean. keeps_auto. Qed.

Lemma keeps_castToDate h0 value :
  val_private h0 value → keeps (extends h0) (castToDate value) (val_private h0).
Proof. intros Hv. unfold castToDate, new_Date_checked. keeps_auto. Qed.

Lemma keeps_castToObjectId h0 value :
  val_private h0 value → keeps (extends h0) (castToObjectId value) (val_private h0).
Proof. intros Hv. unfold castToObjectId. keeps_auto. Qed.

Lemma keeps_castToArray h0 value :
  val_private h0 value → keeps (extends h0) (castToArray value) (val_private h0).
Proof.
  intros Hv. unfold castToArray. keeps_auto; by repeat constructor.
Qed.

Lemma keeps_castToObject h0 value :
  val_private h0 value → keeps (extends h0) (castToObject value) (val_private h0).
Proof.
  intros Hv. unfold castToObject. keeps_auto; by repeat constructor.
Qed.

Lemma keeps_cast_switch h0 targetType value :
  val_private h0 value →
  keeps (extends h0) (cast_switch targetType value) (val_private h0).
Proof.
  intros Hv. unfold cast_switch.
  repeat (lazymatch goal with
          | |- keeps _ (if ?b then _ else _) _ => destruct b
          end);
    auto using keeps_castToString, keeps_castToNumber, keeps_castToBoolean,
      keeps_castToDate, keeps_castToObjectId, keeps_castToArray, keeps_castToObject,
      keeps_ret.
Qed.

Lemma keeps_castToType h0 value targetType fieldPath :
  val_private h0 value →
  keeps (extends h0) (castToType value targetType fieldPath) (val_private h0).
Proof.
  intros Hv. unfold castToType.
  destruct (is_null value || is_undefined value); [by apply keeps_ret |].
  eapply keeps_bind; [apply keeps_reading_any |]. intros currentType _.
  destruct (String.eqb currentType targetType); [by apply keeps_ret |].
  apply keeps_try_catch; [by apply keeps_cast_switch |].
  intros _. by apply keeps_ret.
Qed.

(** *** Properties, and the state of the validator *)

Lemma own_fields_private h0 (h : heap) obj :
  extends h0 h → val_private h0 obj →
  Forall (λ entry, val_private h0 entry.2) (own_fields h obj).
Proof.
  intros Hext Hobj. destruct obj as [| | | | |l]; simpl; try constructor.
  pose proof (extends_cell_private _ _ _ Hext Hobj) as Hc.
  destruct (cell_at h l); simpl in *; (done || constructor).
Qed.

Lemma keeps_get_property h0 obj key :
  val_private h0 obj → keeps (extends h0) (get_property obj key) (val_private h0).
Proof.
  intros Hobj. apply keeps_reading. intros h a Hext [= <-].
  destruct (own key (own_fields h obj)) as [v|] eqn:Hown; simpl; [| done].
  eapply (own_Forall (val_private h0)); [| exact Hown].
  by apply own_fields_private.
Qed.

Lemma keeps_set_property h0 obj key v :
  val_private h0 obj → val_private h0 v →
  keeps (extends h0) (set_property obj key v) (λ _, True).
Proof.
  intros Hobj Hv. destruct obj as [| | | | |l]; simpl; try (by apply keeps_ret).
  eapply (keeps_bind _ _ _ (cell_private h0)).
  - apply keeps_reading. intros h c Hext [= <-]. by apply extends_cell_private.
  - intros [t|hex|items|fields] Hc; try (by apply keeps_ret).
    apply keeps_store; [done |]. simpl in *.
    apply Forall_set_own; [done |]. by intros k ->.
Qed.

Lemma keeps_on_heap h0 {A} (m : M heap A) (Q : A → Prop) :
  keeps (extends h0) m Q → keeps (validating h0) (on_heap m) Q.
Proof.
  intros Hm s [Hext Herr]. unfold on_heap. destruct (Hm _ Hext) as [Hext' HQ].
  destruct (m (objects s)) as [r h']. simpl in *.
  split; [split; [exact Hext' | exact Herr] | exact HQ].
Qed.

Lemma keeps_push_error h0 fieldPath :
  keeps (validating h0) (push_error (missing_message fieldPath)) (λ _, True).
Proof.
  intros s [Hext Herr]. split; [| done]. split; [done |]. simpl.
  apply Forall_app. split; [done |]. repeat constructor. by exists fieldPath.
Qed.

Lemma keeps_push_warning h0 message :
  keeps (validating h0) (push_warning message) (λ _, True).
Proof. by intros s [Hext Herr]. Qed.

Lemma keeps_count_cast h0 : keeps (validating h0) count_cast (λ _, True).
Proof. by intros s [Hext Herr]. Qed.

(** *** validateField *)

Lemma FieldSchema_nested_ind (P : FieldSchema → Prop) :
  (∀ fieldSchema,
     (∀ nested, nestedFields fieldSchema = Some nested →
                Forall (λ entry, P entry.2) nested) →
     P fieldSchema) →
  ∀ fieldSchema, P fieldSchema.
Proof.
  intros Hstep. fix IH 1. intros [ty rq nc nf ae]. apply Hstep. simpl.
  destruct nf as [nested0|]; [| discriminate].
  intros nested [= <-].
  induction nested0 as [|[k x] xs IHxs]; constructor; [apply IH | apply IHxs].
Qed.

Lemma keeps_validateField_body h0 options validateNested validateElement
    fieldSchema fieldPath :
  (∀ nested, nestedFields fieldSchema = Some nested →
     Forall (λ entry, ∀ path,
               keeps_field h0 (λ v, validateNested v entry.2 path)) nested) →
  (∀ elementType path, keeps_field h0 (λ v, validateElement v elementType path)) →
  keeps_field h0 (λ v, validateField_body options validateNested validateElement
                                          v fieldSchema fieldPath).
Proof.
  intros Hnested Helement value Hvalue. unfold validateField_body.
  destruct (is_null value || is_undefined value).
  { eapply keeps_bind; [apply keeps_when, keeps_push_error |].
    intros _ _. by apply keeps_ret. }
  eapply keeps_bind; [apply keeps_on_heap, keeps_reading_any |].
  intros currentType _. cbv zeta.
  eapply (keeps_bind _ _ _ (λ r, val_private h0 r.1)).
  { destruct (typeCasting options && negb (String.eqb currentType (type fieldSchema)));
      [| by apply keeps_ret].
    apply keeps_try_catch.
    - eapply keeps_bind; [by apply keeps_on_heap, keeps_castToType |].
      intros finalValue Hfinal. destruct (strict_ne finalValue value).
      + eapply keeps_bind; [apply keeps_count_cast |]. intros _ _. by apply keeps_ret.
      + by apply keeps_ret.
    - intros message. eapply keeps_bind; [apply keeps_push_warning |].
      intros _ _. by apply keeps_ret. }
  intros [finalValue castingPerformed] Hfinal. simpl in Hfinal.
  eapply keeps_bind; [apply keeps_on_heap, keeps_reading_any |].
  intros finalType _.
  eapply keeps_bind; [apply keeps_when, keeps_push_warning |]. intros _ _.
  eapply (keeps_bind _ _ _ (λ _, True)).
  { destruct (nestedFields fieldSchema) as [nested|]; [| by apply keeps_ret].
    destruct (String.eqb finalType "object"); [| by apply keeps_ret].
    specialize (Hnested nested eq_refl). generalize castingPerformed.
    induction Hnested as [|[nestedField nestedSchema] rest Hentry _ IH];
      intros performed; [by apply keeps_ret |].
    eapply keeps_bind; [apply keeps_on_heap, keeps_reading_any |].
    intros present _. destruct present; [| apply IH].
    eapply keeps_bind; [by apply keeps_on_heap, keeps_get_property |].
    intros old Hold.
    eapply keeps_bind; [by apply Hentry |].
    intros nestedResult Hresult.
    eapply keeps_bind; [by apply keeps_on_heap, keeps_set_property |].
    intros _ _. apply IH. }
  intros performed _.
  eapply keeps_bind; [apply keeps_on_heap, keeps_reading_any |].
  intros isArray _.
  destruct (arrayElementType fieldSchema) as [elementType|]; [| by apply keeps_ret].
  destruct (String.eqb finalType "array" && isArray && negb (String.eqb elementType ""));
    [| by apply keeps_ret].
  eapply (keeps_bind _ _ _ (Forall (val_private h0))).
  { apply keeps_on_heap, keeps_reading. intros h items Hext [= <-].
    destruct finalValue as [| | | | |l]; try constructor.
    pose proof (extends_cell_private _ _ _ Hext Hfinal) as Hc.
    destruct (cell_at h l); simpl in *; (done || constructor). }
  intros items Hitems.
  eapply (keeps_bind _ _ _ (Forall (λ r, val_private h0 r.1))).
  { apply keeps_mapM_indexed. eapply Forall_impl; [exact Hitems |].
    intros item Hitem index. by apply Helement. }
  intros results Hresults.
  eapply keeps_bind.
  { apply keeps_on_heap, keeps_alloc. simpl. by apply Forall_fmap. }
  intros mapped Hmapped. by apply keeps_ret.
Qed.

Lemma keeps_validateElement h0 options elementType fieldPath :
  keeps_field h0 (λ item, validateElement options item elementType fieldPath).
Proof.
  unfold validateElement. apply keeps_validateField_body.
  - intros nested [=].
  - intros _ _ value Hvalue. by apply keeps_ret.
Qed.

Lemma keeps_validateField h0 options fieldSchema :
  ∀ fieldPath, keeps_field h0 (λ v, validateField options v fieldSchema fieldPath).
Proof.
  induction fieldSchema as [fieldSchema IH] using FieldSchema_nested_ind.
  intros fieldPath value Hvalue.
  destruct fieldSchema as [ty rq nc nf ae]. simpl.
  apply (keeps_validateField_body h0 options
           (λ v s p, validateField options v s p) (validateElement options)
           (mkFieldSchema ty rq nc nf ae) fieldPath); [| | done].
  - intros nested Hnf. eapply Forall_impl; [exact (IH nested Hnf) |].
    intros entry Hentry path. apply Hentry.
  - intros. apply keeps_validateElement.
Qed.

Lemma keeps_validate_fields h0 options validatedDoc entries :
  val_private h0 validatedDoc →
  keeps (validating h0) (validate_fields options validatedDoc entries) (λ _, True).
Proof.
  intros Hdoc. induction entries as [|[fieldName fieldSchema] rest IH]; simpl.
  { by apply keeps_ret. }
  eapply keeps_bind; [apply keeps_on_heap, keeps_reading_any |].
  intros present _.
  eapply keeps_bind; [| intros _ _; exact IH].
  destruct present; [| apply keeps_when, keeps_push_error].
  eapply keeps_bind; [by apply keeps_on_heap, keeps_get_property |].
  intros old Hold.
  eapply keeps_bind; [by apply keeps_validateField |].
  intros result Hresult. by apply keeps_on_heap, keeps_set_property.
Qed.

(** *** validateDocument *)

Lemma validateDocument_keeps options doc schema (h : heap) r h' :
  validateDocument options doc schema h = (r, h') →
  extends h h'
  ∧ ∀ report, r = Ok report →
      isValid report = (length (report_errors report) =? 0)
      ∧ Forall is_missing_message (report_errors report).
Proof.
  unfold validateDocument.
  set (run := bind (on_heap (deep_copy doc)) _).
  assert (Hrun : keeps (validating h) run (λ _, True)).
  { eapply keeps_bind; [apply keeps_on_heap, keeps_deep_copy |].
    intros validatedDoc Hdoc.
    eapply keeps_bind; [by apply keeps_validate_fields |].
    intros _ _. by apply keeps_ret. }
  destruct (Hrun {| objects := h; errors := []; warnings := []; typeCastingCount := 0 |})
    as [[Hext Herr] _].
  { split; [apply extends_refl | constructor]. }
  destruct (run _) as [[validatedDoc|e] s]; simpl in *; intros [= <- <-];
    (split; [done |]); intros report [= <-]. by simpl.
Qed.

Lemma extends_app (h h' : heap) : extends h h' → ∃ added, h' = h ++ added.
Proof.
  intros [Htake _]. exists (drop (length h) h').
  rewrite <- Htake at 1. by rewrite take_drop.
Qed.

(** The cells added to a closed store do not show in the tree of a value
    of that store. *)
Lemma reify_app fuel (h added : heap) v :
  closed h → val_within h v → reify fuel (h ++ added) v = reify fuel h v.
Proof.
  intros Hclosed. revert v. induction fuel as [|fuel IH]; intros v Hv;
    destruct v as [| | | | |l]; try reflexivity.
  simpl in Hv. simpl. rewrite cell_at_app by done.
  pose proof (closed_cell_within h l Hclosed) as Hc.
  destruct (cell_at h l) as [t|hex|items|fields]; try reflexivity; simpl in Hc.
  - f_equal. induction Hc as [|x xs Hx _ IHxs]; [done |].
    by rewrite (IH x Hx), IHxs.
  - f_equal. induction Hc as [|[k x] xs Hx _ IHxs]; [done |].
    simpl in Hx. by rewrite (IH x Hx), IHxs.
Qed.

(** C4.  validateDocument works on a copy: every cell of the store at the
    call is still there, unchanged, when it returns or throws, so the
    tree of the document handed in is what it was. *)
Theorem validateDocument_preserves_input options doc schema (h : heap) r h' :
  closed h → val_within h doc →
  validateDocument options doc schema h = (r, h') →
  (∃ added, h' = h ++ added) ∧ ∀ fuel, reify fuel h' doc = reify fuel h doc.
Proof.
  intros Hclosed Hdoc Hrun.
  apply validateDocument_keeps in Hrun as [Hext _].
  destruct (extends_app _ _ Hext) as [added ->].
  split; [by exists added |]. intros fuel. by apply reify_app.
Qed.

(** C10.  In every report isValid says that the list of errors is empty,
    and an error is always the message of a missing required field:
    warnings and casts have no part in it. *)
Theorem validateDocument_isValid options doc schema (h : heap) report h' :
  validateDocument options doc schema h = (Ok report, h') →
  (isValid report = true ↔ report_errors report = [])
  ∧ Forall is_missing_message (report_errors report).
Proof.
  intros Hrun. apply validateDocument_keeps in Hrun as [_ Hreport].
  destruct (Hreport report eq_refl) as [-> Herrors]. split; [| done].
  destruct (report_errors report); simpl; split; (done || discriminate).
Qed.

(** *** The casts only add cells *)

Lemma grows_from_refl (h : heap) : grows_from h h.
Proof. exists []. by rewrite app_nil_r. Qed.

Lemma keeps_grows_alloc (h : heap) c :
  keeps (grows_from h) (alloc c) (λ _, True).
Proof.
  intros h1 [added ->]. split; [| done]. simpl.
  exists (added ++ [c]). by rewrite app_assoc.
Qed.

Lemma keeps_grows_alloc_value (h : heap) (t : value) :
  keeps (grows_from h) (alloc_value t) (λ _, True).
Proof.
  induction t as [| |b|n|s|t|hex|items IH|fields IH] using value_nested_ind;
    simpl; try (by apply keeps_ret); try (by apply keeps_grows_alloc).
  - eapply keeps_bind; [apply keeps_mapM; exact IH |].
    intros vs _. apply keeps_grows_alloc.
  - eapply keeps_bind.
    + apply (keeps_mapM _ _ (λ _, True)).
      eapply Forall_impl; [exact IH |]. intros [k w] Hw. simpl in *.
      eapply keeps_bind; [exact Hw |]. intros v _. by apply keeps_ret.
    + intros fs _. apply keeps_grows_alloc.
Qed.

Ltac grows_step :=
  lazymatch goal with
  | |- keeps _ (ret _) _ => by apply keeps_ret
  | |- keeps _ (throw _) _ => apply keeps_throw
  | |- keeps _ (alloc _) _ => apply keeps_grows_alloc
  | |- keeps _ (alloc_value _) _ => apply keeps_grows_alloc_value
  | |- keeps _ (bind (reading _) _) _ =>
      eapply keeps_bind; [apply keeps_reading_any | intros ? _]
  | |- keeps _ (bind (JSON_stringify _) _) _ =>
      eapply keeps_bind; [apply keeps_reading_any | intros ? _]
  | |- keeps _ (bind _ _) _ => eapply keeps_bind; [| intros ? _]
  | |- keeps _ (if ?b then _ else _) _ => destruct b
  | |- keeps _ (match ?x with _ => _ end) _ => destruct x
  | |- keeps _ (let _ := _ in _) _ => cbv zeta
  end.

Lemma keeps_grows_cast_switch (h : heap) targetType value :
  keeps (grows_from h) (cast_switch targetType value) (λ _, True).
Proof.
  unfold cast_switch, castToString, castToNumber, castToBoolean, castToDate,
    castToObjectId, castToArray, castToObject, new_Date_checked.
  repeat (grows_step; simpl).
Qed.

Lemma cast_switch_grows targetType value (h : heap) r h1 :
  cast_switch targetType value h = (r, h1) → grows_from h h1.
Proof.
  intros Hrun. destruct (keeps_grows_cast_switch h targetType value h (grows_from_refl h))
    as [Hgrows _]. by rewrite Hrun in Hgrows.
Qed.

(** *** The casts to array and to object never throw *)

Lemma returns_ret {St A} (a : A) : returns (ret (St := St) a).
Proof. intros s. by eexists _, _. Qed.

Lemma returns_bind {St A B} (m : M St A) (k : A → M St B) :
  returns m → (∀ a, returns (k a)) → returns (bind m k).
Proof.
  intros Hm Hk s. unfold bind. destruct (Hm s) as (a & s1 & ->). apply Hk.
Qed.

Lemma returns_alloc c : returns (alloc c).
Proof. intros h. by eexists _, _. Qed.

Lemma returns_mapM {St A B} (f : A → M St B) xs :
  Forall (λ x, returns (f x)) xs → returns (mapM f xs).
Proof.
  induction 1 as [|x rest Hx _ IH]; simpl; [apply returns_ret |].
  apply returns_bind; [done |]. intros y.
  apply returns_bind; [done |]. intros ys. apply returns_ret.
Qed.

Lemma returns_alloc_value (t : value) : returns (alloc_value t).
Proof.
  induction t as [| |b|n|s|t|hex|items IH|fields IH] using value_nested_ind;
    simpl; try apply returns_ret; try apply returns_alloc.
  - apply returns_bind; [by apply returns_mapM |]. intros vs. apply returns_alloc.
  - apply returns_bind; [| intros fs; apply returns_alloc].
    apply returns_mapM. eapply Forall_impl; [exact IH |]. intros [k w] Hw.
    apply returns_bind; [exact Hw |]. intros v. apply returns_ret.
Qed.

Lemma returns_reading_Ok {St A} (f : St → A) : returns (reading (λ s, Ok (f s))).
Proof. intros s. by eexists _, _. Qed.

Ltac returns_step :=
  lazymatch goal with
  | |- returns (ret _) => apply returns_ret
  | |- returns (alloc _) => apply returns_alloc
  | |- returns (alloc_value _) => apply returns_alloc_value
  | |- returns (reading (λ _, Ok _)) => apply returns_reading_Ok
  | |- returns (bind _ _) => apply returns_bind; [| intros ?]
  | |- returns (if ?b then _ else _) => destruct b
  | |- returns (match ?x with _ => _ end) => destruct x
  | |- returns (let _ := _ in _) => cbv zeta
  end.

Lemma castToArray_returns value : returns (castToArray value).
Proof. unfold castToArray. repeat (returns_step; simpl). Qed.

Lemma castToObject_returns value : returns (castToObject value).
Proof. unfold castToObject. repeat (returns_step; simpl). Qed.

(** A target type whose cast fails is neither array nor object. *)
Lemma cast_switch_Throw_type targetType value (h : heap) e h1 :
  cast_switch targetType value h = (Throw e, h1) →
  targetType ≠ "array" ∧ targetType ≠ "object".
Proof.
  intros Hrun. split; intros ->.
  - destruct (castToArray_returns value h) as (a & h' & Hr).
    change (cast_switch "array" value h) with (castToArray value h) in Hrun. congruence.
  - destruct (castToObject_returns value h) as (a & h' & Hr).
    change (cast_switch "object" value h) with (castToObject value h) in Hrun. congruence.
Qed.

(** *** Classification does not see the cells added to a closed store *)

Lemma getValueType_app (h added : heap) v :
  closed h → val_within h v → getValueType (h ++ added) v = getValueType h v.
Proof.
  intros Hclosed Hv. destruct v as [| | | | |l]; try reflexivity.
  simpl in Hv. unfold getValueType, has_ObjectId_constructor. simpl.
  rewrite cell_at_app by done.
  pose proof (closed_cell_within h l Hclosed) as Hc.
  destruct (cell_at h l) as [t|hex|items|fields]; try reflexivity. simpl in Hc.
  destruct (own "constructor" fields) as [c|] eqn:Hown; [| reflexivity].
  apply (own_Forall (val_within h) _ _ _ Hc) in Hown.
  destruct c as [| | | | |l']; try reflexivity.
  simpl in Hown. simpl. by rewrite cell_at_app.
Qed.

(** *** A field whose coercion fails *)

Lemma on_heap_run {A} (m : M heap A) s r :
  m (objects s) = (r, objects s) → on_heap m s = (r, s).
Proof. intros Hm. unfold on_heap. rewrite Hm. by destruct s. Qed.

Lemma set_property_same (h : heap) l fields key v :
  h !! l = Some (CObj fields) → own key fields = Some v →
  set_property (VRef l) key v h = (Ok (), h).
Proof.
  intros Hcell Hown. unfold set_property, bind, reading, store.
  rewrite (cell_at_lookup _ _ _ Hcell), (set_own_same _ _ _ Hown).
  by rewrite list_insert_id.
Qed.

Lemma cast_fails_grows targetType value (h h1 : heap) :
  cast_fails targetType value h h1 → grows_from h h1.
Proof. intros [[e Hcast]|Hcast]; by eapply cast_switch_grows. Qed.

(** castToType hands the value back when the coercion fails. *)
Lemma castToType_failed value targetType fieldPath currentType (h h1 : heap) :
  is_null value || is_undefined value = false →
  getValueType h value = Ok currentType →
  String.eqb currentType targetType = false →
  cast_fails targetType value h h1 →
  castToType value targetType fieldPath h = (Ok value, h1).
Proof.
  intros Hnull Hcur Hne Hcast. unfold castToType. rewrite Hnull.
  unfold bind, reading. rewrite Hcur, Hne. unfold try_catch.
  by destruct Hcast as [[e ->]| ->].
Qed.

Lemma validateField_body_failed_cast options validateNested validateElement
    value fieldSchema fieldPath s currentType h1 :
  failing_field options fieldSchema value currentType s h1 →
  validateField_body options validateNested validateElement value fieldSchema fieldPath s
  = (Ok (value, strict_ne value value),
     after_failed_cast options s h1 value fieldPath currentType (type fieldSchema)).
Proof.
  intros (Hcasting & [Hnested Helement] & Hclosed & Hvalue & Hnull & Hcur & Hne & Hcast).
  apply String.eqb_neq in Hne.
  pose proof (castToType_failed value (type fieldSchema) fieldPath currentType _ _
                Hnull Hcur Hne Hcast) as Hto.
  destruct (cast_fails_grows _ _ _ _ Hcast) as [added Hh1].
  assert (Hfinal : getValueType h1 value = Ok currentType).
  { rewrite Hh1, getValueType_app; done. }
  clear Hcast Hh1.
  destruct fieldSchema as [ty rq nc nf ae]. simpl in *.
  destruct s as [h errs warns count]. simpl in *.
  unfold validateField_body. rewrite Hnull.
  unfold bind at 1. unfold on_heap at 1, reading at 1. simpl. rewrite Hcur.
  rewrite Hcasting, Hne. cbv zeta. simpl.
  unfold bind at 1. unfold try_catch at 1, bind at 1, on_heap at 1. simpl.
  rewrite Hto. simpl.
  unfold after_failed_cast. simpl.
  assert (Hobject : is_Some nf → String.eqb currentType "object" = false).
  { intros Hsome. by rewrite <- (Hnested Hsome). }
  assert (Harray : is_Some ae → String.eqb currentType "array" = false).
  { intros Hsome. by rewrite <- (Helement Hsome). }
  destruct (strict_ne value value); simpl;
    unfold bind, on_heap, reading; simpl; rewrite Hfinal, Hne; simpl;
    rewrite ?Nat.add_0_r;
    (destruct nf as [nested|]; [rewrite (Hobject ltac:(by eexists)) |]);
    (destruct ae as [elementType|]; [rewrite (Harray ltac:(by eexists)) |]);
    reflexivity.
Qed.

Lemma validateField_unfold options value fieldSchema fieldPath :
  validateField options value fieldSchema fieldPath
  = validateField_body options (validateField options) (validateElement options)
                       value fieldSchema fieldPath.
Proof. by destruct fieldSchema. Qed.

Lemma validateField_failed_cast options value fieldSchema fieldPath s
    currentType h1 :
  failing_field options fieldSchema value currentType s h1 →
  validateField options value fieldSchema fieldPath s
  = (Ok (value, strict_ne value value),
     after_failed_cast options s h1 value fieldPath currentType (type fieldSchema)).
Proof.
  intros Hfails. rewrite validateField_unfold.
  by apply validateField_body_failed_cast.
Qed.

Lemma validateElement_failed_cast options item elementType fieldPath s
    currentType h1 :
  failing_field options (element_schema elementType) item currentType s h1 →
  validateElement options item elementType fieldPath s
  = (Ok (item, strict_ne item item),
     after_failed_cast options s h1 item fieldPath currentType elementType).
Proof.
  intros Hfails. unfold validateElement.
  by rewrite (validateField_body_failed_cast _ _ _ _ _ _ _ _ _ Hfails).
Qed.

(** The state after the failure still has the object as it was. *)
Lemma failing_field_keeps_cell options fieldSchema value currentType s h1 l c :
  failing_field options fieldSchema value currentType s h1 →
  objects s !! l = Some c →
  h1 !! l = Some c ∧ grows_from (objects s) h1.
Proof.
  intros (_ & _ & _ & _ & _ & _ & _ & Hcast) Hcell.
  destruct (cast_fails_grows _ _ _ _ Hcast) as [added ->].
  split; [| by exists added]. by apply lookup_app_l_Some.
Qed.

(** One turn of a loop over fields, on a field whose coercion fails:
    the field is read, validated and written back as it was. *)
Lemma failed_field_turn options {A} l fields key fieldSchema fieldPath value
    currentType s h1 (continue : bool → V A) (otherwise : V A) :
  failing_field options fieldSchema value currentType s h1 →
  objects s !! l = Some (CObj fields) →
  has_own "hasOwnProperty" fields = false →
  own key fields = Some value →
  (let! present := on_heap (call_hasOwnProperty (VRef l) key) in
   if present then
     let! old := on_heap (get_property (VRef l) key) in
     let! result := validateField options old fieldSchema fieldPath in
     on_heap (set_property (VRef l) key result.1) ;;
     continue result.2
   else otherwise) s
  = continue (strict_ne value value)
      (after_failed_cast options s h1 value fieldPath currentType (type fieldSchema)).
Proof.
  intros Hfails Hcell Hshadow Hown.
  destruct (failing_field_keeps_cell _ _ _ _ _ _ _ _ Hfails Hcell) as [Hcell1 _].
  unfold bind at 1.
  rewrite (on_heap_run (call_hasOwnProperty (VRef l) key) s (Ok true));
    [| unfold call_hasOwnProperty, reading; simpl;
       rewrite (cell_at_lookup _ _ _ Hcell), Hshadow; unfold has_own; by rewrite Hown].
  unfold bind at 1.
  rewrite (on_heap_run (get_property (VRef l) key) s (Ok value));
    [| unfold get_property, reading; simpl;
       by rewrite (cell_at_lookup _ _ _ Hcell), Hown].
  unfold bind at 1.
  rewrite (validateField_failed_cast _ _ _ _ _ _ _ Hfails). cbn [fst snd].
  unfold bind at 1.
  rewrite (on_heap_run (set_property (VRef l) key value) _ (Ok ()));
    [reflexivity | by eapply set_property_same].
Qed.

Lemma validate_nested_cons options finalValue fieldPath nestedField nestedSchema
    rest performed :
  validate_nested options finalValue fieldPath ((nestedField, nestedSchema) :: rest)
                  performed
  = (let! present := on_heap (call_hasOwnProperty finalValue nestedField) in
     if present then
       let! old := on_heap (get_property finalValue nestedField) in
       let! nestedResult :=
         validateField options old nestedSchema (fieldPath +:+ "." +:+ nestedField) in
       on_heap (set_property finalValue nestedField nestedResult.1) ;;
       validate_nested options finalValue fieldPath rest (performed || nestedResult.2)
     else validate_nested options finalValue fieldPath rest performed).
Proof. reflexivity. Qed.

(** validateField on an object of the declared type object is the loop
    over the nested fields. *)
Lemma validateField_object options l fieldSchema nested fieldPath s :
  getValueType (objects s) (VRef l) = Ok "object" →
  type fieldSchema = "object" →
  nestedFields fieldSchema = Some nested →
  validateField options (VRef l) fieldSchema fieldPath s
  = (let! performed := validate_nested options (VRef l) fieldPath nested false in
     ret (VRef l, performed)) s.
Proof.
  rewrite validateField_unfold.
  destruct fieldSchema as [ty rq nc nf ae]. simpl.
  intros Htype -> ->.
  unfold validateField_body. cbn [is_null is_undefined orb].
  cbn [type nestedFields arrayElementType].
  unfold bind at 1.
  rewrite (on_heap_run (reading (λ h, getValueType h (VRef l))) s (Ok "object"));
    [| unfold reading; by rewrite Htype].
  rewrite String.eqb_refl, andb_false_r.
  unfold bind at 1. unfold ret at 1.
  unfold bind at 1.
  rewrite (on_heap_run (reading (λ h, getValueType h (VRef l))) s (Ok "object"));
    [| unfold reading; by rewrite Htype].
  rewrite String.eqb_refl. unfold bind at 1. unfold when at 1, negb at 1, ret at 1.
  unfold bind at 1.
  change (fix each (entries : list (string * FieldSchema)) (castingPerformed : bool)
            {struct entries} : V bool := _)
    with (validate_nested options (VRef l) fieldPath).
  assert (Hrun : ∀ k : bool → V (val * bool),
            bind (validate_nested options (VRef l) fieldPath nested false) k s
            = (let (r, s') := validate_nested options (VRef l) fieldPath nested false s in
               match r with
               | Ok a => k a s'
               | Throw e => (Throw e, s')
               end)) by reflexivity.
  rewrite Hrun. clear Hrun.
  destruct (validate_nested options (VRef l) fieldPath nested false s)
    as [[performed|e] s1]; [| done].
  unfold bind at 1. unfold on_heap at 1, reading at 1. cbn [fst snd].
  destruct s1 as [h1 errs warns count]. cbn [objects].
  by destruct ae.
Qed.

(** validateField on an array of the declared type array, with an
    element type, is the loop over the elements. *)
Lemma validateField_array options l items fieldSchema elementType fieldPath s :
  objects s !! l = Some (CArr items) →
  type fieldSchema = "array" →
  arrayElementType fieldSchema = Some elementType →
  elementType ≠ "" →
  validateField options (VRef l) fieldSchema fieldPath s
  = (let! results := validate_elements options elementType fieldPath 0 items in
     let! mapped := on_heap (alloc (CArr (map fst results))) in
     ret (mapped, existsb snd results)) s.
Proof.
  rewrite validateField_unfold.
  destruct fieldSchema as [ty rq nc nf ae]. simpl.
  intros Hcell -> -> Hname. apply String.eqb_neq in Hname.
  assert (Htype : getValueType (objects s) (VRef l) = Ok "array").
  { unfold getValueType. simpl. by rewrite (cell_at_lookup _ _ _ Hcell). }
  unfold validateField_body. cbn [is_null is_undefined orb].
  cbn [type nestedFields arrayElementType].
  unfold bind at 1.
  rewrite (on_heap_run (reading (λ h, getValueType h (VRef l))) s (Ok "array"));
    [| unfold reading; by rewrite Htype].
  rewrite String.eqb_refl, andb_false_r.
  unfold bind at 1. unfold ret at 1.
  unfold bind at 1.
  rewrite (on_heap_run (reading (λ h, getValueType h (VRef l))) s (Ok "array"));
    [| unfold reading; by rewrite Htype].
  rewrite String.eqb_refl. unfold bind at 1. unfold when at 1, negb at 1, ret at 1.
  unfold bind at 1.
  destruct nf as [nested|];
    [change (String.eqb "array" "object") with false |]; cbv iota.
  all: unfold ret at 1.
  all: unfold bind at 1.
  all: rewrite (on_heap_run (reading (λ h, Ok (Array_isArray h (VRef l)))) s (Ok true));
    [| unfold reading; simpl; by rewrite (cell_at_lookup _ _ _ Hcell)].
  all: rewrite Hname; cbn [andb negb].
  all: unfold bind at 1.
  all: rewrite (on_heap_run (reading (λ h, Ok (match cell_at h l with
                                               | CArr items => items
                                               | _ => []
                                               end))) s (Ok items));
    [| unfold reading; by rewrite (cell_at_lookup _ _ _ Hcell)].
  all: reflexivity.
Qed.

Lemma validate_elements_cons options elementType fieldPath index item rest :
  validate_elements options elementType fieldPath index (item :: rest)
  = (let! result := validateElement options item elementType
                      (fieldPath +:+ "[" +:+ nat_to_string index +:+ "]") in
     let! results := validate_elements options elementType fieldPath (S index) rest in
     ret (result :: results)).
Proof. reflexivity. Qed.


End ImporterProperties.

(** C1 at concrete numbers: twenty billion is read as milliseconds, five
    as seconds. *)
Lemma castToDate_cases_witness :
  Importer.castToDate (H := JS.example_runtime) (Importer.VNum 2e10%float) []
    = (JS.Ok (Importer.VRef 0), [Importer.CDate (Some 20000000000%Z)])
  ∧ Importer.castToDate (H := JS.example_runtime) (Importer.VNum 5%float) []
    = (JS.Ok (Importer.VRef 0), [Importer.CDate (Some 5000%Z)]).
Proof.
  pose proof (castToDate_cases (H := JS.example_runtime) []) as (_ & _ & Hms & Hs).
  split.
  - exact (Hms 2e10%float eq_refl).
  - exact (Hs 5%float eq_refl).
Defined.

(** C1 as stated fails at ten billion: the number is not below ten
    billion, yet it is read as seconds and the date is that of 1e13
    milliseconds, not of 1e10 milliseconds. *)
Lemma castToDate_ten_billion :
  PrimFloat.leb 1e10%float 1e10%float = true
  ∧ Importer.castToDate (H := JS.example_runtime) (Importer.VNum 1e10%float) []
    = (JS.Ok (Importer.VRef 0), [Importer.CDate (Some 10000000000000%Z)])
  ∧ JS.TimeClip 1e10%float = Some 10000000000%Z
  ∧ Importer.castToDate (H := JS.example_runtime) (Importer.VNum 1e10%float) []
    ≠ (JS.Ok (Importer.VRef 0), [Importer.CDate (JS.TimeClip 1e10%float)]).
Proof.
  split; [vm_compute; reflexivity |]. split; [vm_compute; reflexivity |].
  split; [vm_compute; reflexivity |]. vm_compute. discriminate.
Qed.

(** C4 on the store of scenario A. *)
Lemma validateDocument_preserves_input_witness :
  (∃ added,
     [Spec.scenario_A_document;
      Importer.CObj [("age", Importer.VNum 34%float); ("active", Importer.VBool true)]]
     = [Spec.scenario_A_document] ++ added)
  ∧ Importer.reify 2
      [Spec.scenario_A_document;
       Importer.CObj [("age", Importer.VNum 34%float); ("active", Importer.VBool true)]]
      (Importer.VRef 0)
    = Importer.reify 2 [Spec.scenario_A_document] (Importer.VRef 0).
Proof.
  destruct (validateDocument_preserves_input (H := JS.example_runtime)
              Importer.IMPORT_OPTIONS (Importer.VRef 0)
              (Spec.scenario_A_schema (Importer.element_schema "number")
                                      (Importer.element_schema "boolean"))
              [Spec.scenario_A_document]
              (JS.Ok {| Importer.isValid := true; Importer.document := Importer.VRef 1;
                        Importer.report_errors := []; Importer.report_warnings := [];
                        Importer.report_typeCastingCount := 2 |})
              [Spec.scenario_A_document;
               Importer.CObj [("age", Importer.VNum 34%float);
                              ("active", Importer.VBool true)]])
    as [Hgrows Htree].
  - repeat constructor.
  - simpl. lia.
  - vm_compute. reflexivity.
  - split; [exact Hgrows | exact (Htree 2)].
Defined.

(** C5 with the two plain field schemas. *)
Lemma scenario_A_witness :
  ∃ report h',
    Importer.validateDocument (H := JS.example_runtime) Importer.IMPORT_OPTIONS
      (Importer.VRef 0)
      (Spec.scenario_A_schema (Importer.element_schema "number")
                              (Importer.element_schema "boolean"))
      [Spec.scenario_A_document] = (JS.Ok report, h')
    ∧ Importer.tree_of h' (Importer.document report)
      = JS.Ok (JS.JObj [("age", JS.JNum 34%float); ("active", JS.JBool true)])
    ∧ Importer.report_typeCastingCount report = 2
    ∧ Importer.report_errors report = []
    ∧ Importer.report_warnings report = []
    ∧ Importer.isValid report = true.
Proof.
  exact (scenario_A (H := JS.example_runtime)
           (Importer.element_schema "number") (Importer.element_schema "boolean")
           eq_refl eq_refl).
Defined.


(** C10 on a document that lacks a required field. *)
Lemma validateDocument_isValid_witness :
  (false = true ↔ [Importer.missing_message "name"] = [])
  ∧ Forall Spec.is_missing_message [Importer.missing_message "name"].
Proof.
  refine (validateDocument_isValid (H := JS.example_runtime)
            Importer.IMPORT_OPTIONS (Importer.VRef 0)
            {| Importer.fields :=
                 [("name", {| Importer.type := "string"; Importer.required := true;
                              Importer.nullCount := Some 0;
                              Importer.nestedFields := None;
                              Importer.arrayElementType := None |})] |}
            [Importer.CObj []]
            {| Importer.isValid := false; Importer.document := Importer.VRef 1;
               Importer.report_errors := [Importer.missing_message "name"];
               Importer.report_warnings := [];
               Importer.report_typeCastingCount := 0 |}
            [Importer.CObj []; Importer.CObj []] _).
  vm_compute. reflexivity.
Defined.

(* ===================================================================== *)
(** * The import in batches *)
(* ===================================================================== *)

Section Batching.
Import JS Importer Spec.
Context {Doc : Type} (resolves : list (@operation Doc) → @operation Doc → bool).

Lemma insert_one_by_one_submitted (batch : list Doc) (s : import_state) :
  submitted (insert_one_by_one resolves batch s) = submitted s ++ map insertOne batch.
Proof.
  revert s. induction batch as [|doc rest IH]; intros s; simpl.
  - by rewrite app_nil_r.
  - rewrite IH. destruct (resolves (submitted s) (insertOne doc)); simpl;
      by rewrite <- app_assoc.
Qed.

(** One turn of the loop submits the operations of one batch and moves on
    by the batch size. *)
Lemma import_loop_step fuel (docs : list Doc) batchSize i s :
  i < length docs →
  let batch := slice i (i + batchSize) docs in
  let resolved := resolves (submitted s) (insertMany batch) in
  ∃ s', import_loop resolves (S fuel) docs batchSize i s
        = import_loop resolves fuel docs batchSize (i + batchSize) s'
        ∧ submitted s' = submitted s ++ batch_operations resolved batch.
Proof.
  intros Hi batch resolved. simpl.
  destruct (Nat.ltb_spec i (length docs)) as [_|?]; [| lia].
  fold batch. fold resolved. destruct resolved; eexists; (split; [reflexivity |]); simpl.
  - done.
  - rewrite insert_one_by_one_submitted. simpl. by rewrite <- app_assoc.
Qed.

Lemma import_loop_done fuel (docs : list Doc) batchSize i s :
  length docs ≤ i → import_loop resolves fuel docs batchSize i s = Some s.
Proof.
  intros Hi. destruct fuel; simpl;
    destruct (Nat.ltb_spec i (length docs)); (lia || done).
Qed.

(** C8.  2500 documents with a batch size of 1000 go out as three bulk
    operations, of 1000, 1000 and 500 documents, in that order; a batch
    whose bulk operation is rejected is followed by one single insert for
    each of its documents, and by nothing else. *)
Theorem importInBatches_2500 (docs : list Doc) :
  length docs = 2500 →
  let b1 := take 1000 docs in
  let b2 := take 1000 (drop 1000 docs) in
  let b3 := take 1000 (drop 2000 docs) in
  docs = b1 ++ b2 ++ b3
  ∧ length b1 = 1000 ∧ length b2 = 1000 ∧ length b3 = 500
  ∧ ∃ s r1 r2 r3,
      importInBatches resolves docs 1000 = Some s
      ∧ submitted s = batch_operations r1 b1 ++ batch_operations r2 b2
                      ++ batch_operations r3 b3
      ∧ r1 = resolves [] (insertMany b1)
      ∧ r2 = resolves (batch_operations r1 b1) (insertMany b2)
      ∧ r3 = resolves (batch_operations r1 b1 ++ batch_operations r2 b2)
                      (insertMany b3).
Proof.
  intros Hlen b1 b2 b3. split; [| split; [| split; [| split]]].
  - assert (Hb3 : b3 = drop 1000 (drop 1000 docs)).
    { subst b3. rewrite drop_drop. apply take_ge. rewrite length_drop. lia. }
    rewrite Hb3. subst b1 b2. by rewrite !take_drop.
  - subst b1. rewrite length_take. lia.
  - subst b2. rewrite length_take, length_drop. lia.
  - subst b3. rewrite length_take, length_drop. lia.
  - unfold importInBatches. rewrite Hlen.
    destruct (import_loop_step 2499 docs 1000 0
                {| submitted := []; importedCount := 0 |}) as (s1 & -> & Hs1); [lia |].
    destruct (import_loop_step 2498 docs 1000 (0 + 1000) s1) as (s2 & -> & Hs2); [lia |].
    destruct (import_loop_step 2497 docs 1000 (0 + 1000 + 1000) s2)
      as (s3 & -> & Hs3); [lia |].
    rewrite import_loop_done by lia.
    exists s3. eexists _, _, _. split; [reflexivity |].
    unfold slice in Hs1, Hs2, Hs3.
    replace (0 + 1000 - 0) with 1000 in Hs1 by lia.
    replace (0 + 1000 + 1000 - (0 + 1000)) with 1000 in Hs2 by lia.
    replace (0 + 1000 + 1000 + 1000 - (0 + 1000 + 1000)) with 1000 in Hs3 by lia.
    replace (0 + 1000) with 1000 in Hs2 by lia.
    replace (0 + 1000 + 1000) with 2000 in Hs3 by lia.
    rewrite drop_0 in Hs1.
    fold b1 in Hs1. fold b2 in Hs2. fold b3 in Hs3. simpl in Hs1.
    rewrite Hs3, Hs2, Hs1. split; [by rewrite <- app_assoc |].
    done.
Qed.

End Batching.

(** C8 on 2500 numbered documents, the collection rejecting the second
    bulk operation. *)
Lemma importInBatches_2500_witness :
  ∃ s, Importer.importInBatches
         (λ history op, match op with
                        | Importer.insertMany _ => negb (length history =? 1)
                        | Importer.insertOne _ => true
                        end)
         (seq 0 2500) 1000 = Some s
       ∧ length (Importer.submitted s) = 1003.
Proof.
  destruct (importInBatches_2500
              (λ history op, match op with
                             | Importer.insertMany _ => negb (length history =? 1)
                             | Importer.insertOne _ => true
                             end)
              (seq 0 2500) (length_seq 2500 0))
    as (_ & _ & _ & _ & s & r1 & r2 & r3 & Hrun & Hsub & -> & -> & ->).
  exists s. split; [exact Hrun |].
  rewrite Hsub. vm_compute. reflexivity.
Defined.

Section BatchingInGeneral.
Import JS Importer Spec Terms.
Context {Doc : Type} (resolves : list (@operation Doc) → @operation Doc → bool).

Lemma insert_one_by_one_count (batch : list Doc) (s : import_state) :
  importedCount s ≤ importedCount (insert_one_by_one resolves batch s)
  ∧ importedCount (insert_one_by_one resolves batch s) ≤ importedCount s + length batch
  ∧ ((∀ submitted doc, resolves submitted (insertOne doc) = true) →
     importedCount (insert_one_by_one resolves batch s) = importedCount s + length batch).
Proof.
  revert s. induction batch as [|doc rest IH]; intros s; simpl.
  - repeat split; lia.
  - destruct (resolves (submitted s) (insertOne doc)) eqn:Hanswer.
    + destruct (IH (add_imported 1
                      {| submitted := submitted s ++ [insertOne doc];
                         importedCount := importedCount s |})) as (Hlow & Hhigh & Hall).
      simpl in *. repeat split; [lia | lia |].
      intros Hyes. rewrite (Hall Hyes). lia.
    + destruct (IH {| submitted := submitted s ++ [insertOne doc];
                      importedCount := importedCount s |}) as (Hlow & Hhigh & Hall).
      simpl in *. repeat split; [lia | lia |].
      intros Hyes. rewrite Hyes in Hanswer. discriminate.
Qed.

(** One turn of the loop: what it submits and what it counts. *)
Lemma import_loop_turn fuel (docs : list Doc) batchSize i s :
  i < length docs →
  let batch := slice i (i + batchSize) docs in
  let resolved := resolves (submitted s) (insertMany batch) in
  ∃ s', import_loop resolves (S fuel) docs batchSize i s
        = import_loop resolves fuel docs batchSize (i + batchSize) s'
        ∧ submitted s' = submitted s ++ batch_operations resolved batch
        ∧ importedCount s ≤ importedCount s'
        ∧ importedCount s' ≤ importedCount s + length batch
        ∧ ((∀ submitted doc, resolves submitted (insertOne doc) = true) →
           importedCount s' = importedCount s + length batch).
Proof.
  intros Hi batch resolved. simpl.
  destruct (Nat.ltb_spec i (length docs)) as [_|]; [| lia].
  unfold submit. fold batch. fold resolved.
  destruct resolved; eexists; (split; [reflexivity |]); simpl.
  - repeat split; lia.
  - rewrite insert_one_by_one_submitted. simpl. split; [by rewrite <- app_assoc |].
    apply (insert_one_by_one_count batch
             {| submitted := submitted s ++ [insertMany batch];
                importedCount := importedCount s |}).
Qed.

Lemma slice_drop (docs : list Doc) i batchSize :
  slice i (i + batchSize) docs ++ drop (i + batchSize) docs = drop i docs.
Proof.
  unfold slice. replace (i + batchSize - i) with batchSize by lia.
  rewrite <- (take_drop batchSize (drop i docs)) at 2.
  by rewrite drop_drop.
Qed.

Lemma slice_length (docs : list Doc) i batchSize :
  i < length docs → 0 < batchSize →
  0 < length (slice i (i + batchSize) docs)
  ∧ length (slice i (i + batchSize) docs) ≤ batchSize.
Proof.
  intros Hi Hb. unfold slice. replace (i + batchSize - i) with batchSize by lia.
  rewrite length_take, length_drop. lia.
Qed.

(** From any index, with enough fuel, the loop ends; it has then sent the
    remaining documents batch after batch. *)
Lemma import_loop_runs (docs : list Doc) batchSize :
  0 < batchSize →
  ∀ fuel i s, length docs - i ≤ fuel →
    ∃ s' outcomes,
      import_loop resolves fuel docs batchSize i s = Some s'
      ∧ submitted s' = submitted s ++ batches_operations outcomes
      ∧ answered resolves (submitted s) outcomes
      ∧ concat (map snd outcomes) = drop i docs
      ∧ Forall (λ outcome, 0 < length outcome.2 ∧ length outcome.2 ≤ batchSize) outcomes
      ∧ importedCount s ≤ importedCount s'
      ∧ importedCount s' ≤ importedCount s + length (drop i docs)
      ∧ ((∀ submitted doc, resolves submitted (insertOne doc) = true) →
         importedCount s' = importedCount s + length (drop i docs)).
Proof.
  intros Hb. induction fuel as [|fuel IH]; intros i s Hfuel.
  - exists s, []. rewrite import_loop_done by lia.
    rewrite drop_ge by lia. simpl. rewrite app_nil_r.
    repeat split; try done; lia.
  - destruct (Nat.lt_ge_cases i (length docs)) as [Hi|Hi].
    + destruct (import_loop_turn fuel docs batchSize i s Hi)
        as (s1 & Hstep & Hsub1 & Hlow1 & Hhigh1 & Hall1).
      destruct (IH (i + batchSize) s1 ltac:(lia))
        as (s' & outcomes & Hrun & Hsub & Hanswered & Hcat & Hsizes & Hlow & Hhigh
            & Hall).
      exists s', ((resolves (submitted s) (insertMany (slice i (i + batchSize) docs)),
                   slice i (i + batchSize) docs) :: outcomes).
      pose proof (slice_drop docs i batchSize) as Hsplit.
      assert (Hlen : length (drop i docs)
                     = length (slice i (i + batchSize) docs)
                       + length (drop (i + batchSize) docs)).
      { by rewrite <- Hsplit, length_app. }
      split; [by rewrite Hstep |].
      split. { rewrite Hsub, Hsub1. unfold batches_operations. simpl.
               by rewrite <- app_assoc. }
      split. { split; [reflexivity |]. cbn [fst snd]. by rewrite <- Hsub1. }
      split. { simpl. by rewrite Hcat. }
      split. { constructor; [| done]. simpl. by apply slice_length. }
      split; [lia |]. split; [lia |].
      intros Hyes. rewrite (Hall Hyes), (Hall1 Hyes). lia.
    + exists s, []. rewrite import_loop_done by lia.
      rewrite drop_ge by lia. simpl. rewrite app_nil_r.
      repeat split; try done; lia.
Qed.

(** X17.  Whatever the collection answers, with a batch size of at least one
    the loop ends; the documents have gone out in their order, cut into
    batches that are not empty and not above the batch size, each batch as
    one bulk operation followed, exactly when the collection rejected
    that operation, by one single insert per document; and no more
    documents are counted as imported than there are. *)
Theorem importInBatches_partition (docs : list Doc) (batchSize : nat) :
  0 < batchSize →
  ∃ s outcomes,
    importInBatches resolves docs batchSize = Some s
    ∧ submitted s = batches_operations outcomes
    ∧ answered resolves [] outcomes
    ∧ concat (map snd outcomes) = docs
    ∧ Forall (λ outcome, 0 < length outcome.2 ∧ length outcome.2 ≤ batchSize) outcomes
    ∧ importedCount s ≤ length docs.
Proof.
  intros Hb.
  destruct (import_loop_runs docs batchSize Hb (length docs) 0
              {| submitted := []; importedCount := 0 |} ltac:(lia))
    as (s & outcomes & Hrun & Hsub & Hanswered & Hcat & Hsizes & _ & Hhigh & _).
  exists s, outcomes. simpl in *. rewrite drop_0 in *.
  split_and!; done.
Qed.

(** X18.  When the collection accepts every single insert, every document is
    counted as imported, whatever happens to the bulk operations. *)
Theorem importInBatches_fallback_recovers (docs : list Doc) (batchSize : nat) :
  0 < batchSize →
  (∀ submitted doc, resolves submitted (insertOne doc) = true) →
  ∃ s, importInBatches resolves docs batchSize = Some s
       ∧ importedCount s = length docs.
Proof.
  intros Hb Hyes.
  destruct (import_loop_runs docs batchSize Hb (length docs) 0
              {| submitted := []; importedCount := 0 |} ltac:(lia))
    as (s & outcomes & Hrun & _ & _ & _ & _ & _ & _ & Hall).
  exists s. split; [done |]. rewrite (Hall Hyes). simpl. by rewrite drop_0.
Qed.

Lemma import_loop_stuck (docs : list Doc) :
  docs ≠ [] →
  ∀ fuel s, import_loop resolves fuel docs 0 0 s = None.
Proof.
  intros Hdocs. assert (Hlen : 0 < length docs) by (destruct docs; [done | simpl; lia]).
  induction fuel as [|fuel IH]; intros s; simpl;
    destruct (Nat.ltb_spec 0 (length docs)) as [_|]; try lia; [done |].
  unfold submit. destruct (resolves _ _); apply IH.
Qed.

(** X19.  With a batch size of zero and at least one document the loop never
    ends: the index stays at zero, however many turns are taken. *)
Theorem import_loop_batchSize_zero (docs : list Doc) :
  docs ≠ [] →
  ∀ fuel s, import_loop resolves fuel docs 0 0 s = None.
Proof. exact (import_loop_stuck docs). Qed.

End BatchingInGeneral.

Lemma importInBatches_partition_witness :
  0 < 2
  ∧ ∃ s outcomes,
      Importer.importInBatches
        (λ _ op, match op with Importer.insertMany _ => false
                            | Importer.insertOne d => Nat.even d end)
                      [1; 2; 3; 4; 5] 2 = Some s
      ∧ Importer.submitted s = Terms.batches_operations outcomes
      ∧ Terms.answered
          (λ _ op, match op with Importer.insertMany _ => false
                              | Importer.insertOne d => Nat.even d end) [] outcomes
      ∧ concat (map snd outcomes) = [1; 2; 3; 4; 5]
      ∧ Forall (λ outcome, 0 < length outcome.2 ∧ length outcome.2 ≤ 2) outcomes
      ∧ Importer.importedCount s ≤ length [1; 2; 3; 4; 5].
Proof.
  split; [lia |].
  apply (importInBatches_partition
           (λ _ op, match op with Importer.insertMany _ => false
                               | Importer.insertOne d => Nat.even d end)
           [1; 2; 3; 4; 5] 2).
  lia.
Defined.

Lemma importInBatches_fallback_recovers_witness :
  0 < 2
  ∧ ∃ s, Importer.importInBatches
           (λ _ op, match op with Importer.insertMany _ => false
                               | Importer.insertOne _ => true end)
           [1; 2; 3; 4; 5] 2 = Some s
         ∧ Importer.importedCount s = length [1; 2; 3; 4; 5].
Proof.
  split; [lia |].
  apply (importInBatches_fallback_recovers
           (λ _ op, match op with Importer.insertMany _ => false
                               | Importer.insertOne _ => true end)
           [1; 2; 3; 4; 5] 2); [lia | reflexivity].
Defined.

Lemma import_loop_batchSize_zero_witness :
  [7] ≠ []
  ∧ Importer.import_loop (λ _ _, true) 1000 [7] 0 0
      {| Importer.submitted := []; Importer.importedCount := 0 |} = None.
Proof.
  split; [discriminate |].
  apply (import_loop_batchSize_zero (λ _ _, true) [7]). discriminate.
Defined.

Section ImportDataProperties.
Import JS Importer ImportData Spec Terms.
Context `{Runtime}.

Lemma grows_from_trans (h1 h2 h3 : heap) :
  grows_from h1 h2 → grows_from h2 h3 → grows_from h1 h3.
Proof.
  intros [a ->] [b ->]. exists (a ++ b). by rewrite app_assoc.
Qed.

Lemma after_validation_forwards validation t :
  validDocuments (after_validation validation t)
  = validDocuments t ++ [document validation].
Proof. unfold after_validation. by destruct (isValid validation). Qed.

(** The validation pass, from any point of the loop. *)
Lemma validate_documents_from options schema documents :
  ∀ t (h : heap) r h',
    validate_documents options schema documents t h = (r, h') →
    grows_from h h'
    ∧ ∀ t', r = Ok t' →
        length (validDocuments t') = length (validDocuments t) + length documents
        ∧ invalidCount t ≤ invalidCount t'
        ∧ invalidCount t' ≤ invalidCount t + length documents
        ∧ totalValidationErrors t ≤ totalValidationErrors t'
        ∧ (invalidCount t' = invalidCount t
           ↔ totalValidationErrors t' = totalValidationErrors t).
Proof.
  induction documents as [|doc rest IH]; intros t h r h' Hrun; simpl in Hrun.
  - injection Hrun as <- <-. split; [apply grows_from_refl |].
    intros t' [= <-]. simpl. repeat split; lia.
  - unfold bind in Hrun.
    destruct (validateDocument options doc schema h) as [[validation|e] h1] eqn:Hdoc.
    + destruct (validateDocument_keeps _ _ _ _ _ _ Hdoc) as [Hext Hreport].
      destruct (Hreport validation eq_refl) as [Hvalid _].
      destruct (IH _ _ _ _ Hrun) as [Hgrows Htotals].
      split; [exact (grows_from_trans _ _ _ (extends_app _ _ Hext) Hgrows) |].
      intros t' ->. destruct (Htotals t' eq_refl) as (Hlen & Hlow & Hhigh & Herr & Hiff).
      rewrite after_validation_forwards, length_app in Hlen. simpl in Hlen.
      unfold after_validation in Hlow, Hhigh, Herr, Hiff.
      destruct (isValid validation); simpl in *.
      * repeat split; try lia; apply Hiff.
      * symmetry in Hvalid. apply Nat.eqb_neq in Hvalid.
        repeat split; lia.
    + injection Hrun as <- <-.
      destruct (validateDocument_keeps _ _ _ _ _ _ Hdoc) as [Hext _].
      split; [exact (extends_app _ _ Hext) | discriminate].
Qed.

(** X14.  The validation pass forwards every document, valid or not: there
    are as many documents to import as were read; the store has only
    grown; and validation errors were counted exactly when some document
    was counted as invalid. *)
Theorem validate_documents_forwards_all options schema documents
    (h : heap) t h' :
  validate_documents options schema documents no_totals h = (Ok t, h') →
  length (validDocuments t) = length documents
  ∧ grows_from h h'
  ∧ invalidCount t ≤ length documents
  ∧ (invalidCount t = 0 ↔ totalValidationErrors t = 0).
Proof.
  intros Hrun.
  destruct (validate_documents_from _ _ _ _ _ _ _ Hrun) as [Hgrows Htotals].
  destruct (Htotals t eq_refl) as (Hlen & _ & Hhigh & _ & Hiff).
  simpl in *. repeat split; try done; apply Hiff.
Qed.

End ImportDataProperties.

Section ImportCollectionDataProperties.
Import JS Importer ImportData Spec Terms.
Context `{Runtime} (resolves : list request → request → bool).

(** The validation part of importCollectionData asks nothing of the
    collection and hands on as many documents as it was given. *)
Lemma importCollectionData_validation options schema documents (w : world) r w' :
  (if validateData options
   then in_store (validate_documents options schema documents no_totals)
   else ret {| validDocuments := documents; invalidCount := 0; totalTypeCasts := 0;
               totalValidationErrors := 0; totalValidationWarnings := 0 |}) w = (r, w') →
  requests w' = requests w
  ∧ grows_from (store_of w) (store_of w')
  ∧ ∀ t, r = Ok t →
      length (validDocuments t) = length documents
      ∧ (validateData options = false → validDocuments t = documents).
Proof.
  destruct (validateData options); unfold in_store, ret.
  - destruct (validate_documents options schema documents no_totals (store_of w))
      as [r1 h1] eqn:Hpass.
    intros [= <- <-]. simpl.
    destruct (validate_documents_from _ _ _ _ _ _ _ Hpass) as [Hgrows Htotals].
    split; [done |]. split; [done |].
    intros t1 ->. destruct (Htotals t1 eq_refl) as (Hlen & _). by split.
  - intros [= <- <-]. split; [done |]. split; [apply grows_from_refl |].
    by intros t1 [= <-].
Qed.

(** The loop over the batches, run against the collection. *)
Lemma import_batches_runs (validDocuments : list val) batchSize (w : world) r w' :
  import_batches resolves validDocuments batchSize w = (r, w') →
  store_of w' = store_of w
  ∧ ∃ answer, r = Ok answer
    ∧ (0 < batchSize → is_Some answer)
    ∧ ∀ importedCount, answer = Some importedCount →
        importedCount ≤ length validDocuments
        ∧ ∃ outcomes,
            requests w' = requests w ++ map insert (batches_operations outcomes)
            ∧ concat (map snd outcomes) = validDocuments.
Proof.
  unfold import_batches.
  set (answers := λ submitted op,
                    resolves (requests w ++ map insert submitted) (insert op)).
  destruct (Nat.eq_dec batchSize 0) as [->|Hb].
  - destruct validDocuments as [|doc rest].
    + simpl. intros [= <- <-]. split; [done |]. eexists; split; [done |].
      split; [lia |]. intros n [= <-]. split; [simpl; lia |].
      exists []. simpl. by rewrite app_nil_r.
    + unfold importInBatches. rewrite import_loop_stuck by done.
      intros [= <- <-]. split; [done |]. eexists; split; [done |].
      split; [lia | discriminate].
  - destruct (import_loop_runs answers validDocuments batchSize ltac:(lia)
                (length validDocuments) 0
                {| submitted := []; importedCount := 0 |} ltac:(lia))
      as (s & outcomes & Hrun & Hsub & _ & Hcat & _ & _ & Hhigh & _).
    unfold importInBatches. rewrite Hrun. intros [= <- <-]. simpl.
    split; [done |]. eexists; split; [done |]. split; [by eexists |].
    intros n [= <-]. simpl in *. rewrite drop_0 in *. split; [lia |].
    exists outcomes. by rewrite Hsub.
Qed.

(** X15.  What a completed call of importCollectionData has done.  With a
    batch size of at least one the call returns.  It returns 0 exactly when
    it was given no document, and then it has asked nothing of the
    collection.  Otherwise it returns the summary, whose total is the
    number of documents given and whose imported count is not above it;
    the collection was asked to delete first, when clearing is on, and then
    for the batches of as many documents as were given. *)
Theorem importCollectionData_outcome options documents schema (w : world) answer w' :
  0 < batchSize options →
  importCollectionData resolves options documents schema w = (Ok answer, w') →
  ∃ outcome, answer = Some outcome
    ∧ ((documents = [] ∧ outcome = Zero ∧ requests w' = requests w)
       ∨ (documents ≠ []
          ∧ ∃ summary outcomes,
              outcome = Summary summary
              ∧ success summary = true
              ∧ total summary = length documents
              ∧ imported summary ≤ total summary
              ∧ requests w'
                = requests w
                  ++ (if clearCollections options then [deleteMany] else [])
                  ++ map insert (batches_operations outcomes)
              ∧ length (concat (map snd outcomes)) = length documents
              ∧ (validateData options = false
                 → concat (map snd outcomes) = documents))).
Proof.
  intros Hb. unfold importCollectionData. unfold bind at 1.
  match goal with |- context [(if validateData options then ?a else ?b) w] =>
    destruct ((if validateData options then a else b) w) as [r1 w1] eqn:Hfirst end.
  destruct (importCollectionData_validation _ _ _ _ _ _ Hfirst)
    as (Hreq1 & _ & Hpass).
  destruct r1 as [t|e]; [| discriminate].
  destruct (Hpass t eq_refl) as [Hlen Hsame].
  destruct (Nat.eqb_spec (length (validDocuments t)) 0) as [Hzero|Hsome].
  - intros [= <- <-]. exists Zero. split; [done |]. left.
    split; [| by split]. apply length_zero_iff_nil. lia.
  - unfold bind at 1.
    destruct (when (clearCollections options) (await_deleteMany resolves) w1)
      as [r2 w2] eqn:Hclear.
    assert (Hreq2 : r2 = Ok () →
              requests w2 = requests w
                            ++ (if clearCollections options then [deleteMany] else [])).
    { intros _. unfold when, await_deleteMany, ret in Hclear.
      destruct (clearCollections options); injection Hclear as <- <-; simpl;
        rewrite Hreq1; [done | by rewrite app_nil_r]. }
    destruct r2 as [[]|e]; [| discriminate].
    unfold bind.
    destruct (import_batches resolves (validDocuments t) (batchSize options) w2)
      as [r3 w3] eqn:Hbatches.
    destruct (import_batches_runs _ _ _ _ _ Hbatches)
      as (_ & n & -> & Hends & Hcount).
    destruct (Hends Hb) as [importedCount ->].
    destruct (Hcount importedCount eq_refl) as (Hle & outcomes & Hreq3 & Hcat).
    intros [= <- <-]. eexists; split; [done |]. right.
    split. { intros ->. simpl in Hlen. lia. }
    eexists _, outcomes. split; [done |]. simpl.
    repeat split; try lia.
    + by rewrite Hreq3, Hreq2, <- app_assoc.
    + by rewrite Hcat.
    + intros Hoff. by rewrite Hcat, Hsame.
Qed.

(** X16.  A call of importCollectionData that throws has inserted nothing:
    either validation threw, before anything was asked of the collection,
    or the collection rejected the request to delete, which was then the
    only request. *)
Theorem importCollectionData_throw_inserts_nothing options documents schema
    (w : world) e w' :
  importCollectionData resolves options documents schema w = (Throw e, w') →
  requests w' = requests w
  ∨ (clearCollections options = true
     ∧ resolves (requests w) deleteMany = false
     ∧ requests w' = requests w ++ [deleteMany]).
Proof.
  unfold importCollectionData. unfold bind at 1.
  match goal with |- context [(if validateData options then ?a else ?b) w] =>
    destruct ((if validateData options then a else b) w) as [r1 w1] eqn:Hfirst end.
  destruct (importCollectionData_validation _ _ _ _ _ _ Hfirst)
    as (Hreq1 & _ & _).
  destruct r1 as [t|e1]; [| intros [= <- <-]; by left].
  destruct (length (validDocuments t) =? 0); [discriminate |].
  unfold bind at 1. unfold when, await_deleteMany.
  destruct (clearCollections options).
  - rewrite Hreq1.
    destruct (resolves (requests w) deleteMany).
    + unfold bind.
      match goal with |- context [import_batches resolves ?d ?b ?w2] =>
        destruct (import_batches resolves d b w2) as [r3 w3] eqn:Hbatches end.
      destruct (import_batches_runs _ _ _ _ _ Hbatches) as (_ & n & -> & _).
      by destruct n.
    + intros [= <- <-]. by right.
  - unfold ret at 1. unfold bind.
    destruct (import_batches resolves (validDocuments t) (batchSize options) w1)
      as [r3 w3] eqn:Hbatches.
    destruct (import_batches_runs _ _ _ _ _ Hbatches) as (_ & n & -> & _).
    by destruct n.
Qed.

End ImportCollectionDataProperties.

Section CastingProperties.
Import JS Importer Spec Terms.
Context `{Runtime}.

Lemma cell_at_alloc (h : heap) c : cell_at (h ++ [c]) (length h) = c.
Proof.
  unfold cell_at. rewrite lookup_app_r by lia. by rewrite Nat.sub_diag.
Qed.

Lemma alloc_value_runs (t : value) (h : heap) :
  ∃ v h', alloc_value t h = (Ok v, h') ∧ grows_from h h'.
Proof.
  destruct (returns_alloc_value t h) as (v & h' & Hrun).
  exists v, h'. split; [done |].
  destruct (keeps_grows_alloc_value h t h (grows_from_refl h)) as [Hgrows _].
  by rewrite Hrun in Hgrows.
Qed.

Lemma alloc_runs c (h : heap) :
  alloc c h = (Ok (VRef (length h)), h ++ [c]) ∧ grows_from h (h ++ [c]).
Proof. split; [done | by exists [c]]. Qed.

Lemma castToArray_runs value (h : heap) :
  ∃ v h', castToArray value h = (Ok v, h')
          ∧ Array_isArray h' v = true
          ∧ grows_from h h'
          ∧ (Array_isArray h value = true → v = value ∧ h' = h).
Proof.
  unfold castToArray, bind, reading.
  destruct (Array_isArray h value) eqn:Harray.
  { exists value, h. split_and!; try done; apply grows_from_refl. }
  assert (Hwrap : ∀ h1, grows_from h h1 →
            ∃ v h', alloc (CArr [value]) h1 = (Ok v, h')
                    ∧ Array_isArray h' v = true ∧ grows_from h h'
                    ∧ (false = true → v = value ∧ h' = h)).
  { intros h1 Hgrows. eexists _, _. split; [reflexivity |].
    split; [simpl; by rewrite cell_at_alloc |].
    split; [| done]. destruct Hgrows as [added ->]. exists (added ++ [CArr [value]]).
    by rewrite app_assoc. }
  destruct value as [| |b|n|s|l]; try (apply Hwrap, grows_from_refl).
  destruct (JSON_parse s) as [t|]; [| apply Hwrap, grows_from_refl].
  destruct (alloc_value_runs t h) as (parsed & h1 & -> & Hgrows).
  destruct (Array_isArray h1 parsed) eqn:Hparsed.
  - exists parsed, h1. split_and!; done.
  - by apply Hwrap.
Qed.

(** X5.  castToArray never throws and leaves the store as it was, cells
    added apart; what it returns is an array, and the value itself when
    that was one. *)
Theorem castToArray_gives_array value (h : heap) :
  ∃ v h', castToArray value h = (Ok v, h')
          ∧ Array_isArray h' v = true
          ∧ grows_from h h'
          ∧ (Array_isArray h value = true → v = value ∧ h' = h).
Proof. exact (castToArray_runs value h). Qed.

Lemma castToObject_runs value (h : heap) :
  ∃ v h', castToObject value h = (Ok v, h')
          ∧ typeof v = "object" ∧ is_null v = false ∧ Array_isArray h' v = false
          ∧ grows_from h h'
          ∧ (typeof value = "object" → is_null value = false →
             Array_isArray h value = false → v = value ∧ h' = h).
Proof.
  unfold castToObject, bind, reading.
  destruct (String.eqb (typeof value) "object" && negb (is_null value)
            && negb (Array_isArray h value)) eqn:Hobject.
  { exists value, h.
    apply andb_prop in Hobject as [Hobject Harray].
    apply andb_prop in Hobject as [Htype Hnull].
    apply String.eqb_eq in Htype. apply negb_true_iff in Hnull, Harray.
    split_and!; try done; apply grows_from_refl. }
  assert (Hwrap : ∀ h1, grows_from h h1 →
            ∃ v h', alloc (CObj [("value", value)]) h1 = (Ok v, h')
                    ∧ typeof v = "object" ∧ is_null v = false
                    ∧ Array_isArray h' v = false ∧ grows_from h h'
                    ∧ (typeof value = "object" → is_null value = false →
                       Array_isArray h value = false → v = value ∧ h' = h)).
  { intros h1 Hgrows. eexists _, _. split; [reflexivity |].
    split; [done |]. split; [done |].
    split; [simpl; by rewrite cell_at_alloc |].
    split. { destruct Hgrows as [added ->]. exists (added ++ [CObj [("value", value)]]).
             by rewrite app_assoc. }
    intros Htype Hnull Harray. rewrite Htype, Hnull, Harray in Hobject. discriminate. }
  destruct value as [| |b|n|s|l]; try (apply Hwrap, grows_from_refl).
  destruct (JSON_parse s) as [t|]; [| apply Hwrap, grows_from_refl].
  destruct (alloc_value_runs t h) as (parsed & h1 & -> & Hgrows).
  destruct (String.eqb (typeof parsed) "object" && negb (is_null parsed)
            && negb (Array_isArray h1 parsed)) eqn:Hparsed.
  - exists parsed, h1.
    apply andb_prop in Hparsed as [Hparsed Harray].
    apply andb_prop in Hparsed as [Htype Hnull].
    apply String.eqb_eq in Htype. apply negb_true_iff in Hnull, Harray.
    split_and!; done.
  - by apply Hwrap.
Qed.

(** X6.  castToObject never throws and leaves the store as it was, cells
    added apart; what it returns is an object that is neither null nor an
    array, and the value itself when that was one. *)
Theorem castToObject_gives_object value (h : heap) :
  ∃ v h', castToObject value h = (Ok v, h')
          ∧ typeof v = "object" ∧ is_null v = false ∧ Array_isArray h' v = false
          ∧ grows_from h h'
          ∧ (typeof value = "object" → is_null value = false →
             Array_isArray h value = false → v = value ∧ h' = h).
Proof. exact (castToObject_runs value h). Qed.

Lemma castToType_runs value targetType fieldPath (h : heap) :
  ∃ v h', castToType value targetType fieldPath h = (Ok v, h')
          ∧ grows_from h h'
          ∧ (is_null value || is_undefined value = true → v = value ∧ h' = h)
          ∧ (getValueType h value = Ok targetType → v = value ∧ h' = h).
Proof.
  unfold castToType.
  destruct (is_null value || is_undefined value) eqn:Hnull.
  { exists value, h. split_and!; try done; apply grows_from_refl. }
  unfold bind, reading.
  destruct (import_getValueType_total h value) as (currentType & -> & _).
  destruct (String.eqb_spec currentType targetType) as [->|Hne].
  { exists value, h. split_and!; try done; apply grows_from_refl. }
  unfold try_catch.
  destruct (cast_switch targetType value h) as [[v|e] h1] eqn:Hcast;
    pose proof (cast_switch_grows _ _ _ _ _ Hcast) as Hgrows.
  - exists v, h1. split_and!; try done; intros [= ->]; done.
  - exists value, h1. split_and!; try done; intros [= ->]; done.
Qed.

(** X3.  castToType never throws, whatever the value and the target type,
    and leaves the store as it was, cells added apart; a value that is
    null, undefined or already of the target type comes back as it is,
    with the store as it was. *)
Theorem castToType_never_throws value targetType fieldPath (h : heap) :
  ∃ v h', castToType value targetType fieldPath h = (Ok v, h')
          ∧ grows_from h h'
          ∧ (getValueType h value = Ok targetType → v = value ∧ h' = h).
Proof.
  destruct (castToType_runs value targetType fieldPath h)
    as (v & h' & Hrun & Hgrows & _ & Hsame).
  by exists v, h'.
Qed.

End CastingProperties.

Section CastResults.
Import JS Importer Spec Terms.
Context `{Runtime}.

Lemma getValueType_primitive (h : heap) v :
  match v with VRef _ => False | _ => True end →
  getValueType h v
  = Ok (match v with
        | VNull => "null" | VUndefined => "undefined" | VBool _ => "boolean"
        | VNum _ => "number" | VStr _ => "string" | VRef _ => ""
        end).
Proof. by destruct v. Qed.

Lemma getValueType_date (h : heap) v :
  instanceof_Date h v = true → getValueType h v = Ok "date".
Proof.
  destruct v as [| | | | |l]; try discriminate. unfold getValueType. simpl.
  by destruct (cell_at h l).
Qed.

Lemma getValueType_array (h : heap) v :
  Array_isArray h v = true → getValueType h v = Ok "array".
Proof.
  destruct v as [| | | | |l]; try discriminate. unfold getValueType. simpl.
  by destruct (cell_at h l).
Qed.

Lemma getValueType_objectId (h : heap) v :
  has_ObjectId_constructor h v = Ok true → getValueType h v = Ok "objectId".
Proof.
  destruct v as [| | | | |l]; try discriminate.
  unfold getValueType, has_ObjectId_constructor. simpl.
  destruct (cell_at h l) as [t|hex|items|fields]; try discriminate; try done.
  by intros ->.
Qed.

(** The JSON text of an object is never undefined. *)
Lemma JSON_text_reference fuel (h : heap) l t :
  reify fuel h (VRef l) = Some t → is_Some (JSON_text t).
Proof.
  destruct fuel as [|fuel]; [discriminate |]. simpl.
  destruct (cell_at h l) as [[z|]|hex|items|fields].
  - by intros [= <-].
  - by intros [= <-].
  - by intros [= <-].
  - destruct ((fix go (xs : list val) := _) items); [| discriminate].
    by intros [= <-].
  - destruct ((fix go (fs : list (string * val)) := _) fields); [| discriminate].
    by intros [= <-].
Qed.

Lemma castToString_result value (h : heap) v h' :
  is_null value || is_undefined value = false →
  castToString value h = (Ok v, h') → getValueType h' v = Ok "string".
Proof.
  intros Hnull. unfold castToString.
  destruct value as [| |b|n|s|l]; try discriminate;
    try (simpl; by intros [= <- <-]).
  change (String.eqb (typeof (VRef l)) "string") with false.
  change (String.eqb (typeof (VRef l)) "number") with false.
  change (String.eqb (typeof (VRef l)) "boolean") with false.
  change (String.eqb (typeof (VRef l)) "object") with true.
  cbv iota. cbn [orb]. cbv iota.
  unfold bind, reading.
  destruct (instanceof_Date h (VRef l)).
  { match goal with |- context [toISOString ?t] => destruct (toISOString t) end;
      [| discriminate].
    by intros [= <- <-]. }
  destruct (has_ObjectId_constructor h (VRef l)) as [[]|]; [| | discriminate].
  { destruct (call_toString h (VRef l)); [| discriminate]. by intros [= <- <-]. }
  unfold JSON_stringify, reading, tree_of.
  destruct (reify (S (length h)) h (VRef l)) as [t|] eqn:Htree; [| discriminate].
  cbn [rbind]. destruct (JSON_text_reference _ _ _ _ Htree) as [text ->]. simpl.
  by intros [= <- <-].
Qed.

Lemma castToNumber_result value (h : heap) v h' :
  castToNumber value h = (Ok v, h') → getValueType h' v = Ok "number".
Proof.
  unfold castToNumber.
  assert (Hother : (let! isDate := reading (λ h, Ok (instanceof_Date h value)) in
                    if isDate then
                      let! t := reading (λ h, Ok (time_value h value)) in
                      ret (VNum (getTime t))
                    else throw ("Cannot convert " +:+ typeof value +:+ " to number")) h
                   = (Ok v, h') → getValueType h' v = Ok "number").
  { unfold bind, reading. destruct (instanceof_Date h value); [| discriminate].
    by intros [= <- <-]. }
  destruct value as [| |b|n|s|l]; try exact Hother.
  - by intros [= <- <-].
  - by intros [= <- <-].
  - destruct (PrimFloat.is_nan (StringToNumber s)); [discriminate |].
    by intros [= <- <-].
Qed.

Lemma castToBoolean_result value (h : heap) v h' :
  castToBoolean value h = (Ok v, h') → getValueType h' v = Ok "boolean".
Proof.
  unfold castToBoolean. destruct value as [| |b|n|s|l]; try discriminate;
    try (by intros [= <- <-]).
  repeat match goal with |- context [if ?b then _ else _] => destruct b end;
    try discriminate; by intros [= <- <-].
Qed.

Lemma new_Date_checked_result t message (h : heap) v h' :
  new_Date_checked t message h = (Ok v, h') → getValueType h' v = Ok "date".
Proof.
  unfold new_Date_checked, bind, alloc.
  destruct (time_is_NaN t); [discriminate |]. intros [= <- <-].
  apply getValueType_date. simpl. by rewrite cell_at_alloc.
Qed.

Lemma castToDate_result value (h : heap) v h' :
  castToDate value h = (Ok v, h') → getValueType h' v = Ok "date".
Proof.
  unfold castToDate, bind, reading.
  destruct (instanceof_Date h value) eqn:Hdate.
  { intros [= <- <-]. by apply getValueType_date. }
  destruct value as [| |b|n|s|l]; try discriminate; apply new_Date_checked_result.
Qed.

Lemma castToObjectId_result value (h : heap) v h' :
  castToObjectId value h = (Ok v, h') → getValueType h' v = Ok "objectId".
Proof.
  unfold castToObjectId, bind, reading.
  destruct (has_ObjectId_constructor h value) as [[]|] eqn:Hoid; [| | discriminate].
  { intros [= <- <-]. by apply getValueType_objectId. }
  destruct value as [| |b|n|s|l]; try discriminate.
  destruct (ObjectId_isValid s); [| discriminate].
  unfold alloc. intros [= <- <-]. apply getValueType_objectId.
  unfold has_ObjectId_constructor. simpl. by rewrite cell_at_alloc.
Qed.

(** X4.  A cast that succeeds gives a value of the type asked for, for each
    of the target types string, number, boolean, date, objectId and array.
    (To object it gives an object that is neither null nor an array, which
    a date or an identifier is as well.) *)
Theorem cast_switch_result_type targetType value (h : heap) v h' :
  targetType ∈ ["string"; "number"; "boolean"; "date"; "objectId"; "array"] →
  is_null value || is_undefined value = false →
  cast_switch targetType value h = (Ok v, h') →
  getValueType h' v = Ok targetType.
Proof.
  intros Htarget Hnull.
  repeat (apply elem_of_cons in Htarget as [->|Htarget]);
    [| | | | | | by apply elem_of_nil in Htarget]; unfold cast_switch; simpl.
  - by apply castToString_result.
  - apply castToNumber_result.
  - apply castToBoolean_result.
  - apply castToDate_result.
  - apply castToObjectId_result.
  - intros Hrun. destruct (castToArray_runs value h) as (v0 & h0 & Hrun0 & Harray & _).
    rewrite Hrun0 in Hrun. injection Hrun as <- <-. by apply getValueType_array.
Qed.

End CastResults.

Section ValidationSteps.
Import JS Importer Spec Terms.
Context `{Runtime}.

(** *** The relation between the states of a run *)

Lemma same_shape_refl c : same_shape c c.
Proof. by destruct c. Qed.

Lemma same_shape_trans c1 c2 c3 :
  same_shape c1 c2 → same_shape c2 c3 → same_shape c1 c3.
Proof.
  destruct c1, c2; simpl; try discriminate; try (by intros ->);
    destruct c3; simpl; try discriminate; congruence.
Qed.

Lemma shape_kept_refl (h : heap) : shape_kept h h.
Proof. split; [done |]. intros l _. apply same_shape_refl. Qed.

Lemma shape_kept_trans (h1 h2 h3 : heap) :
  shape_kept h1 h2 → shape_kept h2 h3 → shape_kept h1 h3.
Proof.
  intros [Hlen1 H1] [Hlen2 H2]. split; [lia |].
  intros l Hl. eapply same_shape_trans; [by apply H1 | apply H2; lia].
Qed.

Lemma grows_shape_kept (h h' : heap) : grows_from h h' → shape_kept h h'.
Proof.
  intros [added ->]. split; [rewrite length_app; lia |].
  intros l Hl. rewrite cell_at_app by done. apply same_shape_refl.
Qed.

Lemma advances_refl options s : advances options s s.
Proof.
  split; [apply shape_kept_refl |].
  split; [exists []; by rewrite app_nil_r |].
  split; [exists []; by rewrite app_nil_r | done].
Qed.

Lemma advances_trans options s1 s2 s3 :
  advances options s1 s2 → advances options s2 s3 → advances options s1 s3.
Proof.
  intros (Hs1 & (e1 & He1 & Hm1) & (w1 & Hw1 & Hx1) & Hc1)
         (Hs2 & (e2 & He2 & Hm2) & (w2 & Hw2 & Hx2) & Hc2).
  split; [by eapply shape_kept_trans |].
  split. { exists (e1 ++ e2). rewrite He2, He1, <- app_assoc.
           split; [done | by apply Forall_app]. }
  split. { exists (w1 ++ w2). rewrite Hw2, Hw1, <- app_assoc.
           split; [done | by apply Forall_app]. }
  lia.
Qed.

(** *** Rules *)

Lemma steps_ret options {A} (a : A) : steps (advances options) (ret a).
Proof. intros s. apply advances_refl. Qed.

Lemma steps_bind options {A B} (m : V A) (k : A → V B) :
  steps (advances options) m → (∀ a, steps (advances options) (k a)) →
  steps (advances options) (bind m k).
Proof.
  intros Hm Hk s. unfold bind. specialize (Hm s).
  destruct (m s) as [[a|e] s1]; simpl in *; [| done].
  eapply advances_trans; [exact Hm | apply Hk].
Qed.

Lemma steps_try_returns options {A} (m : V A) handler :
  returns m → steps (advances options) m →
  steps (advances options) (try_catch m handler).
Proof.
  intros Hreturns Hm s. unfold try_catch. specialize (Hm s).
  destruct (Hreturns s) as (a & s1 & Hrun). by rewrite Hrun in *.
Qed.

Lemma steps_on_heap options {A} (m : M heap A) :
  (∀ h, shape_kept h (m h).2) → steps (advances options) (on_heap m).
Proof.
  intros Hm s. unfold on_heap. specialize (Hm (objects s)).
  destruct (m (objects s)) as [r h']. simpl in *.
  split; [done |].
  split; [exists []; by rewrite app_nil_r |].
  split; [exists []; by rewrite app_nil_r | done].
Qed.

Lemma steps_on_heap_reading options {A} (f : heap → result A) :
  steps (advances options) (on_heap (reading f)).
Proof. apply steps_on_heap. intros h. apply shape_kept_refl. Qed.

Lemma steps_when options b (m : V unit) :
  steps (advances options) m → steps (advances options) (when b m).
Proof. intros Hm. destruct b; [done | apply steps_ret]. Qed.

Lemma steps_push_error options fieldPath :
  steps (advances options) (push_error (missing_message fieldPath)).
Proof.
  intros s. split; [apply shape_kept_refl |].
  split. { eexists. split; [reflexivity |]. constructor; [by eexists | done]. }
  split; [exists []; by rewrite app_nil_r | done].
Qed.

Lemma steps_push_mismatch options fieldPath finalType expectedType :
  steps (advances options)
        (push_warning (mismatch_message options fieldPath finalType expectedType)).
Proof.
  intros s. split; [apply shape_kept_refl |].
  split; [exists []; by rewrite app_nil_r |].
  split; [| done].
  eexists. split; [reflexivity |]. constructor; [by eexists _, _, _ | done].
Qed.

Lemma steps_count_cast options : steps (advances options) count_cast.
Proof.
  intros s. split; [apply shape_kept_refl |].
  split; [exists []; by rewrite app_nil_r |].
  split; [exists []; by rewrite app_nil_r | simpl; lia].
Qed.

Lemma steps_mapM_indexed options {A B} (f : nat → A → V B) xs :
  (∀ i x, steps (advances options) (f i x)) →
  ∀ i, steps (advances options) (mapM_indexed f i xs).
Proof.
  intros Hf. induction xs as [|x rest IH]; intros i; simpl.
  - apply steps_ret.
  - apply steps_bind; [apply Hf |]. intros y.
    apply steps_bind; [apply IH |]. intros ys. apply steps_ret.
Qed.

(** *** The cast inside the try never throws *)

Lemma returns_on_heap {A} (m : M heap A) : returns m → returns (on_heap m).
Proof.
  intros Hm s. unfold on_heap. destruct (Hm (objects s)) as (a & h' & ->).
  by eexists _, _.
Qed.

Lemma returns_castToType value targetType fieldPath :
  returns (castToType value targetType fieldPath).
Proof.
  intros h. destruct (castToType_runs value targetType fieldPath h)
    as (v & h' & Hrun & _). by exists v, h'.
Qed.

Lemma castToType_shape_kept value targetType fieldPath (h : heap) :
  shape_kept h (castToType value targetType fieldPath h).2.
Proof.
  destruct (castToType_runs value targetType fieldPath h)
    as (v & h' & -> & Hgrows & _). by apply grows_shape_kept.
Qed.

(** *** Assignment to a property that is there *)

Lemma has_own_keys {A B} key (fields : list (string * A)) (fields' : list (string * B)) :
  map fst fields = map fst fields' → has_own key fields = has_own key fields'.
Proof.
  revert fields'. induction fields as [|[k v] rest IH]; intros [|[k' v'] rest'];
    simpl; try discriminate; [done |].
  intros [= <- Hrest]. unfold has_own in *. simpl.
  destruct (String.eqb k key); [done | by apply IH].
Qed.

Lemma has_own_in_store key (h : heap) obj :
  has_own key (own_fields h obj) = true →
  ∃ l fields, obj = VRef l ∧ l < length h ∧ cell_at h l = CObj fields
              ∧ has_own key fields = true.
Proof.
  destruct obj as [| | | | |l]; try discriminate. simpl.
  destruct (cell_at h l) as [t|hex|items|fields] eqn:Hcell; try discriminate.
  intros Hkey. exists l, fields. split; [done |]. split; [| done].
  destruct (Nat.lt_ge_cases l (length h)) as [Hl|Hl]; [done |].
  unfold cell_at in Hcell. rewrite lookup_ge_None_2 in Hcell by done.
  simpl in Hcell. injection Hcell as <-. discriminate.
Qed.

Lemma set_property_present (h h1 : heap) obj key v :
  has_own key (own_fields h obj) = true → shape_kept h h1 →
  shape_kept h1 (set_property obj key v h1).2.
Proof.
  intros Hkey [Hlen Hkept].
  destruct (has_own_in_store _ _ _ Hkey) as (l & fields & -> & Hl & Hcell & Hown).
  specialize (Hkept l Hl). rewrite Hcell in Hkept.
  unfold set_property, bind, reading, store.
  destruct (cell_at h1 l) as [t|hex|items|fields1] eqn:Hcell1; try done.
  simpl in *. split; [by rewrite length_insert |].
  intros l' Hl'. unfold cell_at at 2.
  destruct (Nat.eq_dec l' l) as [->|Hne].
  - rewrite list_lookup_insert_eq by lia. simpl. rewrite Hcell1. simpl.
    unfold set_own. rewrite <- (has_own_keys key fields fields1 Hkept), Hown.
    by rewrite keys_replace_own.
  - rewrite list_lookup_insert_ne by done. apply same_shape_refl.
Qed.

Lemma on_heap_advances options {A} (m : M heap A) s :
  shape_kept (objects s) (m (objects s)).2 → advances options s (on_heap m s).2.
Proof.
  intros Hm. unfold on_heap. destruct (m (objects s)) as [r h']. simpl in *.
  split; [done |].
  split; [exists []; by rewrite app_nil_r |].
  split; [exists []; by rewrite app_nil_r | done].
Qed.

(** One turn of a loop over the fields of an object: the property is
    assigned only after it was found to be there. *)
Lemma steps_assign options {A} obj key (validate : val → V (val * bool))
    (present_rest : val * bool → V A) (absent_rest : V A) :
  (∀ v, steps (advances options) (validate v)) →
  (∀ r, steps (advances options) (present_rest r)) →
  steps (advances options) absent_rest →
  steps (advances options)
    (let! present := on_heap (call_hasOwnProperty obj key) in
     if present then
       let! old := on_heap (get_property obj key) in
       let! nestedResult := validate old in
       on_heap (set_property obj key nestedResult.1) ;;
       present_rest nestedResult
     else absent_rest).
Proof.
  intros Hvalidate Hpresent_rest Habsent_rest s. unfold bind at 1.
  destruct (on_heap (call_hasOwnProperty obj key) s) as [r0 s0] eqn:Hcall.
  assert (Hs0 : s0 = s ∧ ∀ present, r0 = Ok present →
                  has_own key (own_fields (objects s) obj) = present).
  { unfold on_heap, call_hasOwnProperty, reading in Hcall.
    destruct s as [h errs warns count]. simpl in *.
    destruct obj; try (injection Hcall as <- <-; split; [done | discriminate]);
      destruct (has_own "hasOwnProperty" _);
      injection Hcall as <- <-; (split; [done |]); (discriminate || by intros ? [= <-]). }
  destruct Hs0 as [-> Hpresent]. simpl.
  destruct r0 as [present|e]; [| apply advances_refl].
  specialize (Hpresent present eq_refl).
  destruct present; [| apply Habsent_rest].
  unfold bind at 1.
  assert (Hget : ∃ old, on_heap (get_property obj key) s = (Ok old, s)).
  { unfold on_heap, get_property, reading. destruct s. simpl. by eexists. }
  destruct Hget as [old ->].
  unfold bind at 1. pose proof (Hvalidate old s) as Hstep1.
  destruct (validate old s) as [[nestedResult|e] s1]; simpl in *; [| done].
  eapply advances_trans; [exact Hstep1 |].
  unfold bind.
  pose proof (on_heap_advances options (set_property obj key nestedResult.1) s1
                (set_property_present _ _ _ _ _ Hpresent (proj1 Hstep1))) as Hstep2.
  destruct (on_heap (set_property obj key nestedResult.1) s1) as [[[]|e] s2];
    simpl in *; [| done].
  eapply advances_trans; [exact Hstep2 | apply Hpresent_rest].
Qed.

(** *** validateField *)

Lemma steps_validateField_body options validateNested validateElement
    value fieldSchema fieldPath :
  (∀ nested, nestedFields fieldSchema = Some nested →
     Forall (λ entry, ∀ v path,
               steps (advances options) (validateNested v entry.2 path)) nested) →
  (∀ v elementType path, steps (advances options) (validateElement v elementType path)) →
  steps (advances options)
        (validateField_body options validateNested validateElement
                            value fieldSchema fieldPath).
Proof.
  intros Hnested Helement. unfold validateField_body.
  destruct (is_null value || is_undefined value).
  { apply steps_bind; [apply steps_when, steps_push_error |].
    intros _. apply steps_ret. }
  apply steps_bind; [apply steps_on_heap_reading |].
  intros currentType. cbv zeta.
  apply steps_bind.
  { destruct (typeCasting options && negb (String.eqb currentType (type fieldSchema)));
      [| apply steps_ret].
    apply steps_try_returns.
    - apply returns_bind; [apply returns_on_heap, returns_castToType |].
      intros finalValue. destruct (strict_ne finalValue value).
      + apply returns_bind; [| intros _; apply returns_ret].
        intros s. by eexists _, _.
      + apply returns_ret.
    - apply steps_bind; [apply steps_on_heap, castToType_shape_kept |].
      intros finalValue. destruct (strict_ne finalValue value).
      + apply steps_bind; [apply steps_count_cast |]. intros _. apply steps_ret.
      + apply steps_ret. }
  intros [finalValue castingPerformed].
  apply steps_bind; [apply steps_on_heap_reading |].
  intros finalType.
  apply steps_bind; [apply steps_when, steps_push_mismatch |]. intros _.
  apply steps_bind.
  { destruct (nestedFields fieldSchema) as [nested|]; [| apply steps_ret].
    destruct (String.eqb finalType "object"); [| apply steps_ret].
    specialize (Hnested nested eq_refl). generalize castingPerformed.
    induction Hnested as [|[nestedField nestedSchema] rest Hentry _ IH];
      intros performed; [apply steps_ret |].
    apply (steps_assign options finalValue nestedField
             (λ old, validateNested old nestedSchema (fieldPath +:+ "." +:+ nestedField))
             (λ nestedResult, _ (performed || nestedResult.2)) (_ performed)).
    - intros v. apply Hentry.
    - intros r. apply IH.
    - apply IH. }
  intros performed.
  apply steps_bind; [apply steps_on_heap_reading |].
  intros isArray.
  destruct (arrayElementType fieldSchema) as [elementType|]; [| apply steps_ret].
  destruct (String.eqb finalType "array" && isArray && negb (String.eqb elementType ""));
    [| apply steps_ret].
  apply steps_bind; [apply steps_on_heap_reading |].
  intros items.
  apply steps_bind; [apply steps_mapM_indexed; intros; apply Helement |].
  intros results.
  apply steps_bind; [| intros mapped; apply steps_ret].
  apply steps_on_heap. intros h. apply grows_shape_kept. by eexists.
Qed.

Lemma steps_validateElement options item elementType fieldPath :
  steps (advances options) (validateElement options item elementType fieldPath).
Proof.
  unfold validateElement. apply steps_validateField_body.
  - intros nested [=].
  - intros. apply steps_ret.
Qed.

Lemma steps_validateField options fieldSchema :
  ∀ value fieldPath,
    steps (advances options) (validateField options value fieldSchema fieldPath).
Proof.
  induction fieldSchema as [fieldSchema IH] using FieldSchema_nested_ind.
  intros value fieldPath.
  destruct fieldSchema as [ty rq nc nf ae]. simpl.
  apply (steps_validateField_body options
           (λ v s p, validateField options v s p) (validateElement options)
           value (mkFieldSchema ty rq nc nf ae) fieldPath).
  - intros nested Hnf. eapply Forall_impl; [exact (IH nested Hnf) |].
    intros entry Hentry v path. apply Hentry.
  - intros. apply steps_validateElement.
Qed.

Lemma steps_ext {St A} (R : St → St → Prop) (m m' : M St A) :
  (∀ s, m s = m' s) → steps R m → steps R m'.
Proof. intros Heq Hm s. rewrite <- Heq. apply Hm. Qed.

Lemma steps_validate_fields options validatedDoc entries :
  steps (advances options) (validate_fields options validatedDoc entries).
Proof.
  induction entries as [|[fieldName fieldSchema] rest IH]; simpl.
  { apply steps_ret. }
  eapply steps_ext;
    [| exact (steps_assign options validatedDoc fieldName
                (λ old, validateField options old fieldSchema fieldName)
                (λ _, validate_fields options validatedDoc rest)
                (when (required_without_nulls fieldSchema)
                      (push_error (missing_message fieldName)) ;;
                 validate_fields options validatedDoc rest)
                (λ v, steps_validateField options fieldSchema v fieldName)
                (λ _, IH)
                (steps_bind _ _ _ (steps_when _ _ _ (steps_push_error _ _))
                            (λ _, IH)))].
  intros s. unfold bind.
  destruct (on_heap (call_hasOwnProperty validatedDoc fieldName) s) as [[[]|] s0];
    [| reflexivity | reflexivity].
  destruct (on_heap (get_property validatedDoc fieldName) s0) as [[old|] s1];
    [| reflexivity].
  destruct (validateField options old fieldSchema fieldName s1) as [[result|] s2];
    reflexivity.
Qed.

(** *** validateDocument: the copy, then the loop over the schema *)

Lemma validateDocument_run options doc schema (h : heap) report h' :
  validateDocument options doc schema h = (Ok report, h') →
  ∃ copy h1 s',
    deep_copy doc h = (Ok copy, h1)
    ∧ validate_fields options copy (fields schema)
        {| objects := h1; errors := []; warnings := []; typeCastingCount := 0 |}
      = (Ok (), s')
    ∧ report = {| isValid := length (errors s') =? 0;
                  document := copy;
                  report_errors := errors s';
                  report_warnings := warnings s';
                  report_typeCastingCount := typeCastingCount s' |}
    ∧ h' = objects s'.
Proof.
  unfold validateDocument. unfold bind at 1. unfold on_heap at 1. simpl.
  destruct (deep_copy doc h) as [[copy|e] h1] eqn:Hcopy; [| discriminate].
  unfold bind at 1.
  destruct (validate_fields options copy (fields schema) _) as [[[]|e] s'] eqn:Hloop;
    [| discriminate].
  unfold ret. intros [= <- <-]. by exists copy, h1, s'.
Qed.

Lemma alloc_value_within (t : value) (h : heap) v h' :
  alloc_value t h = (Ok v, h') → val_within h' v.
Proof.
  destruct t as [| |b|n|s|t|hex|items|fields]; simpl;
    try (by intros [= <- <-]);
    try (unfold alloc; intros [= <- <-]; simpl; rewrite length_app; simpl; lia).
  - unfold bind. destruct (mapM alloc_value items h) as [[vs|e] h1]; [| discriminate].
    unfold alloc. intros [= <- <-]. simpl. rewrite length_app. simpl. lia.
  - unfold bind.
    destruct (mapM _ fields h) as [[fs|e] h1]; [| discriminate].
    unfold alloc. intros [= <- <-]. simpl. rewrite length_app. simpl. lia.
Qed.

Lemma deep_copy_within doc (h : heap) copy h1 :
  deep_copy doc h = (Ok copy, h1) → val_within h1 copy.
Proof.
  unfold deep_copy, bind, reading.
  destruct (tree_of h doc) as [t|e]; [| discriminate].
  destruct (JSON_roundtrip t) as [t'|]; [| discriminate].
  apply alloc_value_within.
Qed.

Lemma shape_kept_own_keys (h h' : heap) v :
  shape_kept h h' → val_within h v →
  map fst (own_fields h' v) = map fst (own_fields h v).
Proof.
  intros [_ Hkept] Hv. destruct v as [| | | | |l]; try done. simpl in *.
  specialize (Hkept l Hv).
  destruct (cell_at h l) as [t|hex|items|fields]; simpl in Hkept;
    try (by rewrite <- Hkept).
  by destruct (cell_at h' l).
Qed.

(** X10.  validateDocument never adds or removes a field.  The document of
    the report is the copy made at the start; from the copy on, every
    cell of the store keeps its kind and every object its own keys, in
    their order; so the document returned has the keys of the copy. *)
Theorem validateDocument_keeps_keys options doc schema (h : heap) report h' :
  validateDocument options doc schema h = (Ok report, h') →
  ∃ h1, deep_copy doc h = (Ok (document report), h1)
        ∧ shape_kept h1 h'
        ∧ map fst (own_fields h' (document report))
          = map fst (own_fields h1 (document report)).
Proof.
  intros Hrun.
  destruct (validateDocument_run _ _ _ _ _ _ Hrun)
    as (copy & h1 & s' & Hcopy & Hloop & -> & ->).
  pose proof (steps_validate_fields options copy (fields schema)
                {| objects := h1; errors := []; warnings := [];
                   typeCastingCount := 0 |}) as (Hshape & _).
  rewrite Hloop in Hshape. simpl in *.
  exists h1. split; [done |]. split; [done |].
  apply shape_kept_own_keys; [done |]. by eapply deep_copy_within.
Qed.

(** X11.  Every warning of a report tells of a type mismatch.  The cast
    inside validateField never throws, so the warning of its catch
    clause, "Type casting failed for ...", is never given. *)
Theorem validateDocument_warnings options doc schema (h : heap) report h' :
  validateDocument options doc schema h = (Ok report, h') →
  Forall (is_mismatch_message options) (report_warnings report).
Proof.
  intros Hrun.
  destruct (validateDocument_run _ _ _ _ _ _ Hrun)
    as (copy & h1 & s' & Hcopy & Hloop & -> & ->).
  pose proof (steps_validate_fields options copy (fields schema)
                {| objects := h1; errors := []; warnings := [];
                   typeCastingCount := 0 |}) as (_ & _ & (more & Hmore & Hall) & _).
  rewrite Hloop in Hmore. simpl in *. by rewrite Hmore.
Qed.

(** *** A required field that is missing *)

Lemma mapM_alloc_fields_keys (fields : list (string * value)) :
  ∀ (h : heap) fs h',
    mapM (λ entry, let! v := alloc_value entry.2 in ret (entry.1, v)) fields h
    = (Ok fs, h') →
    map fst fs = map fst fields.
Proof.
  induction fields as [|[k t] rest IH]; intros h fs h'; simpl.
  - by intros [= <- <-].
  - unfold bind at 1. unfold bind at 1.
    destruct (alloc_value t h) as [[v|e] h1]; [| discriminate].
    unfold ret at 1. unfold bind at 1.
    destruct (mapM _ rest h1) as [[fs1|e] h2] eqn:Hrest; [| discriminate].
    intros [= <- <-]. simpl. f_equal. by eapply IH.
Qed.

Lemma alloc_value_own_keys (t : value) (h : heap) v h' key :
  alloc_value t h = (Ok v, h') →
  has_own key (own_fields h' v) = true →
  ∃ fields, t = JObj fields ∧ has_own key fields = true.
Proof.
  destruct t as [| |b|n|s|t|hex|items|fields]; simpl;
    try (by intros [= <- <-]);
    try (unfold alloc; intros [= <- <-]; simpl; by rewrite cell_at_alloc).
  - unfold bind. destruct (mapM alloc_value items h) as [[vs|e] h1]; [| discriminate].
    unfold alloc. intros [= <- <-]. simpl. by rewrite cell_at_alloc.
  - unfold bind.
    destruct (mapM _ fields h) as [[fs|e] h1] eqn:Hfields; [| discriminate].
    unfold alloc. intros [= <- <-]. simpl. rewrite cell_at_alloc.
    intros Hkey. exists fields. split; [done |].
    by rewrite <- (has_own_keys key fs fields (mapM_alloc_fields_keys _ _ _ _ Hfields)).
Qed.

Lemma JSON_roundtrip_own_keys (t t' : value) fields' key :
  JSON_roundtrip t = Some t' → t' = JObj fields' → has_own key fields' = true →
  ∃ fields, t = JObj fields ∧ has_own key fields = true.
Proof.
  destruct t as [| |b|n|s|[z|]|hex|items|fields]; simpl;
    try (intros [= <-]; discriminate);
    try discriminate.
  - intros [= <-]. by destruct (number_is_finite n), (number_eq n 0%float).
  - intros [= <-] [= <-] Hkey. exists fields. split; [done |].
    induction fields as [|[k w] rest IH]; [done |].
    unfold has_own in *. simpl in *.
    destruct (String.eqb k key) eqn:Hk; [done |].
    apply IH. destruct (JSON_roundtrip w); [| done].
    simpl in Hkey. by rewrite Hk in Hkey.
Qed.

Lemma reify_own_keys fuel (h : heap) v fields key :
  reify fuel h v = Some (JObj fields) → has_own key fields = true →
  has_own key (own_fields h v) = true.
Proof.
  destruct fuel as [|fuel], v as [| | | | |l]; try discriminate. simpl.
  destruct (cell_at h l) as [t|hex|items|fs]; try discriminate.
  - destruct ((fix go (xs : list val) := _) items); discriminate.
  - match goal with |- context [?go fs] => set (keys := go) end.
    destruct (keys fs) as [tfs|] eqn:Hfs; [| discriminate].
    simpl. intros [= <-]. revert tfs Hfs.
    induction fs as [|[k x] rest IH]; intros tfs; simpl.
    + by intros [= <-].
    + destruct (reify fuel h x) as [tx|]; [| discriminate].
      destruct (keys rest) as [trest|] eqn:Hrest; [| discriminate].
      intros [= <-]. unfold has_own in *. simpl.
      destruct (String.eqb k key); [done |]. by apply (IH trest).
Qed.

Lemma deep_copy_own_keys doc (h : heap) copy h1 key :
  deep_copy doc h = (Ok copy, h1) →
  has_own key (own_fields h doc) = false →
  has_own key (own_fields h1 copy) = false.
Proof.
  unfold deep_copy, bind, reading, tree_of.
  destruct (reify (S (length h)) h doc) as [t|] eqn:Htree; [| discriminate].
  destruct (JSON_roundtrip t) as [t'|] eqn:Hround; [| discriminate].
  intros Hcopy Hdoc.
  destruct (has_own key (own_fields h1 copy)) eqn:Hkey; [| done].
  destruct (alloc_value_own_keys _ _ _ _ _ Hcopy Hkey) as (fields' & -> & Hkey').
  destruct (JSON_roundtrip_own_keys _ _ _ _ Hround eq_refl Hkey')
    as (fields & -> & Hkey'').
  by rewrite (reify_own_keys _ _ _ _ _ Htree Hkey'') in Hdoc.
Qed.

Lemma advances_errors options s s' message :
  advances options s s' → message ∈ errors s → message ∈ errors s'.
Proof.
  intros (_ & (more & -> & _) & _) Hin. apply elem_of_app. by left.
Qed.

Lemma advances_absent options s s' obj key :
  advances options s s' → val_within (objects s) obj →
  has_own key (own_fields (objects s) obj) = false →
  val_within (objects s') obj ∧ has_own key (own_fields (objects s') obj) = false.
Proof.
  intros (Hshape & _) Hobj Hkey. split.
  - destruct obj; try done. simpl in *. destruct Hshape as [Hlen _]. lia.
  - rewrite <- Hkey. apply has_own_keys. by apply shape_kept_own_keys.
Qed.

Lemma validate_fields_cons options validatedDoc entry rest s :
  validate_fields options validatedDoc (entry :: rest) s
  = match validate_fields options validatedDoc [entry] s with
    | (Ok _, s1) => validate_fields options validatedDoc rest s1
    | (Throw e, s1) => (Throw e, s1)
    end.
Proof.
  destruct entry as [fieldName fieldSchema]. simpl. unfold bind.
  destruct (on_heap (call_hasOwnProperty validatedDoc fieldName) s) as [[[]|] s0];
    [| | reflexivity].
  - destruct (on_heap (get_property validatedDoc fieldName) s0) as [[old|] s1];
      [| reflexivity].
    destruct (validateField options old fieldSchema fieldName s1) as [[result|] s2];
      [| reflexivity].
    by destruct (on_heap (set_property validatedDoc fieldName result.1) s2)
      as [[[]|] s3].
  - by destruct (when _ _ s0) as [[[]|] s1].
Qed.

Lemma validate_fields_absent options validatedDoc key fieldSchema s r s' :
  has_own key (own_fields (objects s) validatedDoc) = false →
  required_without_nulls fieldSchema = true →
  validate_fields options validatedDoc [(key, fieldSchema)] s = (r, s') →
  r = Ok () → missing_message key ∈ errors s'.
Proof.
  intros Hkey Hrequired. simpl. unfold bind, on_heap, call_hasOwnProperty, reading.
  destruct s as [h errs warns count]. simpl in *.
  destruct validatedDoc as [| | | | |l];
    try (intros [= <- <-]; discriminate);
    rewrite ?Hkey; destruct (has_own "hasOwnProperty" _);
    try (intros [= <- <-]; discriminate);
    rewrite Hrequired; simpl; intros [= <- <-] _; simpl;
    apply elem_of_app; right; by apply list_elem_of_singleton.
Qed.

Lemma validate_fields_missing options validatedDoc key fieldSchema entries :
  (key, fieldSchema) ∈ entries →
  required_without_nulls fieldSchema = true →
  ∀ s s',
    val_within (objects s) validatedDoc →
    has_own key (own_fields (objects s) validatedDoc) = false →
    validate_fields options validatedDoc entries s = (Ok (), s') →
    missing_message key ∈ errors s'.
Proof.
  intros Hin Hrequired.
  induction entries as [|entry rest IH]; intros s s' Hdoc Hkey.
  { by apply elem_of_nil in Hin. }
  rewrite validate_fields_cons.
  pose proof (steps_validate_fields options validatedDoc [entry] s) as Hturn.
  destruct (validate_fields options validatedDoc [entry] s) as [[[]|e] s1] eqn:Hrun;
    [| discriminate].
  simpl in Hturn. intros Hloop.
  pose proof (steps_validate_fields options validatedDoc rest s1) as Hrest.
  rewrite Hloop in Hrest. simpl in Hrest.
  apply elem_of_cons in Hin as [<-|Hin].
  - eapply advances_errors; [exact Hrest |].
    by eapply validate_fields_absent.
  - destruct (advances_absent _ _ _ _ _ Hturn Hdoc Hkey) as [Hdoc1 Hkey1].
    by apply (IH Hin s1 s').
Qed.

(** X12.  A field that the schema requires and never saw null, and that the
    document does not have, is reported.  The report then holds the error
    "Required field '...' is missing" for it and is not valid. *)
Theorem validateDocument_missing_required options doc schema (h : heap) report h'
    key fieldSchema :
  validateDocument options doc schema h = (Ok report, h') →
  (key, fieldSchema) ∈ fields schema →
  required_without_nulls fieldSchema = true →
  has_own key (own_fields h doc) = false →
  missing_message key ∈ report_errors report ∧ isValid report = false.
Proof.
  intros Hrun Hin Hrequired Hkey.
  destruct (validateDocument_run _ _ _ _ _ _ Hrun)
    as (copy & h1 & s' & Hcopy & Hloop & -> & ->).
  assert (Herror : missing_message key ∈ errors s').
  { eapply validate_fields_missing; [exact Hin | exact Hrequired | | | exact Hloop].
    - simpl. by eapply deep_copy_within.
    - simpl. by eapply deep_copy_own_keys. }
  simpl. split; [done |].
  destruct (errors s'); [by apply elem_of_nil in Herror | done].
Qed.

End ValidationSteps.

Section ScalarFields.
Import JS Importer Spec Terms.
Context `{Runtime}.

(** X7.  validateField on a field without nested fields and without element
    type, and a value that is neither null nor undefined, never throws.
    It adds no error; it adds one warning, the type mismatch, exactly when
    the value it returns is not of the declared type; and with type
    casting off it returns the value it was given and leaves the store
    alone. *)
Theorem validateField_scalar options value fieldSchema fieldPath s :
  nestedFields fieldSchema = None → arrayElementType fieldSchema = None →
  is_null value || is_undefined value = false →
  ∃ finalValue castingPerformed s' finalType,
    validateField options value fieldSchema fieldPath s
    = (Ok (finalValue, castingPerformed), s')
    ∧ getValueType (objects s') finalValue = Ok finalType
    ∧ errors s' = errors s
    ∧ warnings s'
      = warnings s
        ++ (if String.eqb finalType (type fieldSchema) then []
            else [mismatch_message options fieldPath finalType (type fieldSchema)])
    ∧ (typeCasting options = false → finalValue = value ∧ objects s' = objects s).
Proof.
  destruct fieldSchema as [ty rq nc nf ae]. simpl. intros -> -> Hnull.
  destruct s as [h errs warns count].
  unfold validateField_body. rewrite Hnull. simpl.
  unfold bind at 1. unfold on_heap at 1, reading at 1. simpl.
  destruct (import_getValueType_total h value) as (currentType & Hcurrent & _).
  rewrite Hcurrent. unfold bind at 1.
  assert (Hcast : ∃ finalValue performed h1 count1,
            (if typeCasting options && negb (String.eqb currentType ty)
             then
               try_catch
                 (let! finalValue := on_heap (castToType value ty fieldPath) in
                  if strict_ne finalValue value
                  then count_cast ;; ret (finalValue, true)
                  else ret (finalValue, false))
                 (λ message,
                    push_warning ("Type casting failed for '" +:+ fieldPath +:+ "': "
                                  +:+ message) ;;
                    ret (value, false))
             else ret (value, false))
              {| objects := h; errors := errs; warnings := warns;
                 typeCastingCount := count |}
            = (Ok (finalValue, performed),
               {| objects := h1; errors := errs; warnings := warns;
                  typeCastingCount := count1 |})
            ∧ (typeCasting options = false → finalValue = value ∧ h1 = h)).
  { destruct (typeCasting options); simpl; [| by eexists _, _, _, _].
    destruct (negb (String.eqb currentType ty)); [| by eexists _, _, _, _].
    unfold try_catch, bind at 1, on_heap at 1. simpl.
    destruct (castToType_runs value ty fieldPath h) as (v & h1 & -> & _).
    destruct (strict_ne v value); by eexists _, _, _, _. }
  destruct Hcast as (finalValue & performed & h1 & count1 & -> & Hoff).
  unfold bind at 1. unfold on_heap at 1, reading at 1. simpl.
  destruct (import_getValueType_total h1 finalValue) as (finalType & Hfinal & _).
  rewrite Hfinal.
  exists finalValue, performed.
  destruct (String.eqb finalType ty) eqn:Htype; simpl;
    unfold bind, on_heap, reading, ret; simpl;
    eexists _, finalType; (split; [reflexivity |]); simpl;
    rewrite ?Htype, ?app_nil_r; split_and!; done.
Qed.

End ScalarFields.

Section ConformingDocuments.
Import JS Importer Spec Terms.
Context `{Runtime}.

Lemma validateField_conforming options value fieldSchema fieldPath s :
  leaf fieldSchema →
  (if is_null value || is_undefined value
   then required_without_nulls fieldSchema = false
   else getValueType (objects s) value = Ok (type fieldSchema)) →
  validateField options value fieldSchema fieldPath s = (Ok (value, false), s).
Proof.
  destruct fieldSchema as [ty rq nc nf ae]. intros [Hnf Hae]. simpl in Hnf, Hae.
  subst nf ae. simpl. unfold validateField_body.
  destruct s as [h errs warns count]. simpl.
  destruct (is_null value || is_undefined value).
  { intros ->. reflexivity. }
  intros Htype. unfold bind at 1. unfold on_heap at 1, reading at 1. simpl.
  rewrite Htype. rewrite String.eqb_refl, andb_false_r.
  unfold bind at 1. unfold ret at 1.
  unfold bind at 1. unfold on_heap at 1, reading at 1. simpl.
  rewrite Htype. rewrite String.eqb_refl. reflexivity.
Qed.

Lemma validate_fields_one options validatedDoc fieldName fieldSchema s :
  validate_fields options validatedDoc [(fieldName, fieldSchema)] s
  = (let! present := on_heap (call_hasOwnProperty validatedDoc fieldName) in
     (if present then
        let! old := on_heap (get_property validatedDoc fieldName) in
        let! result := validateField options old fieldSchema fieldName in
        on_heap (set_property validatedDoc fieldName result.1)
      else
        when (required_without_nulls fieldSchema)
             (push_error (missing_message fieldName))) ;;
     ret ()) s.
Proof. reflexivity. Qed.

Lemma validate_fields_conforming_run options l fields entries s :
  objects s !! l = Some (CObj fields) →
  has_own "hasOwnProperty" fields = false →
  Forall (λ entry, leaf entry.2 ∧ conforms (objects s) fields entry) entries →
  validate_fields options (VRef l) entries s = (Ok (), s).
Proof.
  intros Hcell Hshadow. induction 1 as [|[key fieldSchema] rest [Hleaf Hentry] _ IH];
    [reflexivity |].
  rewrite validate_fields_cons.
  assert (Hturn : validate_fields options (VRef l) [(key, fieldSchema)] s = (Ok (), s)).
  { rewrite validate_fields_one. unfold bind at 1.
    rewrite (on_heap_run (call_hasOwnProperty (VRef l) key) s (Ok (has_own key fields)));
      [| unfold call_hasOwnProperty, reading; simpl;
         by rewrite (cell_at_lookup _ _ _ Hcell), Hshadow].
    unfold conforms in Hentry. cbn [fst snd] in Hentry. unfold has_own.
    destruct (own key fields) as [v|] eqn:Hown.
    - unfold bind at 1. unfold bind at 1.
      rewrite (on_heap_run (get_property (VRef l) key) s (Ok v));
        [| unfold get_property, reading; simpl;
           by rewrite (cell_at_lookup _ _ _ Hcell), Hown].
      unfold bind at 1.
      rewrite (validateField_conforming options v fieldSchema key s Hleaf Hentry).
      cbn [fst].
      rewrite (on_heap_run (set_property (VRef l) key v) s (Ok ()));
        [reflexivity | by eapply set_property_same].
    - unfold bind at 1. by rewrite Hentry. }
  by rewrite Hturn.
Qed.

(** X9.  Validation leaves a conforming object alone.  When every field
    that the schema lists is a leaf and is, in the object, of the declared
    type (or missing, null or undefined without being required), the loop
    over the schema ends without error, warning or cast, and the store is
    what it was. *)
Theorem validate_fields_conforming options l fields entries s :
  objects s !! l = Some (CObj fields) →
  has_own "hasOwnProperty" fields = false →
  Forall (λ entry, leaf entry.2 ∧ conforms (objects s) fields entry) entries →
  validate_fields options (VRef l) entries s = (Ok (), s).
Proof. apply validate_fields_conforming_run. Qed.

Lemma nested_loop_absent (validateNested : val → FieldSchema → string → V (val * bool))
    finalValue fieldPath l fields s :
  finalValue = VRef l →
  objects s !! l = Some (CObj fields) →
  has_own "hasOwnProperty" fields = false →
  ∀ (nested : list (string * FieldSchema)) performed,
    (∀ entry, entry ∈ nested → has_own entry.1 fields = false) →
    (fix each (entries : list (string * FieldSchema)) (castingPerformed : bool)
       : V bool :=
       match entries with
       | [] => ret castingPerformed
       | (nestedField, nestedSchema) :: rest =>
           let! present := on_heap (call_hasOwnProperty finalValue nestedField) in
           if present then
             let! old := on_heap (get_property finalValue nestedField) in
             let! nestedResult :=
               validateNested old nestedSchema (fieldPath +:+ "." +:+ nestedField) in
             on_heap (set_property finalValue nestedField nestedResult.1) ;;
             each rest (castingPerformed || nestedResult.2)
           else each rest castingPerformed
       end) nested performed s
    = (Ok performed, s).
Proof.
  intros -> Hcell Hshadow.
  induction nested as [|[nestedField nestedSchema] rest IH]; intros performed Habsent;
    [reflexivity |].
  unfold bind at 1.
  rewrite (on_heap_run (call_hasOwnProperty (VRef l) nestedField) s (Ok false)).
  - apply IH. intros entry Hentry. apply Habsent. by right.
  - unfold call_hasOwnProperty, reading. simpl.
    rewrite (cell_at_lookup _ _ _ Hcell), Hshadow.
    pose proof (Habsent (nestedField, nestedSchema) ltac:(left)) as Hfield.
    simpl in Hfield. by rewrite Hfield.
Qed.

(** X8.  A nested field that is missing is not reported.  When an object
    of the declared type has none of the nested fields of the schema,
    validateField returns it as it is and adds no error and no warning,
    whether or not the schema requires those fields. *)
Theorem validateField_nested_missing_unreported options l fields fieldSchema
    nested fieldPath s :
  objects s !! l = Some (CObj fields) →
  has_own "hasOwnProperty" fields = false →
  getValueType (objects s) (VRef l) = Ok (type fieldSchema) →
  nestedFields fieldSchema = Some nested →
  (∀ entry, entry ∈ nested → has_own entry.1 fields = false) →
  validateField options (VRef l) fieldSchema fieldPath s = (Ok (VRef l, false), s).
Proof.
  destruct fieldSchema as [ty rq nc nf ae]. simpl.
  intros Hcell Hshadow Htype -> Habsent.
  unfold validateField_body. cbn [is_null is_undefined orb].
  cbn [type nestedFields arrayElementType].
  unfold bind at 1.
  rewrite (on_heap_run (reading (λ h, getValueType h (VRef l))) s (Ok ty));
    [| unfold reading; by rewrite Htype].
  rewrite String.eqb_refl, andb_false_r.
  unfold bind at 1. unfold ret at 1.
  unfold bind at 1.
  rewrite (on_heap_run (reading (λ h, getValueType h (VRef l))) s (Ok ty));
    [| unfold reading; by rewrite Htype].
  rewrite String.eqb_refl. unfold bind at 1. unfold when at 1, negb at 1, ret at 1.
  unfold bind at 1.
  assert (Hloop : ∀ m : V bool,
            (String.eqb ty "object" = true → m s = (Ok false, s)) →
            (if String.eqb ty "object" then m else ret false) s = (Ok false, s)).
  { intros m Hm. destruct (String.eqb ty "object"); [by apply Hm | done]. }
  rewrite Hloop;
    [| intros _; by apply (nested_loop_absent _ (VRef l) fieldPath l fields s)].
  unfold bind at 1.
  rewrite (on_heap_run (reading (λ h, Ok (Array_isArray h (VRef l)))) s (Ok false));
    [| unfold reading; simpl; by rewrite (cell_at_lookup _ _ _ Hcell)].
  destruct ae as [elementType|]; [| reflexivity].
  by rewrite andb_false_r.
Qed.

End ConformingDocuments.

Section CopyRoundTrip.
Import JS Importer Spec Terms.
Context `{Runtime}.

Lemma mapM_grows {A B} (f : A → M heap B) xs :
  (∀ x (h : heap) r h', f x h = (r, h') → grows_from h h') →
  ∀ (h : heap) r h', mapM f xs h = (r, h') → grows_from h h'.
Proof.
  intros Hf. induction xs as [|x rest IH]; intros h r h'; simpl.
  - intros [= <- <-]. apply grows_from_refl.
  - unfold bind at 1. destruct (f x h) as [[y|e] h1] eqn:Hx.
    + unfold bind at 1. destruct (mapM f rest h1) as [[ys|e] h2] eqn:Hrest;
        intros [= <- <-];
        exact (grows_from_trans _ _ _ (Hf _ _ _ _ Hx) (IH _ _ _ Hrest)).
    + intros [= <- <-]. exact (Hf _ _ _ _ Hx).
Qed.

Lemma alloc_value_grows (t : value) (h : heap) r h' :
  alloc_value t h = (r, h') → grows_from h h'.
Proof.
  intros Hrun. destruct (alloc_value_runs t h) as (v & h1 & Hrun1 & Hgrows).
  rewrite Hrun in Hrun1. by injection Hrun1 as -> ->.
Qed.

Lemma alloc_field_grows (entry : string * value) (h : heap) r h' :
  (let! v := alloc_value entry.2 in ret (entry.1, v)) h = (r, h') → grows_from h h'.
Proof.
  unfold bind. destruct (alloc_value entry.2 h) as [[v|e] h1] eqn:Hrun;
    intros [= <- <-]; by eapply alloc_value_grows.
Qed.

Lemma reify_items fuel (h : heap) vs ts :
  Forall2 (λ v t, reify fuel h v = Some t) vs ts →
  (fix go (xs : list val) : option (list value) :=
     match xs with
     | [] => Some []
     | x :: rest =>
         match reify fuel h x, go rest with
         | Some t, Some ts => Some (t :: ts)
         | _, _ => None
         end
     end) vs = Some ts.
Proof. induction 1 as [|v t vs ts Hv _ IH]; [done |]. by rewrite Hv, IH. Qed.

Lemma reify_entries fuel (h : heap) (fs : list (string * val)) tfs :
  Forall2 (λ entry tentry, entry.1 = tentry.1 ∧ reify fuel h entry.2 = Some tentry.2)
          fs tfs →
  (fix go (fs : list (string * val)) : option (list (string * value)) :=
     match fs with
     | [] => Some []
     | (k, x) :: rest =>
         match reify fuel h x, go rest with
         | Some t, Some ts => Some ((k, t) :: ts)
         | _, _ => None
         end
     end) fs = Some tfs.
Proof.
  induction 1 as [|[k v] [k' t] fs tfs [Hk Hv] _ IH]; [done |].
  simpl in *. subst k'. by rewrite Hv, IH.
Qed.

(** The value that alloc_value hands back stands for the tree it was
    given, in the store it leaves and in every store grown from it. *)
Lemma alloc_value_reify (t : value) :
  ∀ (h : heap) v h',
    alloc_value t h = (Ok v, h') →
    ∃ fuel, ∀ fuel' added, fuel ≤ fuel' → reify fuel' (h' ++ added) v = Some t.
Proof.
  induction t as [| |b|n|s|z|hex|items IH|fields IH] using value_nested_ind;
    intros h v h'; simpl.
  1-5: unfold ret; intros [= <- <-]; exists 0; intros fuel' added _; by destruct fuel'.
  - unfold alloc. intros [= <- <-]. exists 1. intros [|fuel'] added Hfuel; [lia |].
    simpl. by rewrite cell_at_app, cell_at_alloc by (rewrite length_app; simpl; lia).
  - unfold alloc. intros [= <- <-]. exists 1. intros [|fuel'] added Hfuel; [lia |].
    simpl. by rewrite cell_at_app, cell_at_alloc by (rewrite length_app; simpl; lia).
  - unfold bind. destruct (mapM alloc_value items h) as [[vs|e] h1] eqn:Hitems;
      [| discriminate].
    unfold alloc. intros [= <- <-].
    assert (Hall : ∃ fuel, ∀ fuel' added, fuel ≤ fuel' →
              Forall2 (λ v t, reify fuel' (h1 ++ added) v = Some t) vs items).
    { clear -IH Hitems. revert h vs h1 Hitems.
      induction IH as [|t rest Ht _ IHrest]; intros h vs h1; simpl.
      - intros [= <- <-]. exists 0. constructor.
      - unfold bind at 1. destruct (alloc_value t h) as [[v|e] h2] eqn:Hhead;
          [| discriminate].
        unfold bind at 1. destruct (mapM alloc_value rest h2) as [[vs'|e] h3] eqn:Hrest;
          [| discriminate].
        intros [= <- <-].
        destruct (Ht _ _ _ Hhead) as [fuel1 Hv].
        destruct (IHrest _ _ _ Hrest) as [fuel2 Hvs].
        destruct (mapM_grows alloc_value rest alloc_value_grows _ _ _ Hrest)
          as [grown ->].
        exists (Nat.max fuel1 fuel2). intros fuel' added Hfuel. constructor.
        + rewrite <- app_assoc. apply Hv. lia.
        + apply Hvs. lia. }
    destruct Hall as [fuel Hall]. exists (S fuel).
    intros [|fuel'] added Hfuel; [lia |]. simpl.
    rewrite cell_at_app, cell_at_alloc by (rewrite length_app; simpl; lia).
    rewrite (reify_items fuel' _ vs items); [done |].
    rewrite <- app_assoc. apply Hall. lia.
  - unfold bind.
    match goal with |- context [mapM ?f fields h] =>
      destruct (mapM f fields h) as [[fs|e] h1] eqn:Hfields end; [| discriminate].
    unfold alloc. intros [= <- <-].
    assert (Hall : ∃ fuel, ∀ fuel' added, fuel ≤ fuel' →
              Forall2 (λ entry tentry,
                         entry.1 = tentry.1
                         ∧ reify fuel' (h1 ++ added) entry.2 = Some tentry.2)
                      fs fields).
    { clear -IH Hfields. revert h fs h1 Hfields.
      induction IH as [|[k t] rest Ht _ IHrest]; intros h fs h1; simpl.
      - intros [= <- <-]. exists 0. constructor.
      - unfold bind at 1.
        destruct (alloc_value t h) as [[v|e] h2] eqn:Hhead; [| discriminate].
        unfold ret at 1. unfold bind at 1.
        destruct (mapM _ rest h2) as [[fs'|e] h3] eqn:Hrest; [| discriminate].
        intros [= <- <-].
        destruct (Ht _ _ _ Hhead) as [fuel1 Hv].
        destruct (IHrest _ _ _ Hrest) as [fuel2 Hvs].
        destruct (mapM_grows _ rest alloc_field_grows _ _ _ Hrest) as [grown ->].
        exists (Nat.max fuel1 fuel2). intros fuel' added Hfuel. constructor.
        + split; [done |]. simpl. rewrite <- app_assoc. apply Hv. lia.
        + apply Hvs. lia. }
    destruct Hall as [fuel Hall]. exists (S fuel).
    intros [|fuel'] added Hfuel; [lia |]. simpl.
    rewrite cell_at_app, cell_at_alloc by (rewrite length_app; simpl; lia).
    rewrite (reify_entries fuel' _ fs fields); [done |].
    rewrite <- app_assoc. apply Hall. lia.
Qed.

(** X13.  The copy that validateDocument works on is the JSON round trip
    of the document.  When the copy is made, the document had a tree, the
    tree has a round trip through JSON text (a date has become its ISO
    text, an identifier its hex text, a field holding undefined is gone),
    and the copy stands for that round trip. *)
Theorem deep_copy_round_trip doc (h : heap) copy h1 :
  deep_copy doc h = (Ok copy, h1) →
  ∃ t t' fuel,
    tree_of h doc = Ok t
    ∧ JSON_roundtrip t = Some t'
    ∧ reify fuel h1 copy = Some t'.
Proof.
  unfold deep_copy, bind, reading.
  destruct (tree_of h doc) as [t|e]; [| discriminate].
  destruct (JSON_roundtrip t) as [t'|] eqn:Hround; [| discriminate].
  intros Hcopy. destruct (alloc_value_reify t' h copy h1 Hcopy) as [fuel Hfuel].
  exists t, t', fuel. split; [done |]. split; [done |].
  specialize (Hfuel fuel [] ltac:(lia)). by rewrite app_nil_r in Hfuel.
Qed.

End CopyRoundTrip.

Section Classifiers.
Import JS Spec Terms.
Import Importer.

(** The fields of the tree of an object are the trees of its fields. *)
Lemma reify_fields_own fuel (h : heap) (fields : list (string * val)) tfields key :
  (fix go (fs : list (string * val)) : option (list (string * value)) :=
     match fs with
     | [] => Some []
     | (k, x) :: rest =>
         match reify fuel h x, go rest with
         | Some t, Some ts => Some ((k, t) :: ts)
         | _, _ => None
         end
     end) fields = Some tfields →
  match own key fields with
  | Some x => ∃ t, reify fuel h x = Some t ∧ own key tfields = Some t
  | None => own key tfields = None
  end.
Proof.
  revert tfields. induction fields as [|[k x] rest IH]; intros tfields; simpl.
  - by intros [= <-].
  - destruct (reify fuel h x) as [t|] eqn:Hx; [| discriminate].
    match goal with |- context [?go rest] => destruct (go rest) as [ts|] eqn:Hrest end;
      [| discriminate].
    intros [= <-]. simpl. destruct (String.eqb k key); [by exists t |].
    by apply IH.
Qed.

Lemma reify_is_string fuel (h : heap) v t s :
  reify fuel h v = Some t → JS.is_string s t = is_string s v.
Proof.
  destruct fuel as [|fuel], v as [| | | | |l]; simpl; try (by intros [= <-]).
  destruct (cell_at h l) as [z|hex|items|fields]; try (by intros [= <-]).
  - destruct ((fix go (xs : list val) := _) items); by intros [= <-].
  - destruct ((fix go (fs : list (string * val)) := _) fields); by intros [= <-].
Qed.

(** X2.  The two scripts classify alike.  Wherever getValueType of the
    export script returns a tag for a value, getValueType of the import
    script returns the same tag for it. *)
Theorem getValueType_scripts_agree fuel (h : heap) v t tag :
  reify fuel h v = Some t →
  Exporter.getValueType t = Ok tag →
  getValueType h v = Ok tag.
Proof.
  destruct fuel as [|fuel], v as [| | | | |l]; simpl; try (by intros [= <-]).
  unfold getValueType, has_ObjectId_constructor. simpl.
  destruct (cell_at h l) as [z|hex|items|fields] eqn:Hcell;
    try (by intros [= <-]).
  - destruct ((fix go (xs : list val) := _) items); by intros [= <-].
  - match goal with |- context [?go fields] => destruct (go fields) as [tfields|] eqn:Hfields end;
      [| discriminate].
    simpl. intros [= <-].
    pose proof (reify_fields_own _ _ _ _ "constructor" Hfields) as Hconstructor.
    unfold Exporter.getValueType. simpl.
    destruct (own "constructor" fields) as [c|].
    + destruct Hconstructor as (tc & Hc & ->). simpl.
      destruct fuel as [|fuel], c as [| |b|n|s|l']; simpl in Hc;
        try (injection Hc as <-); try discriminate; simpl;
        try (by intros [= <-]);
        try (destruct b; by intros [= <-]);
        try (destruct (negb (number_eq n 0%float) && negb (PrimFloat.is_nan n));
             by intros [= <-]);
        try (destruct (negb (String.eqb s "")); by intros [= <-]).
      destruct (cell_at h l') as [z'|hex'|items'|fields'];
        try (injection Hc as <-; by intros [= <-]).
      * destruct ((fix go (xs : list val) := _) items'); [| discriminate].
        injection Hc as <-. by intros [= <-].
      * match type of Hc with context [?go fields'] =>
          destruct (go fields') as [tfields'|] eqn:Hfields' end; [| discriminate].
        injection Hc as <-. simpl.
        pose proof (reify_fields_own _ _ _ _ "name" Hfields') as Hname.
        destruct (own "name" fields') as [name|].
        -- destruct Hname as (tname & Hn & ->). simpl.
           by rewrite (reify_is_string _ _ _ _ "ObjectId" Hn).
        -- by rewrite Hname.
    + rewrite Hconstructor. simpl. by intros [= <-].
Qed.

(** X1.  getValueType of the import script never throws: for every value
    it returns one of the nine type tags. *)
Theorem import_getValueType_never_throws (h : heap) v :
  ∃ tag, getValueType h v = Ok tag ∧ tag ∈ type_tags.
Proof. exact (import_getValueType_total h v). Qed.

End Classifiers.

Section SchemaCoverage.
Import JS Exporter Spec Terms.

(** A path is accounted for when the table has a row for it or
    Object.prototype a counter of that name. *)
Lemma record_type_keeps_known fullKey type schema key :
  key ∈ map fst (rows schema) ∨ key ∈ map fst (on_prototype schema) →
  key ∈ map fst (rows (record_type fullKey type schema))
  ∨ key ∈ map fst (on_prototype (record_type fullKey type schema)).
Proof.
  unfold record_type. destruct (own fullKey (rows schema)) as [types|]; simpl.
  - by rewrite keys_replace_own.
  - destruct (String.eqb fullKey "__proto__"); simpl.
    { unfold bump. rewrite keys_set_own. tauto. }
    destruct (inherited fullKey); [done |].
    destruct (has_own fullKey (on_prototype schema)); [done |]. simpl.
    rewrite keys_insert_new. tauto.
Qed.

Lemma record_type_adds fullKey type schema :
  inherited fullKey = false → fullKey ≠ "__proto__" →
  fullKey ∈ map fst (rows (record_type fullKey type schema))
  ∨ fullKey ∈ map fst (on_prototype (record_type fullKey type schema)).
Proof.
  intros Hplain Hproto. unfold record_type.
  destruct (own fullKey (rows schema)) as [types|] eqn:Hown; simpl.
  - left. rewrite keys_replace_own. apply own_Some_elem in Hown.
    apply list_elem_of_fmap. by exists (fullKey, types).
  - destruct (String.eqb_spec fullKey "__proto__"); [done |]. rewrite Hplain.
    destruct (has_own fullKey (on_prototype schema)) eqn:Hcounter; simpl.
    + right. by apply has_own_elem.
    + left. rewrite keys_insert_new. by left.
Qed.

Lemma record_type_plain fullKey type schema :
  (∀ key, key ∈ map fst (rows schema) → inherited key = false ∧ key ≠ "__proto__") →
  ∀ key, key ∈ map fst (rows (record_type fullKey type schema)) →
         inherited key = false ∧ key ≠ "__proto__".
Proof.
  intros Hschema key. unfold record_type.
  destruct (own fullKey (rows schema)) as [types|]; simpl.
  - rewrite keys_replace_own. apply Hschema.
  - destruct (String.eqb_spec fullKey "__proto__"); [apply Hschema |].
    destruct (inherited fullKey) eqn:Hplain; [apply Hschema |].
    destruct (has_own fullKey (on_prototype schema)); [apply Hschema |]. simpl.
    rewrite keys_insert_new. intros [->|Hkey]; [done | by apply Hschema].
Qed.

(** The counters on Object.prototype bear the names of tags. *)
Lemma record_type_counters fullKey type schema :
  type ∈ type_tags →
  (∀ key, key ∈ map fst (on_prototype schema) → key ∈ type_tags) →
  ∀ key, key ∈ map fst (on_prototype (record_type fullKey type schema)) →
         key ∈ type_tags.
Proof.
  intros Htype Hschema key. unfold record_type.
  destruct (own fullKey (rows schema)) as [types|]; simpl; [apply Hschema |].
  destruct (String.eqb fullKey "__proto__"); simpl.
  { unfold bump. rewrite keys_set_own. intros [->|Hkey]; [done | by apply Hschema]. }
  destruct (inherited fullKey); [apply Hschema |].
  destruct (has_own fullKey (on_prototype schema)); apply Hschema.
Qed.

Lemma analyzeObject_keeps_known obj schema prefix schema' key :
  key ∈ map fst (rows schema) ∨ key ∈ map fst (on_prototype schema) →
  analyzeObject obj schema prefix = Ok schema' →
  key ∈ map fst (rows schema') ∨ key ∈ map fst (on_prototype schema').
Proof.
  apply (analyzeObject_preserves
           (λ schema, key ∈ map fst (rows schema) ∨ key ∈ map fst (on_prototype schema))).
  intros. by apply record_type_keeps_known.
Qed.

(** A top-level field of a document is accounted for once the document
    is analyzed, unless it bears the name of an inherited member. *)
Lemma analyzeObject_top_level fields key :
  inherited key = false → key ≠ "__proto__" →
  ∀ schema schema',
    (key ∈ map fst (rows schema) ∨ key ∈ map fst (on_prototype schema))
    ∨ key ∈ map fst fields →
    analyzeObject (JObj fields) schema "" = Ok schema' →
    key ∈ map fst (rows schema') ∨ key ∈ map fst (on_prototype schema').
Proof.
  intros Hplain Hproto schema schema' Hkey. rewrite analyzeObject_unfold. simpl.
  revert schema Hkey. induction fields as [|[k v] rest IH]; intros schema Hkey; simpl.
  - intros [= <-]. destruct Hkey as [Hkey|Hkey]; [done | by apply elem_of_nil in Hkey].
  - destruct (getValueType v) as [type|e] eqn:Htype; [| discriminate]. simpl.
    set (schema1 := record_type (path_join "" k) type schema).
    assert (Hkey1 : (key ∈ map fst (rows schema1) ∨ key ∈ map fst (on_prototype schema1))
                    ∨ key ∈ map fst rest).
    { destruct Hkey as [Hkey|Hkey]; [left; by apply record_type_keeps_known |].
      simpl in Hkey. apply elem_of_cons in Hkey as [->|Hkey]; [| by right].
      left. by apply record_type_adds. }
    match goal with |- rbind ?step _ = _ → _ => destruct step as [schema2|e] eqn:Hstep end;
      [| discriminate].
    simpl. apply IH.
    destruct Hkey1 as [Hkey1|Hkey1]; [left | by right].
    destruct (String.eqb type "object" && negb (is_null v)).
    { by eapply analyzeObject_keeps_known. }
    destruct (String.eqb type "array" && (0 <? array_length v)); [| by injection Hstep as <-].
    destruct v as [| | | | | | |items|]; try (by injection Hstep as <-).
    simpl in Hstep.
    eapply (forEach_preserves
              (λ schema, key ∈ map fst (rows schema) ∨ key ∈ map fst (on_prototype schema)));
      [| exact Hkey1 | exact Hstep].
    apply Forall_forall. intros item _ s s' Hs.
    destruct (String.eqb (typeof item) "object" && negb (is_null item)).
    + by apply analyzeObject_keeps_known.
    + by intros [= <-].
Qed.

Lemma collect_types_top_level prototype documents table fields key :
  collect_types prototype documents = Ok table →
  JObj fields ∈ documents → key ∈ map fst fields →
  inherited key = false → key ≠ "__proto__" →
  key ∈ map fst (rows table) ∨ key ∈ map fst (on_prototype table).
Proof.
  unfold collect_types. intros Hrun Hdoc Hkey Hplain Hproto.
  assert (Hgen : ∀ schema,
            (key ∈ map fst (rows schema) ∨ key ∈ map fst (on_prototype schema))
            ∨ JObj fields ∈ documents →
            forEach (λ doc schema, analyzeObject doc schema "") documents schema
            = Ok table →
            key ∈ map fst (rows table) ∨ key ∈ map fst (on_prototype table)).
  { clear Hrun Hdoc. induction documents as [|doc rest IH]; intros schema Hin; simpl.
    - intros [= <-]. destruct Hin as [Hin|Hin]; [done | by apply elem_of_nil in Hin].
    - destruct (analyzeObject doc schema "") as [schema1|e] eqn:Hdoc; [| discriminate].
      simpl. apply IH.
      destruct Hin as [Hin|Hin]; [left; by eapply analyzeObject_keeps_known |].
      apply elem_of_cons in Hin as [<-|Hin]; [| by right].
      left. eapply analyzeObject_top_level; [exact Hplain | exact Hproto | by right | exact Hdoc]. }
  apply (Hgen {| rows := []; on_prototype := prototype |}); [by right | done].
Qed.

Lemma collect_types_plain prototype documents table :
  collect_types prototype documents = Ok table →
  ∀ key, key ∈ map fst (rows table) → inherited key = false ∧ key ≠ "__proto__".
Proof.
  apply (collect_types_preserves
           (λ table, ∀ key, key ∈ map fst (rows table) →
                            inherited key = false ∧ key ≠ "__proto__")).
  - intros. by eapply record_type_plain.
  - intros key Hkey. by apply elem_of_nil in Hkey.
Qed.

Lemma collect_types_counters prototype documents table :
  (∀ key, key ∈ map fst prototype → key ∈ type_tags) →
  collect_types prototype documents = Ok table →
  ∀ key, key ∈ map fst (on_prototype table) → key ∈ type_tags.
Proof.
  intros Hprototype.
  apply (collect_types_preserves
           (λ table, ∀ key, key ∈ map fst (on_prototype table) → key ∈ type_tags)).
  - intros. by eapply record_type_counters.
  - exact Hprototype.
Qed.

(** The rows of the schema are the rows of the table. *)
Lemma analyzeFieldTypes_keys prototype documents schema :
  analyzeFieldTypes prototype documents = Ok schema →
  ∃ table, collect_types prototype documents = Ok table
           ∧ map fst schema = map fst (rows table).
Proof.
  intros Hrun. apply analyzeFieldTypes_rows in Hrun as (table & Htable & Hall).
  exists table. split; [done |].
  induction Hall as [|entry row schema' table' [Hname _] _ IH]; [done |].
  simpl. by rewrite Hname, IH.
Qed.

(** X21.  Which top-level fields get a row in the schema.  A field of an
    analyzed document has a row, unless its name is that of a member every
    object inherits (constructor, toString, hasOwnProperty, ...), or is
    __proto__, or is the name of a counter on Object.prototype; no row of
    the schema bears the name of an inherited member or the name
    __proto__; and the counters on Object.prototype bear the names of
    type tags after the walk when they did before. *)
Theorem analyzeFieldTypes_top_level_rows prototype documents schema :
  analyzeFieldTypes prototype documents = Ok schema →
  ∃ table,
    collect_types prototype documents = Ok table
    ∧ map fst schema = map fst (rows table)
    ∧ (∀ fields key,
         JObj fields ∈ documents → key ∈ map fst fields →
         inherited key = false → key ≠ "__proto__" →
         has_own key (on_prototype table) = false →
         key ∈ map fst schema)
    ∧ (∀ key, key ∈ map fst schema → inherited key = false ∧ key ≠ "__proto__")
    ∧ ((∀ key, key ∈ map fst prototype → key ∈ type_tags) →
       ∀ key, key ∈ map fst (on_prototype table) → key ∈ type_tags).
Proof.
  intros Hrun. destruct (analyzeFieldTypes_keys _ _ _ Hrun) as (table & Htable & ->).
  exists table. split_and!; [done | done | | |].
  - intros fields key Hdoc Hkey Hplain Hproto Hnone.
    destruct (collect_types_top_level prototype documents table fields key)
      as [Hrow|Hrow]; try done.
    exfalso. unfold has_own in Hnone.
    destruct (own key (on_prototype table)) eqn:Hown; [done |].
    by apply own_None_keys in Hown.
  - by apply (collect_types_plain prototype documents).
  - intros Hprototype. by apply (collect_types_counters prototype documents).
Qed.

(** X23.  When an analyzed document has a field _id, the schema has a row
    for it, and generateCreateTableSQL emits one column per row of the
    schema and no more: the line that declares _id as the primary key is
    left out.  This holds whatever counters are on Object.prototype at the
    call, those before the analysis bearing the names of type tags, as
    do all that the script leaves there. *)
Theorem create_table_columns_with_id before documents schema fields :
  (∀ key, key ∈ map fst before → key ∈ type_tags) →
  analyzeFieldTypes before documents = Ok schema →
  JObj fields ∈ documents → "_id" ∈ map fst fields →
  ∀ prototype,
    create_table_columns prototype schema
    = map (λ entry, column_definition prototype entry.1 entry.2) schema.
Proof.
  intros Hbefore Hrun Hdoc Hid prototype.
  destruct (analyzeFieldTypes_keys _ _ _ Hrun) as (table & Htable & Hrows).
  assert (Hrow : "_id" ∈ map fst schema).
  { rewrite Hrows.
    destruct (collect_types_top_level before documents table fields "_id")
      as [Hrow|Hrow]; try done.
    apply (collect_types_counters before documents table Hbefore Htable) in Hrow.
    exfalso. revert Hrow. apply (bool_decide_unpack _). vm_compute. exact I. }
  unfold create_table_columns, has_own.
  destruct (own "_id" schema) eqn:Hown; [done |].
  by apply own_None_keys in Hown.
Qed.

(** X26.  The walk writes on Object.prototype at the path __proto__ only.
    On documents whose walk, begun in a fresh engine, leaves nothing
    there, analyzeFieldTypes returns, its schema has the rows of the
    frequency table in their order, and the table of every path is
    reduced to a field whose type is a tag with the largest count, whose
    nullable flag says whether null was counted at that path, and whose
    sample count is that largest count. *)
Theorem analyzeFieldTypes_reduces_untouched :
  (∀ fullKey type schema,
     fullKey ≠ "__proto__" →
     on_prototype (record_type fullKey type schema) = on_prototype schema)
  ∧ (∀ documents table,
       collect_types [] documents = Ok table →
       on_prototype table = [] →
       ∃ schema, analyzeFieldTypes [] documents = Ok schema
                 ∧ Forall2 (λ entry row, entry.1 = row.1 ∧ reduces_to row.2 entry.2)
                           schema (rows table)).
Proof.
  split.
  - intros fullKey type schema Hpath. unfold record_type.
    destruct (own fullKey (rows schema)); [done |].
    destruct (String.eqb_spec fullKey "__proto__"); [done |].
    destruct (inherited fullKey); [done |].
    by destruct (has_own fullKey (on_prototype schema)).
  - intros documents table Htable Hnone. unfold analyzeFieldTypes.
    rewrite Htable. simpl.
    pose proof (collect_types_counted _ _ _ Htable) as Hcounted.
    destruct (reduce_rows (on_prototype table) (rows table) [] Hcounted)
      as (reduced & -> & Hrows).
    exists reduced. split; [done |]. rewrite Hnone in Hrows.
    unfold counted in Hcounted. clear Htable Hnone.
    induction Hrows as [|entry row reduced' table' [Hname Hinfo] _ IH];
      [constructor |].
    apply Forall_cons in Hcounted as [[Hnd _] Hcounted].
    constructor; [| by apply IH]. split; [done |]. by apply reduce_types_reduces.
Qed.

End SchemaCoverage.

Section TameDocuments.
Import JS Exporter Spec Terms.

Lemma forEach_returns {A St} (f : A → St → result St) xs :
  Forall (λ x, ∀ s, ∃ s', f x s = Ok s') xs →
  ∀ s, ∃ s', forEach f xs s = Ok s'.
Proof.
  induction 1 as [|x rest Hx _ IH]; intros s; simpl; [by eexists |].
  destruct (Hx s) as [s1 ->]. simpl. apply IH.
Qed.

Lemma forEach_indexed_returns {A St} (f : nat → A → St → result St) xs :
  Forall (λ x, ∀ i s, ∃ s', f i x s = Ok s') xs →
  ∀ i s, ∃ s', forEach_indexed f i xs s = Ok s'.
Proof.
  induction 1 as [|x rest Hx _ IH]; intros i s; simpl; [by eexists |].
  destruct (Hx i s) as [s1 ->]. simpl. apply IH.
Qed.

Lemma getValueType_tame v : tame v = true → ∃ tag, getValueType v = Ok tag.
Proof.
  destruct v as [| |b|n|s|t|hex|items|fields]; try (by eexists).
  simpl. intros Htame. apply andb_prop in Htame as [Hconstructor _].
  unfold getValueType. simpl.
  destruct (own "constructor" fields) as [c|]; simpl; [| by eexists].
  destruct c as [| |b|n|s|t|hex|items|nested]; try discriminate; simpl;
    try (by eexists).
  destruct (own "name" nested) as [name|]; simpl; [| by eexists].
  destruct (is_string "ObjectId" name); by eexists.
Qed.

Lemma tame_items items item :
  forallb tame items = true → item ∈ items → tame item = true.
Proof.
  intros Htame Hitem. rewrite forallb_forall in Htame.
  apply Htame. by apply list_elem_of_In.
Qed.

(** analyzeObject returns on a tame value. *)
Lemma analyzeObject_tame obj :
  tame obj = true →
  ∀ schema prefix, ∃ schema', analyzeObject obj schema prefix = Ok schema'.
Proof.
  pose (Q := λ obj, tame obj = true →
               ∀ schema prefix, ∃ schema', analyzeObject obj schema prefix = Ok schema').
  cut (Q obj ∧ Forall Q (array_items obj)); [intros [HQ _]; exact HQ |].
  assert (Hvisit : ∀ value, Q value ∧ Forall Q (array_items value) →
            tame value = true →
            ∀ fullKey schema, ∃ schema',
              rbind (getValueType value) (λ type,
                let schema := record_type fullKey type schema in
                if String.eqb type "object" && negb (is_null value) then
                  analyzeObject value schema fullKey
                else if String.eqb type "array" && (0 <? array_length value) then
                  forEach_item (λ item schema,
                    if String.eqb (typeof item) "object" && negb (is_null item) then
                      analyzeObject item schema (fullKey +:+ "[]")
                    else Ok schema) value schema
                else Ok schema) = Ok schema').
  { intros value [Hvalue Hitems] Htame fullKey schema.
    destruct (getValueType_tame value Htame) as [type ->]. simpl.
    destruct (String.eqb type "object" && negb (is_null value)); [by apply Hvalue |].
    destruct (String.eqb type "array" && (0 <? array_length value)); [| by eexists].
    destruct value as [| | | | | | |items|]; try (by eexists). simpl in *.
    apply forEach_returns. apply Forall_forall. intros item Hitem schema1.
    destruct (String.eqb (typeof item) "object" && negb (is_null item));
      [| by eexists].
    apply (proj1 (Forall_forall _ _) Hitems item Hitem). by eapply tame_items. }
  induction obj as [| |b|n|s|t|hex|items IH|fields IH] using value_nested_ind;
    try (split; [intros _ schema prefix; by eexists | constructor]).
  - split; [| by eapply Forall_impl; [exact IH | intros item [HQ _]]].
    intros Htame schema prefix. rewrite analyzeObject_unfold. simpl in *.
    apply forEach_indexed_returns. apply Forall_forall. intros item Hitem i schema0.
    apply Hvisit; [| by eapply tame_items].
    exact (proj1 (Forall_forall _ _) IH item Hitem).
  - split; [| constructor].
    intros Htame schema prefix. rewrite analyzeObject_unfold. simpl in *.
    apply andb_prop in Htame as [_ Htame].
    apply forEach_returns. apply Forall_forall. intros [key value] Hentry schema0.
    simpl. apply Hvisit.
    + exact (proj1 (Forall_forall _ _) IH (key, value) Hentry).
    + rewrite forallb_forall in Htame.
      apply (Htame (key, value)). by apply list_elem_of_In.
Qed.

(** X20.  analyzeFieldTypes returns a schema for tame documents, whatever
    counters are on Object.prototype: the analysis throws only on an
    object with an own field called constructor that holds null or
    undefined. *)
Theorem analyzeFieldTypes_tame documents :
  forallb tame documents = true →
  ∀ prototype, ∃ schema, analyzeFieldTypes prototype documents = Ok schema.
Proof.
  intros Htame prototype. unfold analyzeFieldTypes.
  destruct (forEach_returns (λ doc schema, analyzeObject doc schema "") documents)
    with (s := {| rows := []; on_prototype := prototype |}) as [table Htable].
  { apply Forall_forall. intros doc Hdoc schema.
    apply analyzeObject_tame. by eapply tame_items. }
  change (collect_types prototype documents = Ok table) in Htable.
  rewrite Htable. simpl.
  destruct (reduce_rows (on_prototype table) (rows table) []
              (collect_types_counted prototype documents table Htable))
    as (reduced & -> & _).
  by eexists.
Qed.

End TameDocuments.

Lemma analyzeFieldTypes_tame_witness :
  forallb Terms.tame [Spec.scenario_D_document] = true
  ∧ ∃ schema,
      Exporter.analyzeFieldTypes [("null", 1)] [Spec.scenario_D_document]
      = JS.Ok schema.
Proof.
  split; [reflexivity |].
  apply (analyzeFieldTypes_tame [Spec.scenario_D_document]). reflexivity.
Defined.

Section SqlText.
Import JS Exporter Spec Terms.
Context `{Runtime}.

Lemma sql_unquote_body_quote rest :
  sql_unquote_body (String "'" (String "'" rest))
  = String "'" <$> sql_unquote_body rest.
Proof. reflexivity. Qed.

Lemma sql_unquote_body_other c rest :
  Ascii.eqb "'" c = false →
  sql_unquote_body (String c rest) = String c <$> sql_unquote_body rest.
Proof. intros Hc. cbn [sql_unquote_body]. by rewrite Hc. Qed.

Lemma sql_unquote_body_escaped s :
  sql_unquote_body (replace_char "'" (q1 +:+ q1) s +:+ q1) = Some s.
Proof.
  induction s as [|c rest IH]; [reflexivity |].
  cbn [replace_char]. destruct (Ascii.eqb "'" c) eqn:Hc.
  - apply Ascii.eqb_eq in Hc as <-.
    change (sql_unquote_body
              (String "'" (String "'" (replace_char "'" (q1 +:+ q1) rest +:+ q1)))
            = Some (String "'" rest)).
    by rewrite sql_unquote_body_quote, IH.
  - change (sql_unquote_body (String c (replace_char "'" (q1 +:+ q1) rest +:+ q1))
            = Some (String c rest)).
    by rewrite (sql_unquote_body_other _ _ Hc), IH.
Qed.

(** X24.  The literal that formatValueForSQL gives for a string reads back
    as that string: it opens and closes with a quote, and every quote of
    the string is doubled in between. *)
Theorem formatValueForSQL_string_reads_back s :
  ∃ literal, formatValueForSQL (JStr s) = Ok (JStr literal)
             ∧ sql_unquote literal = Some s.
Proof.
  eexists. split; [reflexivity |].
  change (sql_unquote_body (replace_char "'" (q1 +:+ q1) s +:+ q1) = Some s).
  apply sql_unquote_body_escaped.
Qed.

Lemma insert_values_length (flatDoc : list (string * value)) :
  ∀ acc values,
    forEach (λ entry values,
               rbind (formatValueForSQL entry.2) (λ v, Ok (values ++ [v])))
            flatDoc acc = Ok values →
    length values = length acc + length flatDoc.
Proof.
  induction flatDoc as [|entry rest IH]; intros acc values; simpl.
  - intros [= <-]. lia.
  - destruct (formatValueForSQL entry.2) as [v|e]; [| discriminate]. simpl.
    intros Hrest. rewrite (IH _ _ Hrest), length_app. simpl. lia.
Qed.

(** X25.  An INSERT statement has one column and one value for each
    top-level field of the document, for a document that has no field
    called __proto__. *)
Theorem insert_statement_arity fields flatDoc values :
  NoDup (map fst fields) → "__proto__" ∉ map fst fields →
  flattenObject (JObj fields) "" = Ok flatDoc →
  insert_values flatDoc = Ok values →
  length (insert_columns flatDoc) = length fields
  ∧ length values = length fields.
Proof.
  intros Hfields Hproto Hflat Hvalues.
  assert (Hlength : length flatDoc = length fields).
  { unfold flattenObject, forEach_key in Hflat.
    apply (flattenObject_fields fields Hfields Hproto) in Hflat
      as (Hnodup & Hkeys & _); [| constructor | intros key _; apply not_elem_of_nil].
    rewrite <- (length_map fst flatDoc), <- (length_map fst fields).
    apply Permutation_length, NoDup_Permutation; [done | done |].
    intros key. rewrite Hkeys, elem_of_nil. simpl. tauto. }
  unfold insert_columns. rewrite length_map. split; [done |].
  unfold insert_values in Hvalues.
  rewrite (insert_values_length _ _ _ Hvalues). simpl. done.
Qed.

End SqlText.

Lemma insert_statement_arity_witness :
  length (Exporter.insert_columns [("a", JS.JStr "x"); ("b", JS.JStr "NULL")]) = 2
  ∧ length [JS.JStr "'x'"; JS.JStr "NULL"] = 2.
Proof.
  refine (insert_statement_arity (H := JS.example_runtime)
            [("a", JS.JStr "x"); ("b", JS.JNull)]
            [("a", JS.JStr "x"); ("b", JS.JNull)]
            [JS.JStr "'x'"; JS.JStr "NULL"] _ _ _ _).
  - apply (bool_decide_unpack _). vm_compute. exact I.
  - apply (bool_decide_unpack _). vm_compute. exact I.
  - vm_compute. reflexivity.
  - vm_compute. reflexivity.
Defined.

Section Ties.
Import JS Exporter Spec Terms.

Lemma mostCommon_fold_last types others first :
  let pick := λ a b, if count_of types b <? count_of types a then a else b in
  let best := fold_left pick others first in
  ∃ before after,
    first :: others = before ++ best :: after
    ∧ ∀ tag, tag ∈ after → count_of types tag < count_of types best.
Proof.
  intros pick. revert first.
  induction others as [|b rest IH]; intros first; simpl.
  - exists [], []. split; [done |]. intros tag Htag. by apply elem_of_nil in Htag.
  - destruct (IH (pick first b)) as (before & after & Hsplit & Hafter).
    unfold pick in Hsplit at 1.
    destruct (Nat.ltb_spec (count_of types b) (count_of types first)) as [Hlt|Hge].
    + destruct before as [|x before]; simpl in Hsplit.
      * injection Hsplit as Hbest Hrest. exists [], (b :: rest).
        split; [simpl; by rewrite <- Hbest |].
        intros tag Htag. apply elem_of_cons in Htag as [->|Htag].
        -- by rewrite <- Hbest.
        -- apply Hafter. by rewrite <- Hrest.
      * injection Hsplit as <- Hrest. exists (first :: b :: before), after.
        split; [simpl; f_equal; f_equal; exact Hrest | done].
    + exists (first :: before), after. split; [simpl; f_equal; exact Hsplit | done].
Qed.

(** X22.  Among the tags of a field that were counted equally often, the
    one that comes last wins: every tag after the declared type in the
    order of the table was counted strictly less often. *)
Theorem mostCommon_last_of_the_largest types t :
  mostCommon types = Ok t →
  ∃ before after,
    map fst types = before ++ t :: after
    ∧ ∀ tag, tag ∈ after → count_of types tag < count_of types t.
Proof.
  unfold mostCommon. destruct (map fst types) as [|first others]; [discriminate |].
  intros [= <-]. apply mostCommon_fold_last.
Qed.

End Ties.

Lemma mostCommon_last_of_the_largest_witness :
  ∃ before after,
    map fst [("string", 2); ("number", 2); ("null", 1)] = before ++ "number" :: after
    ∧ ∀ tag, tag ∈ after →
        Exporter.count_of [("string", 2); ("number", 2); ("null", 1)] tag
        < Exporter.count_of [("string", 2); ("number", 2); ("null", 1)] "number".
Proof.
  apply (mostCommon_last_of_the_largest
           [("string", 2); ("number", 2); ("null", 1)] "number").
  vm_compute. reflexivity.
Defined.

Lemma validate_documents_forwards_all_witness :
  length [Importer.VRef 2; Importer.VRef 3] = length [Importer.VRef 0; Importer.VRef 1]
  ∧ Spec.grows_from Terms.sample_store Terms.sample_store_validated
  ∧ 1 ≤ length [Importer.VRef 0; Importer.VRef 1]
  ∧ (1 = 0 ↔ 1 = 0).
Proof.
  refine (validate_documents_forwards_all (H := JS.example_runtime)
            Importer.IMPORT_OPTIONS Terms.sample_schema
            [Importer.VRef 0; Importer.VRef 1] Terms.sample_store
            {| ImportData.validDocuments := [Importer.VRef 2; Importer.VRef 3];
               ImportData.invalidCount := 1;
               ImportData.totalTypeCasts := 1;
               ImportData.totalValidationErrors := 1;
               ImportData.totalValidationWarnings := 0 |}
            Terms.sample_store_validated _).
  vm_compute. reflexivity.
Defined.

Lemma importCollectionData_outcome_witness :
  ∃ outcome,
    Some (ImportData.Summary
            {| ImportData.success := true; ImportData.imported := 2;
               ImportData.total := 2; ImportData.typeCasts := 1;
               ImportData.summary_warnings := 0; ImportData.summary_errors := 1 |})
    = Some outcome
    ∧ (([Importer.VRef 0; Importer.VRef 1] = [] ∧ outcome = ImportData.Zero
        ∧ [ImportData.deleteMany;
           ImportData.insert (Importer.insertMany [Importer.VRef 2; Importer.VRef 3]);
           ImportData.insert (Importer.insertOne (Importer.VRef 2));
           ImportData.insert (Importer.insertOne (Importer.VRef 3))] = [])
       ∨ ([Importer.VRef 0; Importer.VRef 1] ≠ []
          ∧ ∃ summary outcomes,
              outcome = ImportData.Summary summary
              ∧ ImportData.success summary = true
              ∧ ImportData.total summary = 2
              ∧ ImportData.imported summary ≤ ImportData.total summary
              ∧ [ImportData.deleteMany;
                 ImportData.insert (Importer.insertMany [Importer.VRef 2; Importer.VRef 3]);
                 ImportData.insert (Importer.insertOne (Importer.VRef 2));
                 ImportData.insert (Importer.insertOne (Importer.VRef 3))]
                = [] ++ [ImportData.deleteMany]
                  ++ map ImportData.insert (Terms.batches_operations outcomes)
              ∧ length (concat (map snd outcomes)) = 2
              ∧ (true = false
                 → concat (map snd outcomes) = [Importer.VRef 0; Importer.VRef 1]))).
Proof.
  refine (importCollectionData_outcome (H := JS.example_runtime) Terms.rejects_bulk
            Importer.IMPORT_OPTIONS [Importer.VRef 0; Importer.VRef 1]
            Terms.sample_schema
            {| ImportData.store_of := Terms.sample_store; ImportData.requests := [] |}
            _
            {| ImportData.store_of := Terms.sample_store_validated;
               ImportData.requests :=
                 [ImportData.deleteMany;
                  ImportData.insert
                    (Importer.insertMany [Importer.VRef 2; Importer.VRef 3]);
                  ImportData.insert (Importer.insertOne (Importer.VRef 2));
                  ImportData.insert (Importer.insertOne (Importer.VRef 3))] |}
            _ _).
  - vm_compute. lia.
  - vm_compute. reflexivity.
Defined.

Lemma importCollectionData_throw_inserts_nothing_witness :
  [ImportData.deleteMany] = []
  ∨ (true = true ∧ false = false ∧ [ImportData.deleteMany] = [] ++ [ImportData.deleteMany]).
Proof.
  refine (importCollectionData_throw_inserts_nothing (H := JS.example_runtime)
            (λ _ _, false)
            Importer.IMPORT_OPTIONS [Importer.VRef 0; Importer.VRef 1]
            Terms.sample_schema
            {| ImportData.store_of := Terms.sample_store; ImportData.requests := [] |}
            "deleteMany rejected"
            {| ImportData.store_of := Terms.sample_store_validated;
               ImportData.requests := [ImportData.deleteMany] |} _).
  vm_compute. reflexivity.
Defined.

Lemma validateField_scalar_witness :
  ∃ finalValue castingPerformed s' finalType,
    Importer.validateField (H := JS.example_runtime) Importer.IMPORT_OPTIONS
      (Importer.VStr "34") (Importer.element_schema "number") "age"
      {| Importer.objects := []; Importer.errors := []; Importer.warnings := [];
         Importer.typeCastingCount := 0 |}
    = (JS.Ok (finalValue, castingPerformed), s')
    ∧ Importer.getValueType (Importer.objects s') finalValue = JS.Ok finalType
    ∧ Importer.errors s' = []
    ∧ Importer.warnings s'
      = [] ++ (if String.eqb finalType "number" then []
               else [Importer.mismatch_message Importer.IMPORT_OPTIONS "age"
                       finalType "number"])
    ∧ (true = false → finalValue = Importer.VStr "34" ∧ Importer.objects s' = []).
Proof.
  apply (validateField_scalar (H := JS.example_runtime) Importer.IMPORT_OPTIONS
           (Importer.VStr "34") (Importer.element_schema "number") "age"
           {| Importer.objects := []; Importer.errors := []; Importer.warnings := [];
              Importer.typeCastingCount := 0 |});
    reflexivity.
Defined.

Lemma validateDocument_keeps_keys_witness :
  ∃ h1, Importer.deep_copy (H := JS.example_runtime) (Importer.VRef 0) Terms.sample_store
        = (JS.Ok (Importer.VRef 2), h1)
        ∧ Terms.shape_kept h1
            (Terms.sample_store ++ [Importer.CObj [("age", Importer.VNum 34%float)]])
        ∧ map fst (Importer.own_fields
                     (Terms.sample_store
                      ++ [Importer.CObj [("age", Importer.VNum 34%float)]])
                     (Importer.VRef 2))
          = map fst (Importer.own_fields h1 (Importer.VRef 2)).
Proof.
  refine (validateDocument_keeps_keys (H := JS.example_runtime)
            Importer.IMPORT_OPTIONS (Importer.VRef 0) Terms.sample_schema
            Terms.sample_store
            {| Importer.isValid := true; Importer.document := Importer.VRef 2;
               Importer.report_errors := []; Importer.report_warnings := [];
               Importer.report_typeCastingCount := 1 |}
            (Terms.sample_store ++ [Importer.CObj [("age", Importer.VNum 34%float)]])
            _).
  vm_compute. reflexivity.
Defined.

Lemma validateDocument_warnings_witness :
  Forall (Terms.is_mismatch_message Importer.IMPORT_OPTIONS)
         ["Field 'age' has type 'string', expected 'number' (casting failed)"].
Proof.
  refine (validateDocument_warnings (H := JS.example_runtime)
            Importer.IMPORT_OPTIONS (Importer.VRef 0) Terms.sample_schema
            [Importer.CObj [("age", Importer.VStr "abc")]]
            {| Importer.isValid := true; Importer.document := Importer.VRef 1;
               Importer.report_errors := [];
               Importer.report_warnings :=
                 ["Field 'age' has type 'string', expected 'number' (casting failed)"];
               Importer.report_typeCastingCount := 0 |}
            [Importer.CObj [("age", Importer.VStr "abc")];
             Importer.CObj [("age", Importer.VStr "abc")]]
            _).
  vm_compute. reflexivity.
Defined.

Lemma validateDocument_missing_required_witness :
  Importer.missing_message "age" ∈ ["Required field 'age' is missing"]
  ∧ false = false.
Proof.
  refine (validateDocument_missing_required (H := JS.example_runtime)
            Importer.IMPORT_OPTIONS (Importer.VRef 1) Terms.sample_schema
            Terms.sample_store
            {| Importer.isValid := false; Importer.document := Importer.VRef 2;
               Importer.report_errors := ["Required field 'age' is missing"];
               Importer.report_warnings := [];
               Importer.report_typeCastingCount := 0 |}
            (Terms.sample_store ++ [Importer.CObj [("name", Importer.VStr "x")]])
            "age"
            {| Importer.type := "number"; Importer.required := true;
               Importer.nullCount := Some 0; Importer.nestedFields := None;
               Importer.arrayElementType := None |}
            _ _ _ _).
  - vm_compute. reflexivity.
  - left.
  - reflexivity.
  - reflexivity.
Defined.

Lemma getValueType_scripts_agree_witness :
  Importer.getValueType [Importer.CObjectId "65f0c0ffee"] (Importer.VRef 0)
  = JS.Ok "objectId".
Proof.
  refine (getValueType_scripts_agree 1 [Importer.CObjectId "65f0c0ffee"]
            (Importer.VRef 0) (JS.JObjectId "65f0c0ffee") "objectId" _ _);
    reflexivity.
Defined.

Lemma analyzeFieldTypes_top_level_rows_witness :
  ∃ table,
    Exporter.collect_types []
      [JS.JObj [("_id", JS.JObjectId "a1"); ("toString", JS.JStr "x");
                ("__proto__", JS.JStr "y"); ("string", JS.JStr "z")]] = JS.Ok table
    ∧ map fst [("_id", {| Exporter.type := "objectId"; Exporter.nullable := false;
                          Exporter.samples := 1 |})]
      = map fst (Exporter.rows table)
    ∧ (∀ fields key,
         JS.JObj fields ∈ [JS.JObj [("_id", JS.JObjectId "a1"); ("toString", JS.JStr "x");
                                    ("__proto__", JS.JStr "y"); ("string", JS.JStr "z")]] →
         key ∈ map fst fields → JS.inherited key = false → key ≠ "__proto__" →
         JS.has_own key (Exporter.on_prototype table) = false →
         key ∈ map fst [("_id", {| Exporter.type := "objectId";
                                   Exporter.nullable := false;
                                   Exporter.samples := 1 |})])
    ∧ (∀ key,
         key ∈ map fst [("_id", {| Exporter.type := "objectId";
                                   Exporter.nullable := false;
                                   Exporter.samples := 1 |})] →
         JS.inherited key = false ∧ key ≠ "__proto__")
    ∧ ((∀ key, key ∈ map fst (@nil (string * nat)) → key ∈ Spec.type_tags) →
       ∀ key, key ∈ map fst (Exporter.on_prototype table) → key ∈ Spec.type_tags).
Proof.
  refine (analyzeFieldTypes_top_level_rows []
            [JS.JObj [("_id", JS.JObjectId "a1"); ("toString", JS.JStr "x");
                      ("__proto__", JS.JStr "y"); ("string", JS.JStr "z")]]
            [("_id", {| Exporter.type := "objectId"; Exporter.nullable := false;
                        Exporter.samples := 1 |})] _).
  vm_compute. reflexivity.
Defined.

Lemma create_table_columns_with_id_witness :
  Exporter.create_table_columns [("undefined", 2)]
    [("_id", {| Exporter.type := "objectId"; Exporter.nullable := false;
                Exporter.samples := 1 |})]
  = map (λ entry, Exporter.column_definition [("undefined", 2)] entry.1 entry.2)
        [("_id", {| Exporter.type := "objectId"; Exporter.nullable := false;
                    Exporter.samples := 1 |})].
Proof.
  refine (create_table_columns_with_id []
            [JS.JObj [("_id", JS.JObjectId "a1"); ("toString", JS.JStr "x")]]
            [("_id", {| Exporter.type := "objectId"; Exporter.nullable := false;
                        Exporter.samples := 1 |})]
            [("_id", JS.JObjectId "a1"); ("toString", JS.JStr "x")] _ _ _ _
            [("undefined", 2)]).
  - intros key Hkey. by apply elem_of_nil in Hkey.
  - vm_compute. reflexivity.
  - left.
  - left.
Defined.

(** X26 on three documents, one of which has null under the field. *)
Lemma analyzeFieldTypes_reduces_untouched_witness :
  ∃ schema,
    Exporter.analyzeFieldTypes []
      [JS.JObj [("a", JS.JStr "x")]; JS.JObj [("a", JS.JNull)]; JS.JObj [("a", JS.JStr "y")]]
      = JS.Ok schema
    ∧ Forall2 (λ entry row, entry.1 = row.1 ∧ Spec.reduces_to row.2 entry.2)
        schema [("a", [("string", 2); ("null", 1)])].
Proof.
  exact (proj2 analyzeFieldTypes_reduces_untouched
           [JS.JObj [("a", JS.JStr "x")]; JS.JObj [("a", JS.JNull)];
            JS.JObj [("a", JS.JStr "y")]]
           {| Exporter.rows := [("a", [("string", 2); ("null", 1)])];
              Exporter.on_prototype := [] |}
           ltac:(vm_compute; reflexivity) ltac:(reflexivity)).
Defined.

Lemma cast_switch_result_type_witness :
  Importer.getValueType [] (Importer.VNum 34%float) = JS.Ok "number".
Proof.
  refine (cast_switch_result_type (H := JS.example_runtime) "number"
            (Importer.VStr "34") [] (Importer.VNum 34%float) [] _ _ _).
  - right. left.
  - reflexivity.
  - vm_compute. reflexivity.
Defined.

Lemma validate_fields_conforming_witness :
  Importer.validate_fields (H := JS.example_runtime) Importer.IMPORT_OPTIONS
    (Importer.VRef 0) (Importer.fields Terms.sample_schema)
    {| Importer.objects := [Importer.CObj [("age", Importer.VNum 34%float)]];
       Importer.errors := []; Importer.warnings := [];
       Importer.typeCastingCount := 0 |}
  = (JS.Ok (),
     {| Importer.objects := [Importer.CObj [("age", Importer.VNum 34%float)]];
        Importer.errors := []; Importer.warnings := [];
        Importer.typeCastingCount := 0 |}).
Proof.
  refine (validate_fields_conforming (H := JS.example_runtime)
            Importer.IMPORT_OPTIONS 0 [("age", Importer.VNum 34%float)]
            (Importer.fields Terms.sample_schema)
            {| Importer.objects := [Importer.CObj [("age", Importer.VNum 34%float)]];
               Importer.errors := []; Importer.warnings := [];
               Importer.typeCastingCount := 0 |} _ _ _).
  - reflexivity.
  - reflexivity.
  - constructor; [| constructor]. split; [split; reflexivity | reflexivity].
Defined.

Lemma validateField_nested_missing_unreported_witness :
  Importer.validateField (H := JS.example_runtime) Importer.IMPORT_OPTIONS
    (Importer.VRef 0)
    {| Importer.type := "object"; Importer.required := true;
       Importer.nullCount := Some 0;
       Importer.nestedFields :=
         Some [("zip", {| Importer.type := "string"; Importer.required := true;
                          Importer.nullCount := Some 0;
                          Importer.nestedFields := None;
                          Importer.arrayElementType := None |})];
       Importer.arrayElementType := None |}
    "address"
    {| Importer.objects := [Importer.CObj [("street", Importer.VStr "x")]];
       Importer.errors := []; Importer.warnings := [];
       Importer.typeCastingCount := 0 |}
  = (JS.Ok (Importer.VRef 0, false),
     {| Importer.objects := [Importer.CObj [("street", Importer.VStr "x")]];
        Importer.errors := []; Importer.warnings := [];
        Importer.typeCastingCount := 0 |}).
Proof.
  refine (validateField_nested_missing_unreported (H := JS.example_runtime)
            Importer.IMPORT_OPTIONS 0 [("street", Importer.VStr "x")]
            {| Importer.type := "object"; Importer.required := true;
               Importer.nullCount := Some 0;
               Importer.nestedFields :=
                 Some [("zip", {| Importer.type := "string"; Importer.required := true;
                                  Importer.nullCount := Some 0;
                                  Importer.nestedFields := None;
                                  Importer.arrayElementType := None |})];
               Importer.arrayElementType := None |}
            [("zip", {| Importer.type := "string"; Importer.required := true;
                        Importer.nullCount := Some 0;
                        Importer.nestedFields := None;
                        Importer.arrayElementType := None |})]
            "address"
            {| Importer.objects := [Importer.CObj [("street", Importer.VStr "x")]];
               Importer.errors := []; Importer.warnings := [];
               Importer.typeCastingCount := 0 |} _ _ _ _ _).
  - reflexivity.
  - reflexivity.
  - reflexivity.
  - reflexivity.
  - intros entry Hentry. apply list_elem_of_singleton in Hentry. by subst.
Defined.

Lemma deep_copy_round_trip_witness :
  ∃ t t' fuel,
    Importer.tree_of
      [Importer.CObj [("when", Importer.VRef 1)]; Importer.CDate (Some 0%Z)]
      (Importer.VRef 0) = JS.Ok t
    ∧ Importer.JSON_roundtrip (H := JS.example_runtime) t = Some t'
    ∧ Importer.reify fuel
        [Importer.CObj [("when", Importer.VRef 1)]; Importer.CDate (Some 0%Z);
         Importer.CObj [("when", Importer.VStr "1970-01-01T00:00:00.000Z")]]
        (Importer.VRef 2) = Some t'.
Proof.
  refine (deep_copy_round_trip (H := JS.example_runtime) (Importer.VRef 0)
            [Importer.CObj [("when", Importer.VRef 1)]; Importer.CDate (Some 0%Z)]
            (Importer.VRef 2)
            [Importer.CObj [("when", Importer.VRef 1)]; Importer.CDate (Some 0%Z);
             Importer.CObj [("when", Importer.VStr "1970-01-01T00:00:00.000Z")]] _).
  vm_compute. reflexivity.
Defined.

